(** * kasun-cv-2025: the resolver and the paginator of [src/App.tsx]

    A shallow embedding of the algorithmic parts of the single-page CV
    application: the version stamp ([computeVersionHash]), the path
    resolver ([editionMatch], [rootVersionMatch]), the data loader
    ([load]), the version status effect, the share URL, and the page
    slicing and clean-up of [handleDownloadPdf].

    The first part holds the embedding, followed by the few notions the
    statements need in words; the second part holds the properties; a
    last part holds further properties of the same code: the share link
    and the resolver, visits of a page, the hash, repeated exports and the
    share box. *)

From Stdlib Require Import QArith Qround Qreduction.
From Stdlib Require Floats Uint63 Qcanon.
From Stdlib Require Import ZArith String Ascii List Bool Lia.
Import ListNotations.

Local Open Scope Z_scope.

(** ** JavaScript strings and numbers *)

(** A JavaScript string is a sequence of UTF-16 code units. *)
Definition jsstring := list Z.

Definition cu (c : ascii) : Z := Z.of_N (N_of_ascii c).

Definition js (s : string) : jsstring := map cu (list_ascii_of_string s).

Definition jsstring_eq_dec : forall a b : jsstring, {a = b} + {a <> b} :=
  list_eq_dec Z.eq_dec.

(** [s1 === s2] on strings. *)
Definition strict_eq (a b : jsstring) : bool :=
  if jsstring_eq_dec a b then true else false.

Module JS.

(** ToInt32 and ToUint32 of an integral Number. *)
Definition toInt32 (x : Z) : Z := (x + 2 ^ 31) mod 2 ^ 32 - 2 ^ 31.
Definition toUint32 (x : Z) : Z := x mod 2 ^ 32.

(** [x << n]: both operands converted, the count taken modulo 32, the
    result a signed 32-bit integer. *)
Definition shl (x n : Z) : Z :=
  toInt32 (Z.shiftl (toInt32 x) (toUint32 n mod 32)).

(** [x ^ y]: both operands converted to signed 32-bit integers. *)
Definition bxor (x y : Z) : Z := Z.lxor (toInt32 x) (toInt32 y).

(** [x >>> n]: the left operand converted to an unsigned 32-bit integer. *)
Definition ushr (x n : Z) : Z :=
  Z.shiftr (toUint32 x) (toUint32 n mod 32).

(** One digit of [Number.prototype.toString(36)]: [0-9] then [a-z]. *)
Definition digit36 (d : Z) : Z :=
  if d <? 10 then cu "0" + d else cu "a" + (d - 10).

Fixpoint toString36_loop (fuel : nat) (n : Z) (acc : jsstring) : jsstring :=
  match fuel with
  | O => acc
  | S fuel' =>
      let acc' := digit36 (n mod 36) :: acc in
      if n <? 36 then acc' else toString36_loop fuel' (n / 36) acc'
  end.

(** [n.toString(36)] for a non-negative integer [n]; the fuel exceeds the
    number of base-36 digits of [n]. *)
Definition toString36 (n : Z) : jsstring :=
  toString36_loop (S (Z.to_nat (Z.log2 n))) n [].

(** [toUpperCase] on the Basic Latin letters, the only letters that
    [toString(36)] yields. *)
Definition upper_unit (c : Z) : Z :=
  if (cu "a" <=? c) && (c <=? cu "z") then c - 32 else c.
Definition toUpperCase (s : jsstring) : jsstring := map upper_unit s.

(** [s.padStart(n, c)] with a one-unit filler. *)
Definition padStart (s : jsstring) (n : nat) (c : Z) : jsstring :=
  repeat c (n - length s) ++ s.

(** [s.slice(-n)]. *)
Definition slice_last (s : jsstring) (n : nat) : jsstring :=
  skipn (length s - n) s.

End JS.

(** Exceptions the program can meet. *)
Inductive exn : Type :=
| URIError
| NetworkError
| SyntaxError
| SecurityError
| HTTPError (status : Z)
| NotFoundError.

Inductive completion (A : Type) : Type :=
| Normal (a : A)
| Throw (e : exn).
Arguments Normal {A} a.
Arguments Throw {A} e.

(** Truthiness of a [string | null] value: [null] and the empty string
    are falsy. *)
Definition truthy (v : option jsstring) : bool :=
  match v with
  | Some (_ :: _) => true
  | _ => false
  end.

(** [String(v)] for a [string | null] value. *)
Definition text (v : option jsstring) : jsstring :=
  match v with
  | Some s => s
  | None => js "null"
  end.

(** [v || null]. *)
Definition or_null (v : option jsstring) : option jsstring :=
  if truthy v then v else None.

(** ** Regular expressions

    A backtracking matcher for the constructs the two patterns of the
    resolver use: greedy quantifiers, ordered alternation, capture groups
    and the start-of-input assertion (no flags are set). What is
    quantified in them always consumes input, so the rule against empty
    iterations has nothing to do. *)

Inductive regex : Type :=
| Eps
| Bol
| Chr (c : Z)
| Class (p : Z -> bool)
| Seq (a b : regex)
| Alt (a b : regex)
| Opt (a : regex)
| Plus (a : regex)
| Rep (lo hi : nat) (a : regex)
| Group (i : nat) (a : regex).

(** The matcher's state: the index reached, the input from there on, and
    the captures made so far (most recent first). *)
Record mstate : Type := MState {
  idx : nat;
  rest : jsstring;
  caps : list (nat * jsstring)
}.

Definition advance (st : mstate) (t : jsstring) : mstate :=
  MState (S (idx st)) t (caps st).

Definition set_cap (i : nat) (v : jsstring) (st : mstate) : mstate :=
  MState (idx st) (rest st) ((i, v) :: caps st).

(** The greedy loops, over the matcher of the quantified atom: [more]
    takes up to [n] further iterations, [rep] between [lo] and [hi]. An
    iteration that fails gives way to the continuation. *)
Fixpoint more (atom : (mstate -> option mstate) -> mstate -> option mstate)
  (k : mstate -> option mstate) (n : nat) (st : mstate) : option mstate :=
  match n with
  | O => k st
  | S n' =>
      match atom (more atom k n') st with
      | Some m => Some m
      | None => k st
      end
  end.

Fixpoint rep (atom : (mstate -> option mstate) -> mstate -> option mstate)
  (k : mstate -> option mstate) (lo hi : nat) (st : mstate) : option mstate :=
  match hi with
  | O => k st
  | S hi' =>
      match atom (rep atom k (pred lo) hi') st with
      | Some m => Some m
      | None => match lo with O => k st | S _ => None end
      end
  end.

Fixpoint rmatch (r : regex) (k : mstate -> option mstate) (st : mstate)
  {struct r} : option mstate :=
  match r with
  | Eps => k st
  | Bol => if Nat.eqb (idx st) 0 then k st else None
  | Chr c =>
      match rest st with
      | x :: t => if x =? c then k (advance st t) else None
      | [] => None
      end
  | Class p =>
      match rest st with
      | x :: t => if p x then k (advance st t) else None
      | [] => None
      end
  | Seq a b => rmatch a (rmatch b k) st
  | Alt a b =>
      match rmatch a k st with
      | Some m => Some m
      | None => rmatch b k st
      end
  | Opt a =>
      match rmatch a k st with
      | Some m => Some m
      | None => k st
      end
  | Plus a => rmatch a (more (rmatch a) k (length (rest st))) st
  | Rep lo hi a => rep (rmatch a) k lo hi st
  | Group i a =>
      rmatch a
        (fun st' => k (set_cap i (firstn (idx st' - idx st) (rest st)) st')) st
  end.

(** The unanchored search of [String.prototype.match]: the first index at
    which the pattern matches. *)
Fixpoint search (r : regex) (i : nat) (s : jsstring) : option mstate :=
  match rmatch r (fun m => Some m) (MState i s []) with
  | Some m => Some m
  | None =>
      match s with
      | [] => None
      | _ :: t => search r (S i) t
      end
  end.

Definition exec (r : regex) (s : jsstring) : option mstate := search r 0 s.

(** A continuation that accepts every state. *)
Definition total (k : mstate -> option mstate) : Prop :=
  forall st, exists m, k st = Some m.

(** [m[i]] of a match object; [None] stands for [undefined]. *)
Fixpoint lookup_cap (i : nat) (l : list (nat * jsstring)) : option jsstring :=
  match l with
  | [] => None
  | (j, v) :: l' => if Nat.eqb i j then Some v else lookup_cap i l'
  end.

Definition group (i : nat) (m : mstate) : option jsstring :=
  lookup_cap i (caps m).

Definition in_range (lo hi : ascii) (c : Z) : bool :=
  (cu lo <=? c) && (c <=? cu hi).

(** [[^\/]] and [[A-Za-z0-9]]. *)
Definition not_slash (c : Z) : bool := negb (c =? cu "/").
Definition alnum (c : Z) : bool :=
  in_range "A" "Z" c || in_range "a" "z" c || in_range "0" "9" c.

(** [(?:^|\/)]. *)
Definition boundary : regex := Alt Bol (Chr (cu "/")).

(** [[A-Za-z0-9]{4,10}]. *)
Definition version_token : regex := Rep 4 10 (Class alnum).

(** [/(?:^|\/)e\/([^\/]+)(?:\/(?:v\/([A-Za-z0-9]{4,10}))?)?/]. *)
Definition edition_re : regex :=
  Seq boundary
   (Seq (Chr (cu "e"))
    (Seq (Chr (cu "/"))
     (Seq (Group 1 (Plus (Class not_slash)))
          (Opt (Seq (Chr (cu "/"))
                    (Opt (Seq (Chr (cu "v"))
                          (Seq (Chr (cu "/")) (Group 2 version_token))))))))).

(** [/(?:^|\/)v\/([A-Za-z0-9]{4,10})/]. *)
Definition version_re : regex :=
  Seq boundary (Seq (Chr (cu "v")) (Seq (Chr (cu "/")) (Group 1 version_token))).

(** ** [decodeURIComponent] and [encodeURIComponent] *)

Definition hex_val (c : Z) : option Z :=
  if in_range "0" "9" c then Some (c - cu "0")
  else if in_range "A" "F" c then Some (c - cu "A" + 10)
  else if in_range "a" "f" c then Some (c - cu "a" + 10)
  else None.

(** An escape [%XX] at the head of [s]: its octet and what follows. *)
Definition percent_octet (s : jsstring) : option (Z * jsstring) :=
  match s with
  | p :: h :: l :: t =>
      if p =? cu "%" then
        match hex_val h, hex_val l with
        | Some a, Some b => Some (16 * a + b, t)
        | _, _ => None
        end
      else None
  | _ => None
  end.

Fixpoint more_octets (n : nat) (s : jsstring) : option (list Z * jsstring) :=
  match n with
  | O => Some ([], s)
  | S n' =>
      match percent_octet s with
      | Some (b, t) =>
          match more_octets n' t with
          | Some (bs, t') => Some (b :: bs, t')
          | None => None
          end
      | None => None
      end
  end.

Definition is_continuation (b : Z) : bool := (128 <=? b) && (b <=? 191).

(** The code point of a well-formed UTF-8 sequence with lead octet [b]
    (overlong forms, surrogates and values above U+10FFFF are rejected). *)
Definition utf8_code_point (b : Z) (bs : list Z) : option Z :=
  if negb (forallb is_continuation bs) then None else
  match bs with
  | [b1] =>
      let v := (b - 192) * 64 + (b1 - 128) in
      if 128 <=? v then Some v else None
  | [b1; b2] =>
      let v := (b - 224) * 4096 + (b1 - 128) * 64 + (b2 - 128) in
      if (2048 <=? v) && negb ((55296 <=? v) && (v <=? 57343)) then Some v else None
  | [b1; b2; b3] =>
      let v := (b - 240) * 262144 + (b1 - 128) * 4096 + (b2 - 128) * 64 + (b3 - 128) in
      if (65536 <=? v) && (v <=? 1114111) then Some v else None
  | _ => None
  end.

Definition utf16_encode (v : Z) : jsstring :=
  if v <? 65536 then [v]
  else [55296 + (v - 65536) / 1024; 56320 + (v - 65536) mod 1024].

(** The number of leading one bits of an octet, as far as it matters:
    0, 1, 2, 3, 4, or more. *)
Definition leading_ones (b : Z) : nat :=
  if b <? 128 then 0
  else if b <? 192 then 1
  else if b <? 224 then 2
  else if b <? 240 then 3
  else if b <? 248 then 4
  else 5.

Fixpoint decode_loop (fuel : nat) (s : jsstring) : completion jsstring :=
  match fuel with
  | O => Normal []
  | S fuel' =>
      match s with
      | [] => Normal []
      | c :: t =>
          if c =? cu "%" then
            match percent_octet s with
            | None => Throw URIError
            | Some (b, t1) =>
                match leading_ones b with
                | O =>
                    match decode_loop fuel' t1 with
                    | Normal r => Normal (b :: r)
                    | Throw e => Throw e
                    end
                | S O => Throw URIError
                | S (S (S (S (S _)))) => Throw URIError
                | S n =>
                    match more_octets n t1 with
                    | None => Throw URIError
                    | Some (bs, t2) =>
                        match utf8_code_point b bs with
                        | None => Throw URIError
                        | Some v =>
                            match decode_loop fuel' t2 with
                            | Normal r => Normal (utf16_encode v ++ r)
                            | Throw e => Throw e
                            end
                        end
                    end
                end
            end
          else
            match decode_loop fuel' t with
            | Normal r => Normal (c :: r)
            | Throw e => Throw e
            end
      end
  end.

Definition decodeURIComponent (s : jsstring) : completion jsstring :=
  decode_loop (length s) s.

(** The characters [encodeURIComponent] leaves alone: letters, digits and
    the marks - _ . ! ~ * ' ( ). *)
Definition unreserved (c : Z) : bool :=
  alnum c ||
  existsb (Z.eqb c) (js "-_.!~*'()").

Definition hex_digit (d : Z) : Z :=
  if d <? 10 then cu "0" + d else cu "A" + (d - 10).

Definition percent (b : Z) : jsstring :=
  [cu "%"; hex_digit (b / 16); hex_digit (b mod 16)].

Definition utf8_encode (v : Z) : list Z :=
  if v <? 128 then [v]
  else if v <? 2048 then [192 + v / 64; 128 + v mod 64]
  else if v <? 65536 then
    [224 + v / 4096; 128 + (v / 64) mod 64; 128 + v mod 64]
  else
    [240 + v / 262144; 128 + (v / 4096) mod 64;
     128 + (v / 64) mod 64; 128 + v mod 64].

Definition is_lead_surrogate (c : Z) : bool := (55296 <=? c) && (c <=? 56319).
Definition is_trail_surrogate (c : Z) : bool := (56320 <=? c) && (c <=? 57343).

Fixpoint encode_loop (fuel : nat) (s : jsstring) : completion jsstring :=
  match fuel with
  | O => Normal []
  | S fuel' =>
      match s with
      | [] => Normal []
      | c :: t =>
          if unreserved c then
            match encode_loop fuel' t with
            | Normal r => Normal (c :: r)
            | Throw e => Throw e
            end
          else if is_trail_surrogate c then Throw URIError
          else if is_lead_surrogate c then
            match t with
            | d :: t' =>
                if is_trail_surrogate d then
                  let v := (c - 55296) * 1024 + (d - 56320) + 65536 in
                  match encode_loop fuel' t' with
                  | Normal r => Normal (flat_map percent (utf8_encode v) ++ r)
                  | Throw e => Throw e
                  end
                else Throw URIError
            | [] => Throw URIError
            end
          else
            match encode_loop fuel' t with
            | Normal r => Normal (flat_map percent (utf8_encode c) ++ r)
            | Throw e => Throw e
            end
      end
  end.

Definition encodeURIComponent (s : jsstring) : completion jsstring :=
  encode_loop (length s) s.

(** ** The resolver: edition and version from the page path *)

Definition editionMatch (path : jsstring) : option mstate :=
  exec edition_re path.

Definition rootVersionMatch (path : jsstring) : option mstate :=
  match editionMatch path with
  | None => exec version_re path
  | Some _ => None
  end.

(** [String(v)] for a capture, where [None] is [undefined]. *)
Definition capture_text (v : option jsstring) : jsstring :=
  match v with
  | Some s => s
  | None => js "undefined"
  end.

Definition initialEdition (path : jsstring) : completion (option jsstring) :=
  match editionMatch path with
  | Some m =>
      match decodeURIComponent (capture_text (group 1 m)) with
      | Normal e => Normal (Some e)
      | Throw x => Throw x
      end
  | None => Normal None
  end.

Definition providedVersionFromUrl (path : jsstring) : option jsstring :=
  match editionMatch path with
  | Some m => or_null (group 2 m)
  | None =>
      match rootVersionMatch path with
      | Some m => group 1 m
      | None => None
      end
  end.

(** ** The version stamp *)

(** The body of the [for] loop: [hash = ((hash << 5) + hash) ^ json.charCodeAt(i)].
    The sum is an exact Number: both summands are signed 32-bit integers. *)
Definition hash_step (hash c : Z) : Z := JS.bxor (JS.shl hash 5 + hash) c.

Definition hash_loop (json : jsstring) : Z := fold_left hash_step json 5381.

(** [hash >>> 0] after the loop. *)
Definition hash32 (json : jsstring) : Z := JS.ushr (hash_loop json) 0.

Definition stamp_of_hash (hash : Z) : jsstring :=
  let base36 := JS.toUpperCase (JS.toString36 hash) in
  JS.slice_last (JS.padStart base36 6 (cu "0")) 6.

Inductive status : Type := unknown | match_ | mismatch.

(** What [fetch] can do with a request: reject, or resolve to a response
    with its [ok] flag and status, whose [json()] yields a document or
    rejects ([None]). *)
Inductive fetch_outcome (Doc : Type) : Type :=
| Rejects
| Responds (ok : bool) (http_status : Z) (body : option Doc).
Arguments Rejects {Doc}.
Arguments Responds {Doc} ok http_status body.

Section App.

(** The parsed document and the built-in [JSON.stringify] on it. *)
Variable CVData : Type.
Variable JSON_stringify : CVData -> jsstring.

Definition computeVersionHash (data : CVData) : jsstring :=
  let json := JSON_stringify data in
  stamp_of_hash (hash32 json).

(** The component's state, the page's location, and the requests sent so
    far. *)
Record state : Type := State {
  edition : option jsstring;
  versionHash : option jsstring;
  versionStatus : status;
  cvData : option CVData;
  error : option jsstring;
  location_path : jsstring;
  requests : list jsstring
}.

(** The world outside: the answer to the [n]-th request, by its URL, and
    whether [history.replaceState] throws. *)
Record env : Type := Env {
  answer : nat -> jsstring -> fetch_outcome CVData;
  history_throws : bool
}.

Record response : Type := Response {
  ok : bool;
  http_status : Z;
  body : option CVData
}.

(** Computations that read the world, change the state and may throw. *)
Definition M (A : Type) : Type := env -> state -> completion A * state.

Definition ret {A : Type} (a : A) : M A := fun _ s => (Normal a, s).

Definition bind {A B : Type} (m : M A) (f : A -> M B) : M B :=
  fun w s =>
    match m w s with
    | (Normal a, s') => f a w s'
    | (Throw e, s') => (Throw e, s')
    end.

Definition throw {A : Type} (e : exn) : M A := fun _ s => (Throw e, s).

Definition try_catch {A : Type} (m : M A) (h : exn -> M A) : M A :=
  fun w s =>
    match m w s with
    | (Normal a, s') => (Normal a, s')
    | (Throw e, s') => h e w s'
    end.

Definition gets {A : Type} (f : state -> A) : M A := fun _ s => (Normal (f s), s).

Definition modify (f : state -> state) : M unit := fun _ s => (Normal tt, f s).

Notation "x <- m ;; k" := (bind m (fun x => k))
  (at level 61, m at next level, right associativity).
Notation "m ;;; k" := (bind m (fun _ => k))
  (at level 61, right associativity).

Definition setEdition (v : option jsstring) : M unit :=
  modify (fun s => State v (versionHash s) (versionStatus s) (cvData s)
                       (error s) (location_path s) (requests s)).

Definition setVersionHash (v : option jsstring) : M unit :=
  modify (fun s => State (edition s) v (versionStatus s) (cvData s)
                       (error s) (location_path s) (requests s)).

Definition setVersionStatus (v : status) : M unit :=
  modify (fun s => State (edition s) (versionHash s) v (cvData s)
                       (error s) (location_path s) (requests s)).

Definition setCvData (v : option CVData) : M unit :=
  modify (fun s => State (edition s) (versionHash s) (versionStatus s) v
                       (error s) (location_path s) (requests s)).

Definition setError (v : option jsstring) : M unit :=
  modify (fun s => State (edition s) (versionHash s) (versionStatus s) (cvData s)
                       v (location_path s) (requests s)).

(** [await fetch(url)]. *)
Definition fetch (url : jsstring) : M response :=
  fun w s =>
    let s' := State (edition s) (versionHash s) (versionStatus s) (cvData s)
                  (error s) (location_path s) (requests s ++ [url]) in
    match answer w (length (requests s)) url with
    | Rejects => (Throw NetworkError, s')
    | Responds o st b => (Normal (Response o st b), s')
    end.

(** [await response.json()]. *)
Definition json (r : response) : M CVData :=
  match body r with
  | Some data => ret data
  | None => throw SyntaxError
  end.

(** [window.history.replaceState({}, '', url)]. *)
Definition replaceState (url : jsstring) : M unit :=
  fun w s =>
    if history_throws w then (Throw SecurityError, s)
    else (Normal tt,
          State (edition s) (versionHash s) (versionStatus s) (cvData s)
              (error s) url (requests s)).

Definition default_file : jsstring := js "/cv-data.json".

Definition edition_file (e : option jsstring) : jsstring :=
  js "/cv-data-" ++ text e ++ js ".json".

Definition load_error : jsstring := js "Failed to load CV data.".

(** The [load] function of the data effect. [edition] and
    [providedVersionFromUrl] are the values of the render the effect
    belongs to. *)
Definition load : M unit :=
  edition_ <- gets edition ;;
  provided <- gets (fun s => providedVersionFromUrl (location_path s)) ;;
  let fileForEdition :=
    if truthy edition_ then edition_file edition_ else default_file in
  try_catch
    (response1 <- fetch fileForEdition ;;
     response_ <-
       (if negb (ok response1) then
          if truthy edition_ then
            response2 <- fetch default_file ;;
            if negb (ok response2) then throw (HTTPError (http_status response2))
            else
              setEdition None ;;;
              try_catch
                (replaceState
                   (js "/" ++ (if truthy provided then js "v/" ++ text provided
                               else [])))
                (fun _ => ret tt) ;;;
              ret response2
          else throw (HTTPError (http_status response1))
        else ret response1) ;;
     data <- json response_ ;;
     setCvData (Some data) ;;;
     let vHash := computeVersionHash data in
     setVersionHash (Some vHash))
    (fun e => setError (Some load_error)).

(** The data effect depends on [edition] alone: it runs on mount, and
    again after a run that changed [edition]. *)
Fixpoint load_effect (fuel : nat) : M unit :=
  match fuel with
  | O => ret tt
  | S fuel' =>
      before <- gets edition ;;
      load ;;;
      after <- gets edition ;;
      if match before, after with
         | None, None => true
         | Some a, Some b => strict_eq a b
         | _, _ => false
         end
      then ret tt
      else load_effect fuel'
  end.

(** The effect that settles [versionStatus]. *)
Definition status_effect : M unit :=
  versionStatus_ <- gets versionStatus ;;
  provided <- gets (fun s => providedVersionFromUrl (location_path s)) ;;
  versionHash_ <- gets versionHash ;;
  if match versionStatus_ with unknown => true | _ => false end
     && truthy provided && truthy versionHash_
  then setVersionStatus
         (if strict_eq (text provided) (text versionHash_) then match_ else mismatch)
  else ret tt.

(** The share URL of a render. *)
Definition configuredBaseOrigin : jsstring := js "https://cv.hapangama.com".

Definition shareUrl (runtimeOrigin : jsstring)
  (edition_ versionHash_ : option jsstring) : completion jsstring :=
  let baseOrigin :=
    if truthy (Some configuredBaseOrigin) then configuredBaseOrigin
    else runtimeOrigin in
  if truthy versionHash_ then
    if truthy edition_ then
      match encodeURIComponent (text edition_) with
      | Normal enc =>
          Normal (baseOrigin ++ js "/e/" ++ enc ++ js "/v/" ++ text versionHash_)
      | Throw x => Throw x
      end
    else Normal (baseOrigin ++ js "/v/" ++ text versionHash_)
  else
    if truthy edition_ then
      match encodeURIComponent (text edition_) with
      | Normal enc => Normal (baseOrigin ++ js "/e/" ++ enc)
      | Throw x => Throw x
      end
    else Normal baseOrigin.

(** The two effects that write the states above, run in any order and
    any number of times. *)
Inductive effect : Type := DataEffect | StatusEffect.

Definition run_effect (w : env) (s : state) (ev : effect) : state :=
  match ev with
  | DataEffect => snd (load w s)
  | StatusEffect => snd (status_effect w s)
  end.

Definition run_effects (w : env) (evs : list effect) (s : state) : state :=
  fold_left (run_effect w) evs s.

(** The state a page starts in, for a path whose edition decodes. *)
Definition initial_state (path : jsstring) (initialEdition_ : option jsstring) : state :=
  State initialEdition_ None unknown None None path [].

End App.

Arguments computeVersionHash {CVData} JSON_stringify data.
Arguments State {CVData}.
Arguments edition {CVData}.
Arguments versionHash {CVData}.
Arguments versionStatus {CVData}.
Arguments cvData {CVData}.
Arguments error {CVData}.
Arguments location_path {CVData}.
Arguments requests {CVData}.
Arguments Env {CVData}.
Arguments answer {CVData}.
Arguments history_throws {CVData}.
Arguments Response {CVData}.
Arguments ok {CVData}.
Arguments http_status {CVData}.
Arguments body {CVData}.
Arguments ret {CVData A}.
Arguments bind {CVData A B}.
Arguments throw {CVData A}.
Arguments try_catch {CVData A}.
Arguments gets {CVData A}.
Arguments modify {CVData}.
Arguments setEdition {CVData}.
Arguments setVersionHash {CVData}.
Arguments setVersionStatus {CVData}.
Arguments setCvData {CVData}.
Arguments setError {CVData}.
Arguments fetch {CVData}.
Arguments json {CVData}.
Arguments replaceState {CVData}.
Arguments load {CVData} JSON_stringify.
Arguments load_effect {CVData} JSON_stringify fuel.
Arguments status_effect {CVData}.
Arguments run_effect {CVData} JSON_stringify.
Arguments run_effects {CVData} JSON_stringify.
Arguments initial_state {CVData}.

(** The algorithm in the words of the specification: an accumulator kept
    in 32 bits by masking after each combining step. *)
Module StampSpec.

Definition mask32 (x : Z) : Z := Z.land x (Z.ones 32).

Definition combine (acc c : Z) : Z :=
  mask32 (Z.lxor (mask32 (Z.shiftl acc 5 + acc)) c).

Definition accumulate (s : jsstring) : Z := fold_left combine s 5381.

Definition stamp (s : jsstring) : jsstring :=
  let u := mask32 (accumulate s) in
  let digits := JS.toUpperCase (JS.toString36 u) in
  JS.slice_last (JS.padStart digits 6 (cu "0")) 6.

End StampSpec.

(** The last [k] upper-case base-36 digits of [n], zero-filled. *)
Fixpoint fixed_digits (k : nat) (n : Z) : jsstring :=
  match k with
  | O => []
  | S k' => fixed_digits k' (n / 36) ++ [JS.upper_unit (JS.digit36 (n mod 36))]
  end.

Definition base36_upper (c : Z) : Prop :=
  cu "0" <= c <= cu "9" \/ cu "A" <= c <= cu "Z".

(** ** The paginator of [handleDownloadPdf]

    The arithmetic of the page slicing is written once, over the
    operations of a JavaScript Number, and read twice: in IEEE-754 binary64
    (what the code runs on) and in exact rational arithmetic. A value that
    is not a finite number has no floor and no ceiling. *)

Module PDF_CONFIG.
Definition PAGE_WIDTH_MM : Z := 210.
Definition PAGE_HEIGHT_MM : Z := 297.
Definition PAGE_MARGIN_MM : Z := 15.
Definition PRINTABLE_WIDTH_MM : Z := 180.
Definition HTML2CANVAS_SCALE : Z := 2.
End PDF_CONFIG.

Class Number (num : Type) : Type := {
  of_int : Z -> num;
  mul : num -> num -> num;
  div : num -> num -> num;
  sub : num -> num -> num;
  lt : num -> num -> bool;
  floor : num -> option Z;
  ceil : num -> option Z
}.

(** [Math.min(a, b)] of two numbers. *)
Definition min_num {num : Type} `{Number num} (a b : num) : num :=
  if lt b a then b else a.

(** The whole part of a binary64 value, rounded down. *)
Definition float_floor (x : PrimFloat.float) : option Z :=
  match FloatOps.Prim2SF x with
  | SpecFloat.S754_zero _ => Some 0
  | SpecFloat.S754_finite s m e =>
      let v := if s then Z.neg m else Z.pos m in
      Some (if 0 <=? e then v * 2 ^ e else v / 2 ^ (- e))
  | SpecFloat.S754_infinity _ => None
  | SpecFloat.S754_nan => None
  end.

(** The binary64 value of an integer, exact below [2 ^ 53] in size. *)
Definition float_of_Z (z : Z) : PrimFloat.float :=
  if z <? 0 then PrimFloat.opp (PrimFloat.of_uint63 (Uint63.of_Z (- z)))
  else PrimFloat.of_uint63 (Uint63.of_Z z).

#[export] Instance binary64 : Number PrimFloat.float := {
  of_int := float_of_Z;
  mul := PrimFloat.mul;
  div := PrimFloat.div;
  sub := PrimFloat.sub;
  lt := PrimFloat.ltb;
  floor := float_floor;
  ceil := fun x => option_map Z.opp (float_floor (PrimFloat.opp x))
}.

(** Exact numbers: a reduced fraction, or [None] for what is not a finite
    number (here: the result of a division by zero). *)
Definition exact : Type := option Q.

Definition exact_op (f : Q -> Q -> Q) (a b : exact) : exact :=
  match a, b with
  | Some x, Some y => Some (Qred (f x y))
  | _, _ => None
  end.

#[export] Instance exact_number : Number exact := {
  of_int := fun z => Some (inject_Z z);
  mul := exact_op Qmult;
  div := fun a b =>
    match b with
    | Some y => if Qeq_bool y 0 then None else exact_op Qdiv a b
    | None => None
    end;
  sub := exact_op Qminus;
  lt := fun a b =>
    match a, b with
    | Some x, Some y => negb (Qle_bool y x)
    | _, _ => false
    end;
  floor := option_map Qfloor;
  ceil := option_map Qceiling
}.

(** One page's band of the bitmap: the row it starts at and its height. *)
Record slice (num : Type) : Type := Slice {
  sy : Z;
  sHeight : num
}.
Arguments Slice {num} sy sHeight.
Arguments sy {num} s.
Arguments sHeight {num} s.

(** [0, 1, ..., n - 1]. *)
Definition upto (n : Z) : list Z := map Z.of_nat (seq 0 (Z.to_nat n)).

Section Paginator.

Context {num : Type} `{Number num}.

Definition printableHeightMm : Z :=
  PDF_CONFIG.PAGE_HEIGHT_MM - PDF_CONFIG.PAGE_MARGIN_MM * 2.

Definition pxPerMm (imgWidthPx : Z) : num :=
  div (of_int imgWidthPx) (of_int PDF_CONFIG.PRINTABLE_WIDTH_MM).

Definition pageHeightPx (imgWidthPx : Z) : num :=
  mul (of_int printableHeightMm) (pxPerMm imgWidthPx).

Definition totalPages (imgWidthPx imgHeightPx : Z) : option Z :=
  ceil (div (of_int imgHeightPx) (pageHeightPx imgWidthPx)).

(** The body of the page loop: [sy] and [sHeight] of page [page]. *)
Definition page_slice (imgWidthPx imgHeightPx page : Z) : option (slice num) :=
  match floor (mul (of_int page) (pageHeightPx imgWidthPx)) with
  | Some sy_ =>
      Some (Slice sy_
              (min_num (pageHeightPx imgWidthPx)
                       (sub (of_int imgHeightPx) (of_int sy_))))
  | None => None
  end.

Fixpoint page_loop (imgWidthPx imgHeightPx : Z) (pages : list Z)
  : option (list (slice num)) :=
  match pages with
  | [] => Some []
  | page :: pages' =>
      match page_slice imgWidthPx imgHeightPx page,
            page_loop imgWidthPx imgHeightPx pages' with
      | Some sl, Some sls => Some (sl :: sls)
      | _, _ => None
      end
  end.

(** The slices of all pages, when the page count is a number. *)
Definition paginate (imgWidthPx imgHeightPx : Z) : option (list (slice num)) :=
  match totalPages imgWidthPx imgHeightPx with
  | Some n => page_loop imgWidthPx imgHeightPx (upto n)
  | None => None
  end.

(** What is left of the bitmap below the pages before the last one. *)
Definition remainder (imgWidthPx imgHeightPx n : Z) : num :=
  sub (of_int imgHeightPx) (mul (of_int (n - 1)) (pageHeightPx imgWidthPx)).

(** The height is a whole number of pages. *)
Definition exact_multiple (imgWidthPx imgHeightPx : Z) : bool :=
  match floor (div (of_int imgHeightPx) (pageHeightPx imgWidthPx)),
        ceil (div (of_int imgHeightPx) (pageHeightPx imgWidthPx)) with
  | Some a, Some b => a =? b
  | _, _ => false
  end.

End Paginator.

(** ** The page's document and the export's clean-up

    An element is known by its reference; it carries an [id], classes and
    children. A document is its [head] and [body] and the next reference
    to hand out. *)

#[warnings="-register-all"]
Inductive node : Type :=
| Node (ref : nat) (node_id : jsstring) (classes : list jsstring)
       (children : list node).

Definition ref (n : node) : nat := match n with Node r _ _ _ => r end.
Definition node_id (n : node) : jsstring := match n with Node _ i _ _ => i end.
Definition classes (n : node) : list jsstring := match n with Node _ _ c _ => c end.
Definition children (n : node) : list node := match n with Node _ _ _ ch => ch end.

(** Induction on an element with its children. *)
Section NodeInduction.
Variable P : node -> Prop.
Hypothesis step : forall r i c ch, Forall P ch -> P (Node r i c ch).
Fixpoint node_children_ind (n : node) : P n :=
  match n with
  | Node r i c ch =>
      step r i c ch
        ((fix all (l : list node) : Forall P l :=
            match l with
            | [] => Forall_nil P
            | x :: t => Forall_cons x (node_children_ind x) (all t)
            end) ch)
  end.
End NodeInduction.

Record document : Type := Document {
  doc_head : node;
  doc_body : node;
  next_ref : nat
}.

(** The first answer a list gives. *)
Section FirstSome.
Context {A B : Type} (f : A -> option B).
Fixpoint first_some (l : list A) : option B :=
  match l with
  | [] => None
  | x :: t =>
      match f x with
      | Some y => Some y
      | None => first_some t
      end
  end.
End FirstSome.

(** The first element with the given [id], in tree order. *)
Fixpoint find_id (i : jsstring) (n : node) : option node :=
  match n with
  | Node _ j _ ch =>
      if strict_eq j i then Some n else first_some (find_id i) ch
  end.

Definition getElementById (d : document) (i : jsstring) : option node :=
  match find_id i (doc_head d) with
  | Some n => Some n
  | None => find_id i (doc_body d)
  end.

(** Copying a list of elements, handing out references as it goes. *)
Section CloneAll.
Context (clone : nat -> node -> node * nat).
Fixpoint clone_all (next : nat) (l : list node) : list node * nat :=
  match l with
  | [] => ([], next)
  | x :: t =>
      let (x', n1) := clone next x in
      let (t', n2) := clone_all n1 t in
      (x' :: t', n2)
  end.
End CloneAll.

(** [n.cloneNode(true)]: a copy of the subtree, every element of it new. *)
Fixpoint cloneNode (next : nat) (n : node) : node * nat :=
  match n with
  | Node _ i c ch =>
      let (ch', next') := clone_all (fun k x => cloneNode k x) (S next) ch in
      (Node next i c ch', next')
  end.

(** [n.querySelectorAll(sel).forEach(el => el.remove())]. *)
Fixpoint remove_all (sel : node -> bool) (n : node) : node :=
  match n with
  | Node r i c ch =>
      Node r i c (filter (fun x => negb (sel x)) (map (remove_all sel) ch))
  end.

Definition has_class (c : jsstring) (n : node) : bool :=
  existsb (strict_eq c) (classes n).

Definition appendChild (parent child : node) : node :=
  match parent with
  | Node r i c ch => Node r i c (ch ++ [child])
  end.

Definition is_child (parent : node) (r : nat) : bool :=
  existsb (fun x => Nat.eqb (ref x) r) (children parent).

(** [parent.removeChild(child)]: an error when [child] is no child. *)
Definition removeChild (parent : node) (r : nat) : completion node :=
  if is_child parent r then
    match parent with
    | Node r0 i c ch =>
        Normal (Node r0 i c (filter (fun x => negb (Nat.eqb (ref x) r)) ch))
    end
  else Throw NotFoundError.

(** A change made to the child with reference [r], where it is. *)
Definition update_child (r : nat) (f : node -> node) (parent : node) : node :=
  match parent with
  | Node r0 i c ch =>
      Node r0 i c (map (fun x => if Nat.eqb (ref x) r then f x else x) ch)
  end.

Definition set_id (i : jsstring) (n : node) : node :=
  match n with
  | Node r _ c ch => Node r i c ch
  end.

(** The page as the export sees it: the document, the flag of the button,
    whether the alert was shown and whether a file was saved. *)
Record page : Type := Page {
  dom : document;
  isDownloading : bool;
  alerted : bool;
  saved : bool
}.

(** How the [try] block ends: the file is saved, or rasterizing or
    assembling throws. *)
Inductive try_end : Type := Saves | Throws.

(** [.floating-actions, #pdf-download-button, .version-toast]. *)
Definition interactive (n : node) : bool :=
  has_class (js "floating-actions") n
  || strict_eq (node_id n) (js "pdf-download-button")
  || has_class (js "version-toast") n.

(** The footer: a row holding the QR box and the text. *)
Definition print_footer (r : nat) : node :=
  Node r (js "print-footer") []
    [Node (r + 1) [] []
       [Node (r + 2) (js "print-footer-qr") [] []; Node (r + 3) [] [] []]].

(** The export, from the look-up of [cv-content] to the end of [finally].
    [setIsDownloading(true)] comes before the clone is made, so the flag
    is up wherever the function is left by an exception. *)
Definition handleDownloadPdf (e : try_end) (p : page) : completion unit * page :=
  match getElementById (dom p) (js "cv-content") with
  | None => (Normal tt, p)
  | Some cvElement =>
      let d := dom p in
      (* the clone, its footer, and the style element *)
      let (copy, r1) := cloneNode (next_ref d) cvElement in
      let clone := set_id (js "cv-pdf-clone") copy in
      let clone := remove_all interactive clone in
      let clone := appendChild clone (print_footer r1) in
      let body1 := appendChild (doc_body d) clone in
      let style := Node (r1 + 4) (js "temp-pdf-styles") [] [] in
      let head1 := appendChild (doc_head d) style in
      (* the icons go, in the clone where it hangs *)
      let body2 :=
        update_child (ref clone) (remove_all (has_class (js "cv-icon"))) body1 in
      let d2 := Document head1 body2 (r1 + 5) in
      (* try ... catch *)
      let alerted_ := match e with Saves => alerted p | Throws => true end in
      let saved_ := match e with Saves => true | Throws => saved p end in
      (* finally *)
      let head3 :=
        match getElementById d2 (js "temp-pdf-styles") with
        | Some tempStyle => removeChild (doc_head d2) (ref tempStyle)
        | None => Normal (doc_head d2)
        end in
      match head3 with
      | Throw x => (Throw x, Page d2 true alerted_ saved_)
      | Normal head3 =>
          let body3 :=
            if is_child (doc_body d2) (ref clone) then
              removeChild (doc_body d2) (ref clone)
            else Normal (doc_body d2) in
          match body3 with
          | Throw x => (Throw x, Page (Document head3 (doc_body d2) (r1 + 5))
                                      true alerted_ saved_)
          | Normal body3 =>
              (Normal tt, Page (Document head3 body3 (r1 + 5)) false alerted_ saved_)
          end
      end
  end.

(** The references of these elements are all below [n]. *)
Definition refs_below (n : nat) (l : list node) : Prop :=
  Forall (fun x => (ref x < n)%nat) l.

(** The slices of a bitmap cut into whole bands of [p] rows: band [k]
    starts at row [k * p] and is [p] rows high, or what is left. *)
Definition band {num : Type} `{Number num} (p imgHeightPx k : Z) : slice num :=
  Slice (k * p) (of_int (Z.min p (imgHeightPx - k * p))).

(** The ceiling of [a / b] in integers. *)
Definition ceil_div (a b : Z) : Z := - ((- a) / b).

Definition slice_eqb (a b : slice PrimFloat.float) : bool :=
  (sy a =? sy b) && PrimFloat.eqb (sHeight a) (sHeight b).

Fixpoint slices_eqb (l1 l2 : list (slice PrimFloat.float)) : bool :=
  match l1, l2 with
  | [], [] => true
  | a :: l1', b :: l2' => slice_eqb a b && slices_eqb l1' l2'
  | _, _ => false
  end.

(** In binary64, a bitmap [60 * m] wide and [h] high is cut into whole
    bands of [89 * m] rows. *)
Definition cut_in_bands (m h : Z) : bool :=
  match paginate (num := PrimFloat.float) (60 * m) h with
  | Some l =>
      slices_eqb l (map (band (89 * m) h) (upto (ceil_div h (89 * m))))
  | None => false
  end.

(** ** The two path patterns, in words

    The start of input or a slash comes first; then the marker; then, for
    an edition, at least one character that is not a slash, and for a
    version, a token of four to ten letters and digits. *)

Definition at_boundary (pre : jsstring) : Prop :=
  pre = [] \/ exists q, pre = q ++ [cu "/"].

Definition is_token (tok : jsstring) : Prop :=
  (4 <= length tok <= 10)%nat /\ Forall (fun c => alnum c = true) tok.

Definition edition_pattern (path : jsstring) : Prop :=
  exists pre c t,
    path = pre ++ js "e/" ++ c :: t /\ c <> cu "/" /\ at_boundary pre.

Definition version_pattern (path : jsstring) : Prop :=
  exists pre tok t,
    path = pre ++ js "v/" ++ tok ++ t /\ is_token tok /\ at_boundary pre.

(** The path the fallback leaves in the address bar: the root, with the
    version segment when the page was opened with one. *)
Definition fallback_path (provided : option jsstring) : jsstring :=
  match provided with
  | Some v => js "/v/" ++ v
  | None => js "/"
  end.

(** ** The share URL, in words

    The optional segments: an edition or a stamp is present when it is
    neither [null] nor empty. *)

Definition edition_segment (e : option jsstring) : completion jsstring :=
  match e with
  | Some (c :: e') =>
      match encodeURIComponent (c :: e') with
      | Normal enc => Normal (js "/e/" ++ enc)
      | Throw x => Throw x
      end
  | _ => Normal []
  end.

Definition version_segment (v : option jsstring) : jsstring :=
  match v with
  | Some (c :: v') => js "/v/" ++ c :: v'
  | _ => []
  end.

(** ** Sample worlds

    A document is stood for by its JSON text. The servers below answer
    the first request with 404 and then serve the document, or answer
    with 404 and then with 500, or reject every request. *)

Definition sample_doc : jsstring := js "[2235804]".

Definition serves_default_only : env jsstring :=
  Env (fun n _ => match n with
                  | O => Responds false 404 None
                  | S _ => Responds true 200 (Some sample_doc)
                  end) false.

Definition serves_nothing : env jsstring :=
  Env (fun n _ => match n with
                  | O => Responds false 404 None
                  | S _ => Responds false 500 None
                  end) false.

Definition unreachable : env jsstring := Env (fun _ _ => Rejects) false.

Definition opened_at (path : jsstring) : state jsstring :=
  match initialEdition path with
  | Normal e => initial_state path e
  | Throw _ => initial_state path None
  end.

(** A page opened at [path] whose document has arrived. *)
Definition loaded_at (path : jsstring) : state jsstring :=
  State None (Some (computeVersionHash (fun d => d) sample_doc)) unknown
    (Some sample_doc) None path [js "/cv-data.json"].

(** A small page: a title in [head]; in [body] the root, holding the CV
    with a header, an icon, the floating actions with the download button,
    and a toast. *)
Definition sample_page : page :=
  Page
    (Document
       (Node 0 [] [] [Node 1 [] [] []])
       (Node 2 [] []
          [Node 3 (js "root") []
             [Node 4 (js "cv-content") []
                [Node 5 [] [] [Node 6 (js "profile-photo") [] []];
                 Node 7 [] [js "cv-icon"] [];
                 Node 8 [] [js "floating-actions"]
                   [Node 9 (js "pdf-download-button") [] []];
                 Node 10 [] [js "version-toast"] []]]])
       11)
    false false false.

(** ** Notions for the further properties *)

(** A UTF-16 code unit. *)
Definition is_code_unit (c : Z) : Prop := 0 <= c < 65536.

(** Where a run of characters of a class ends: at the end of the input or
    before a character that is not of the class. *)
Definition run_ends (p : Z -> bool) (t : jsstring) : Prop :=
  match t with
  | [] => True
  | x :: _ => p x = false
  end.

(** ** Well-formed UTF-16

    A text in which every surrogate is half of a pair: the texts that
    [encodeURIComponent] accepts. *)
Definition no_surrogate (c : Z) : Prop :=
  is_lead_surrogate c = false /\ is_trail_surrogate c = false.

Inductive well_formed : jsstring -> Prop :=
| wf_nil : well_formed []
| wf_unit c s : no_surrogate c -> well_formed s -> well_formed (c :: s)
| wf_pair c d s :
    is_lead_surrogate c = true -> is_trail_surrogate d = true ->
    well_formed s -> well_formed (c :: d :: s).

(** ** What the component shows

    The two early returns of the component and the page proper: the error
    message when [error] is truthy, [Loading...] when [cvData] is falsy.
    [data_truthy] tells whether a document is a truthy value, as every
    object is. *)
Inductive screen (CVData : Type) : Type :=
| ErrorPage (message : jsstring)
| LoadingPage
| CVPage (data : CVData).
Arguments ErrorPage {CVData} message.
Arguments LoadingPage {CVData}.
Arguments CVPage {CVData} data.

Definition render {CVData : Type} (data_truthy : CVData -> bool)
  (s : state CVData) : screen CVData :=
  if truthy (error s) then ErrorPage (text (error s))
  else
    match cvData s with
    | Some data => if data_truthy data then CVPage data else LoadingPage
    | None => LoadingPage
    end.

(** ** The export, in two halves

    The document as the [try] block finds it, with the clone and the style
    element attached, and the clone's reference; and what [catch] and
    [finally] make of it. *)
Definition export_setup (d : document) (cvElement : node) : document * nat :=
  let (copy, r1) := cloneNode (next_ref d) cvElement in
  let clone := set_id (js "cv-pdf-clone") copy in
  let clone := remove_all interactive clone in
  let clone := appendChild clone (print_footer r1) in
  let body1 := appendChild (doc_body d) clone in
  let style := Node (r1 + 4) (js "temp-pdf-styles") [] [] in
  let head1 := appendChild (doc_head d) style in
  let body2 :=
    update_child (ref clone) (remove_all (has_class (js "cv-icon"))) body1 in
  (Document head1 body2 (r1 + 5), ref clone).

Definition export_finally (e : try_end) (p : page) (d2 : document) (clone : nat)
  : completion unit * page :=
  let alerted_ := match e with Saves => alerted p | Throws => true end in
  let saved_ := match e with Saves => true | Throws => saved p end in
  let head3 :=
    match getElementById d2 (js "temp-pdf-styles") with
    | Some tempStyle => removeChild (doc_head d2) (ref tempStyle)
    | None => Normal (doc_head d2)
    end in
  match head3 with
  | Throw x => (Throw x, Page d2 true alerted_ saved_)
  | Normal head3 =>
      let body3 :=
        if is_child (doc_body d2) clone then removeChild (doc_body d2) clone
        else Normal (doc_body d2) in
      match body3 with
      | Throw x => (Throw x, Page (Document head3 (doc_body d2) (next_ref d2))
                                  true alerted_ saved_)
      | Normal body3 =>
          (Normal tt, Page (Document head3 body3 (next_ref d2)) false alerted_ saved_)
      end
  end.

(** Some element below [n] is selected by [sel]. *)
Fixpoint any_descendant (sel : node -> bool) (n : node) : bool :=
  match n with
  | Node _ _ _ ch => existsb (fun x => sel x || any_descendant sel x) ch
  end.

(** A page an export can start on: the button is enabled, the elements
    were all made before, and none has the [id] of the clone or of the
    style element. *)
Definition clean (p : page) : Prop :=
  isDownloading p = false /\
  refs_below (next_ref (dom p)) (children (doc_head (dom p))) /\
  refs_below (next_ref (dom p)) (children (doc_body (dom p))) /\
  getElementById (dom p) (js "temp-pdf-styles") = None /\
  getElementById (dom p) (js "cv-pdf-clone") = None.

(** One export after another. *)
Definition exports (es : list try_end) (p : page) : page :=
  fold_left (fun q e => snd (handleDownloadPdf e q)) es p.

Definition is_saves (e : try_end) : bool :=
  match e with Saves => true | Throws => false end.

(** ** More sample worlds

    A server that serves the sample document for every file, and one
    that serves the JSON value [null]; a document, stood for by its JSON
    text, is truthy unless it is [null]. *)
Definition serves_sample : env jsstring :=
  Env (fun _ _ => Responds true 200 (Some sample_doc)) false.

Definition serves_null : env jsstring :=
  Env (fun _ _ => Responds true 200 (Some (js "null"))) false.

Definition not_null (d : jsstring) : bool := negb (strict_eq d (js "null")).

(** ** The share box

    The share box while the CV is on the page: whether it is visible, the
    share URL of the last render, the QR codes drawn in the container
    [qrCodeRef] (each stood for by its text; [None] when the ref is
    [null]), and the URL remembered in [previousQrUrlRef]. *)
Record share_box : Type := ShareBox {
  isShareBoxVisible : bool;
  rendered_url : jsstring;
  qrCodeRef : option (list jsstring);
  previousQrUrlRef : option jsstring
}.

(** What [navigator.share] does: it is missing, or its promise resolves
    or rejects. *)
Inductive native_share : Type := NoShare | ShareResolves | ShareRejects.

Definition handleNativeShare (n : native_share) : bool :=
  match n with
  | ShareResolves => true
  | ShareRejects => false
  | NoShare => false
  end.

Definition setIsShareBoxVisible (f : bool -> bool) (s : share_box) : share_box :=
  ShareBox (f (isShareBoxVisible s)) (rendered_url s) (qrCodeRef s)
    (previousQrUrlRef s).

Definition handleShareButtonClick (n : native_share) (s : share_box) : share_box :=
  let usedNative := handleNativeShare n in
  if negb usedNative then setIsShareBoxVisible negb s else s.

(** The effect that draws the QR code, for the share URL of the render it
    belongs to. [new QRCode(el, ...)] draws one code in [el]. *)
Definition qr_effect (s : share_box) : share_box :=
  if negb (isShareBoxVisible s) then s
  else
    match qrCodeRef s with
    | None => s
    | Some _ =>
        if match previousQrUrlRef s with
           | Some u => strict_eq u (rendered_url s)
           | None => false
           end
        then s
        else ShareBox (isShareBoxVisible s) (rendered_url s)
               (Some ([] ++ [rendered_url s])) (Some (rendered_url s))
    end.

(** What happens to the share box: the pointer enters or leaves its
    area, the share button is clicked, or a render comes with another
    share URL. *)
Inductive box_event : Type :=
| MouseEnter
| MouseLeave
| ShareClick (n : native_share)
| UrlChange (url : jsstring).

Definition box_handle (ev : box_event) (s : share_box) : share_box :=
  match ev with
  | MouseEnter => setIsShareBoxVisible (fun _ => true) s
  | MouseLeave => setIsShareBoxVisible (fun _ => false) s
  | ShareClick n => handleShareButtonClick n s
  | UrlChange url =>
      ShareBox (isShareBoxVisible s) url (qrCodeRef s) (previousQrUrlRef s)
  end.

(** The effect runs after a render in which [isShareBoxVisible] or
    [shareUrl] changed. *)
Definition box_step (s : share_box) (ev : box_event) : share_box :=
  let s' := box_handle ev s in
  if Bool.eqb (isShareBoxVisible s) (isShareBoxVisible s')
     && strict_eq (rendered_url s) (rendered_url s')
  then s'
  else qr_effect s'.

(** The share box as the CV appears: hidden, the container empty. *)
Definition box_mounted (url : jsstring) : share_box :=
  ShareBox false url (Some []) None.

(** What holds of the share box at every moment: the container holds
    nothing, or the one code of the remembered URL; and while the box is
    visible the remembered URL is the share URL. *)
Definition box_invariant (s : share_box) : Prop :=
  (qrCodeRef s = Some [] /\ previousQrUrlRef s = None \/
   exists u, qrCodeRef s = Some [u] /\ previousQrUrlRef s = Some u) /\
  (isShareBoxVisible s = true -> previousQrUrlRef s = Some (rendered_url s)).

(* ================================================================== *)
(** * Properties *)

(** ** Arithmetic of the 32-bit accumulator *)

Lemma two_32_pos : 0 < 2 ^ 32.
Proof. reflexivity. Qed.

Lemma toInt32_range x : - 2 ^ 31 <= JS.toInt32 x < 2 ^ 31.
Proof.
  unfold JS.toInt32.
  pose proof (Z.mod_pos_bound (x + 2 ^ 31) (2 ^ 32) two_32_pos).
  change (2 ^ 32) with (2 * 2 ^ 31) in *. lia.
Qed.

Lemma toInt32_mod x : JS.toInt32 x mod 2 ^ 32 = x mod 2 ^ 32.
Proof.
  unfold JS.toInt32.
  rewrite (Z.mod_eq (x + 2 ^ 31) (2 ^ 32)) by (pose proof two_32_pos; lia).
  replace (x + 2 ^ 31 - 2 ^ 32 * ((x + 2 ^ 31) / 2 ^ 32) - 2 ^ 31)
    with (x + (- ((x + 2 ^ 31) / 2 ^ 32)) * 2 ^ 32) by ring.
  apply Z_mod_plus_full.
Qed.

Lemma lxor_mod_pow2 a b n :
  0 <= n -> Z.lxor a b mod 2 ^ n = Z.lxor (a mod 2 ^ n) (b mod 2 ^ n).
Proof.
  intros Hn. rewrite <- !Z.land_ones by assumption.
  apply Z.bits_inj'. intros i Hi.
  rewrite Z.lxor_spec, !Z.land_spec, Z.lxor_spec.
  destruct (Z.testbit a i), (Z.testbit b i), (Z.testbit (Z.ones n) i);
    reflexivity.
Qed.

Lemma mask32_mod x : StampSpec.mask32 x = x mod 2 ^ 32.
Proof. unfold StampSpec.mask32. apply Z.land_ones. lia. Qed.

Lemma shl5_mod h : JS.shl h 5 mod 2 ^ 32 = (h * 32) mod 2 ^ 32.
Proof.
  unfold JS.shl. rewrite toInt32_mod.
  change (JS.toUint32 5 mod 32) with 5.
  rewrite Z.shiftl_mul_pow2 by lia. change (2 ^ 5) with 32.
  rewrite <- Z.mul_mod_idemp_l, toInt32_mod, Z.mul_mod_idemp_l; easy.
Qed.

Lemma lxor_small a b n :
  0 <= n -> 0 <= a < 2 ^ n -> 0 <= b < 2 ^ n -> 0 <= Z.lxor a b < 2 ^ n.
Proof.
  intros Hn Ha Hb.
  assert (Hx : 0 <= Z.lxor a b) by (apply Z.lxor_nonneg; lia).
  split; [assumption|].
  destruct (Z.eq_dec (Z.lxor a b) 0) as [->|Hne].
  - apply Z.pow_pos_nonneg; lia.
  - assert (Hn' : 0 < n).
    { destruct (Z.eq_dec n 0) as [->|]; [|lia].
      change (2 ^ 0) with 1 in *.
      assert (a = 0) by lia. assert (b = 0) by lia. subst.
      contradiction Hne. reflexivity. }
    apply Z.log2_lt_pow2; [lia|].
    apply Z.le_lt_trans with (Z.max (Z.log2 a) (Z.log2 b)).
    + apply Z.log2_lxor; lia.
    + apply Z.max_lub_lt.
      * destruct (Z.eq_dec a 0) as [->|]; [simpl; lia|apply Z.log2_lt_pow2; lia].
      * destruct (Z.eq_dec b 0) as [->|]; [simpl; lia|apply Z.log2_lt_pow2; lia].
Qed.

Lemma lxor_int32 a b :
  - 2 ^ 31 <= a < 2 ^ 31 -> - 2 ^ 31 <= b < 2 ^ 31 ->
  - 2 ^ 31 <= Z.lxor a b < 2 ^ 31.
Proof.
  intros Ha Hb.
  assert (Hnot : forall v, v < 0 -> - 2 ^ 31 <= v -> 0 <= Z.lnot v < 2 ^ 31)
    by (intros v ? ?; unfold Z.lnot; lia).
  assert (Hback : forall v, - 2 ^ 31 <= Z.lnot v -> Z.lnot v < 0 -> 0 <= v < 2 ^ 31)
    by (intros v; unfold Z.lnot; lia).
  assert (H31 : 0 <= 31) by discriminate.
  destruct (Z.neg_nonneg_cases a) as [Na|Pa], (Z.neg_nonneg_cases b) as [Nb|Pb].
  - rewrite <- Z.lxor_lnot_lnot.
    pose proof (lxor_small _ _ 31 H31 (Hnot a Na (proj1 Ha)) (Hnot b Nb (proj1 Hb))).
    lia.
  - pose proof (lxor_small _ _ 31 H31 (Hnot a Na (proj1 Ha)) (conj Pb (proj2 Hb))) as H.
    rewrite <- Z.lnot_lxor_l in H. unfold Z.lnot in H. lia.
  - pose proof (lxor_small _ _ 31 H31 (conj Pa (proj2 Ha)) (Hnot b Nb (proj1 Hb))) as H.
    rewrite <- Z.lnot_lxor_r in H. unfold Z.lnot in H. lia.
  - pose proof (lxor_small _ _ 31 H31 (conj Pa (proj2 Ha)) (conj Pb (proj2 Hb))). lia.
Qed.

(** The accumulator stays a signed 32-bit integer, so every [+] of the
    loop adds two integers below [2 ^ 31] in size: the sum is exact. *)
Lemma hash_step_range h c : - 2 ^ 31 <= hash_step h c < 2 ^ 31.
Proof.
  unfold hash_step, JS.bxor. apply lxor_int32; apply toInt32_range.
Qed.

Lemma hash_loop_range json : - 2 ^ 31 <= hash_loop json < 2 ^ 31.
Proof.
  unfold hash_loop.
  assert (H : - 2 ^ 31 <= 5381 < 2 ^ 31) by (split; [discriminate|reflexivity]).
  revert H. generalize 5381. induction json as [|c json IH]; intros h Hh.
  - exact Hh.
  - simpl. apply IH, hash_step_range.
Qed.

Lemma hash32_range json : 0 <= hash32 json < 2 ^ 32.
Proof.
  unfold hash32, JS.ushr. change (JS.toUint32 0 mod 32) with 0.
  rewrite Z.shiftr_0_r. apply Z.mod_pos_bound. reflexivity.
Qed.

(** One step of the loop agrees, modulo [2 ^ 32], with one masked
    combining step. *)
Lemma hash_step_combine h a c :
  h mod 2 ^ 32 = a mod 2 ^ 32 ->
  hash_step h c mod 2 ^ 32 = StampSpec.combine a c mod 2 ^ 32.
Proof.
  intros Hha. unfold hash_step, JS.bxor, StampSpec.combine.
  rewrite !mask32_mod, Z.mod_mod by discriminate.
  rewrite !lxor_mod_pow2, !toInt32_mod, Z.mod_mod by (discriminate || lia).
  f_equal.
  rewrite Z.shiftl_mul_pow2 by lia. change (2 ^ 5) with 32.
  rewrite Z.add_mod, shl5_mod by discriminate.
  rewrite (Z.add_mod (a * 32) a) by discriminate.
  rewrite <- (Z.mul_mod_idemp_l h), <- (Z.mul_mod_idemp_l a) by discriminate.
  rewrite Hha. reflexivity.
Qed.

Lemma hash_loop_accumulate json :
  hash_loop json mod 2 ^ 32 = StampSpec.accumulate json mod 2 ^ 32.
Proof.
  unfold hash_loop, StampSpec.accumulate.
  assert (H : 5381 mod 2 ^ 32 = 5381 mod 2 ^ 32) by reflexivity.
  revert H. generalize 5381 at 1 3. generalize 5381.
  induction json as [|c json IH]; intros a h H.
  - exact H.
  - simpl. apply IH, hash_step_combine, H.
Qed.

Lemma hash32_accumulate json :
  hash32 json = StampSpec.mask32 (StampSpec.accumulate json).
Proof.
  unfold hash32, JS.ushr, JS.toUint32. change (0 mod 2 ^ 32 mod 32) with 0.
  rewrite Z.shiftr_0_r, mask32_mod. apply hash_loop_accumulate.
Qed.

(** ** Base-36 digits *)

Lemma toString36_loop_app fuel : forall n acc,
  JS.toString36_loop fuel n acc = JS.toString36_loop fuel n [] ++ acc.
Proof.
  induction fuel as [|fuel IH]; intros n acc; simpl; [reflexivity|].
  destruct (n <? 36); [reflexivity|].
  rewrite IH, (IH _ [_]), <- app_assoc. reflexivity.
Qed.

Lemma fixed_digits_zero k : fixed_digits k 0 = repeat (cu "0") k.
Proof.
  induction k as [|k IH]; simpl; [reflexivity|].
  change (0 / 36) with 0. rewrite IH.
  change (JS.upper_unit (JS.digit36 (0 mod 36))) with (cu "0").
  clear IH. induction k as [|k IH]; simpl; [reflexivity|]. now rewrite IH.
Qed.

Lemma pad_slice_snoc s d k c :
  JS.slice_last (JS.padStart (s ++ [d]) (S k) c) (S k)
  = JS.slice_last (JS.padStart s k c) k ++ [d].
Proof.
  unfold JS.padStart. rewrite length_app. simpl length.
  replace (S k - (length s + 1))%nat with (k - length s)%nat by lia.
  rewrite app_assoc. set (t := repeat c (k - length s) ++ s).
  unfold JS.slice_last. rewrite length_app. simpl length.
  replace (length t + 1 - S k)%nat with (length t - k)%nat by lia.
  rewrite skipn_app.
  replace (length t - k - length t)%nat with 0%nat by lia.
  reflexivity.
Qed.

Lemma pad_slice_digits fuel : forall n k,
  0 <= n < 36 ^ Z.of_nat fuel ->
  JS.slice_last
    (JS.padStart (JS.toUpperCase (JS.toString36_loop fuel n [])) k (cu "0")) k
  = fixed_digits k n.
Proof.
  induction fuel as [|fuel IH]; intros n k Hn.
  - change (36 ^ Z.of_nat 0) with 1 in Hn. assert (n = 0) by lia. subst n.
    rewrite fixed_digits_zero. simpl JS.toString36_loop.
    unfold JS.toUpperCase, JS.padStart, JS.slice_last. simpl map.
    rewrite app_nil_r, repeat_length, Nat.sub_0_r, Nat.sub_diag. reflexivity.
  - destruct k as [|k].
    + unfold JS.slice_last. rewrite Nat.sub_0_r. apply skipn_all.
    + simpl JS.toString36_loop. simpl fixed_digits.
      destruct (Z.ltb_spec n 36) as [Hlt|Hge].
      * rewrite Z.div_small, fixed_digits_zero by lia.
        unfold JS.toUpperCase, JS.padStart, JS.slice_last. simpl map. simpl length.
        rewrite length_app, repeat_length. simpl length.
        replace (S k - 1)%nat with k by lia.
        replace (k - 0 + 1 - S k)%nat with 0%nat by lia. reflexivity.
      * rewrite toString36_loop_app. unfold JS.toUpperCase at 1.
        rewrite map_app. simpl map. rewrite pad_slice_snoc.
        fold (JS.toUpperCase (JS.toString36_loop fuel (n / 36) [])).
        rewrite IH; [reflexivity|].
        rewrite Nat2Z.inj_succ, Z.pow_succ_r in Hn by lia.
        split; [apply Z.div_pos; lia|].
        apply Z.div_lt_upper_bound; lia.
Qed.

Lemma toString36_fuel n : 0 <= n -> n < 36 ^ Z.of_nat (S (Z.to_nat (Z.log2 n))).
Proof.
  intros Hn. rewrite Nat2Z.inj_succ, Z2Nat.id by apply Z.log2_nonneg.
  destruct (Z.eq_dec n 0) as [->|Hne]; [reflexivity|].
  apply Z.lt_le_trans with (2 ^ Z.succ (Z.log2 n)).
  - apply Z.log2_spec. lia.
  - apply Z.pow_le_mono_l. pose proof (Z.log2_nonneg n). lia.
Qed.

(** The stamp of a non-negative hash is its last six base-36 digits. *)
Lemma stamp_of_hash_digits h : 0 <= h -> stamp_of_hash h = fixed_digits 6 h.
Proof.
  intros Hh. unfold stamp_of_hash, JS.toString36.
  apply pad_slice_digits. split; [assumption|]. now apply toString36_fuel.
Qed.

Lemma fixed_digits_length k : forall n, length (fixed_digits k n) = k.
Proof.
  induction k as [|k IH]; intros n; simpl; [reflexivity|].
  rewrite length_app, IH. simpl. lia.
Qed.

Lemma upper_digit36 d : 0 <= d < 36 -> base36_upper (JS.upper_unit (JS.digit36 d)).
Proof.
  intros Hd. unfold base36_upper, JS.upper_unit, JS.digit36.
  change (cu "0") with 48. change (cu "9") with 57.
  change (cu "a") with 97. change (cu "z") with 122.
  change (cu "A") with 65. change (cu "Z") with 90.
  destruct (Z.ltb_spec d 10).
  - replace ((97 <=? 48 + d) && (48 + d <=? 122)) with false; [lia|].
    symmetry. apply andb_false_iff. left. apply Z.leb_gt. lia.
  - replace ((97 <=? 97 + (d - 10)) && (97 + (d - 10) <=? 122)) with true; [lia|].
    symmetry. apply andb_true_iff. split; apply Z.leb_le; lia.
Qed.

Lemma fixed_digits_alphabet k : forall n, Forall base36_upper (fixed_digits k n).
Proof.
  induction k as [|k IH]; intros n; simpl; [constructor|].
  apply Forall_app. split; [apply IH|].
  constructor; [|constructor].
  apply upper_digit36, Z.mod_pos_bound. reflexivity.
Qed.

Lemma fixed_digits_congr k : forall a b,
  a mod 36 ^ Z.of_nat k = b mod 36 ^ Z.of_nat k ->
  fixed_digits k a = fixed_digits k b.
Proof.
  induction k as [|k IH]; intros a b Hab; simpl; [reflexivity|].
  rewrite Nat2Z.inj_succ, Z.pow_succ_r in Hab by lia.
  assert (Hp : 0 < 36 ^ Z.of_nat k) by (apply Z.pow_pos_nonneg; lia).
  rewrite !Z.rem_mul_r in Hab by lia.
  pose proof (Z.mod_pos_bound a 36 eq_refl).
  pose proof (Z.mod_pos_bound b 36 eq_refl).
  assert (Hlow : a mod 36 = b mod 36) by lia.
  assert (Hhigh : (a / 36) mod 36 ^ Z.of_nat k = (b / 36) mod 36 ^ Z.of_nat k) by lia.
  rewrite (IH _ _ Hhigh), Hlow. reflexivity.
Qed.

(** ** The version stamp: main results *)

(** C1. For every document the code's stamp equals the stamp described
    step by step: the JSON string, an accumulator started at 5381, for
    each code unit in order [acc := ((acc << 5) + acc) XOR code] kept in
    32 bits at each step, the final value taken unsigned, written in
    base 36, upper-cased, padded on the left with zeros to six digits and
    cut to its last six. *)
Theorem computeVersionHash_refines_spec :
  forall (CVData : Type) (JSON_stringify : CVData -> jsstring) (data : CVData),
    computeVersionHash JSON_stringify data
    = StampSpec.stamp (JSON_stringify data).
Proof.
  intros CVData JSON_stringify data.
  unfold computeVersionHash, StampSpec.stamp, stamp_of_hash.
  rewrite hash32_accumulate. reflexivity.
Qed.

(** A stamp is six code units long: in particular it is not empty. *)
Lemma computeVersionHash_length
  (CVData : Type) (JSON_stringify : CVData -> jsstring) (data : CVData) :
  length (computeVersionHash JSON_stringify data) = 6%nat.
Proof.
  unfold computeVersionHash.
  rewrite stamp_of_hash_digits by apply hash32_range.
  apply fixed_digits_length.
Qed.

(** C8. For every document the stamp has exactly six code units, each of
    them one of [0-9] or [A-Z]. *)
Theorem computeVersionHash_shape :
  forall (CVData : Type) (JSON_stringify : CVData -> jsstring) (data : CVData),
    length (computeVersionHash JSON_stringify data) = 6%nat /\
    Forall base36_upper (computeVersionHash JSON_stringify data).
Proof.
  intros CVData JSON_stringify data.
  split; [apply computeVersionHash_length|].
  unfold computeVersionHash.
  rewrite stamp_of_hash_digits by apply hash32_range.
  apply fixed_digits_alphabet.
Qed.

(** C9. The stamp is a function of the unsigned 32-bit hash modulo
    [36 ^ 6]: two documents whose hashes are congruent modulo
    2,176,782,336 get the same stamp, and that modulus is below [2 ^ 32]. *)
Theorem stamp_depends_on_hash_mod :
  forall (CVData : Type) (JSON_stringify : CVData -> jsstring) (d1 d2 : CVData),
    hash32 (JSON_stringify d1) mod 36 ^ 6 = hash32 (JSON_stringify d2) mod 36 ^ 6 ->
    computeVersionHash JSON_stringify d1
    = computeVersionHash JSON_stringify d2
    /\ 36 ^ 6 = 2176782336 /\ 36 ^ 6 < 2 ^ 32.
Proof.
  intros CVData JSON_stringify d1 d2 Hmod. unfold computeVersionHash.
  rewrite !stamp_of_hash_digits by apply hash32_range.
  split; [|split; reflexivity].
  apply fixed_digits_congr. exact Hmod.
Qed.

(** Two JSON texts, [[2235804]] and [[1770308]], whose hashes differ by
    exactly [36 ^ 6]. *)
Lemma stamp_depends_on_hash_mod_witness :
  hash32 (js "[2235804]") <> hash32 (js "[1770308]") /\
  computeVersionHash (fun s : jsstring => s) (js "[2235804]")
  = computeVersionHash (fun s : jsstring => s) (js "[1770308]").
Proof.
  split; [vm_compute; discriminate|].
  apply (stamp_depends_on_hash_mod jsstring (fun s : jsstring => s)).
  vm_compute. reflexivity.
Defined.

(** ** The matcher *)

Lemma rmatch_seq a b k st : rmatch (Seq a b) k st = rmatch a (rmatch b k) st.
Proof. reflexivity. Qed.

Lemma rmatch_group i a k st :
  rmatch (Group i a) k st
  = rmatch a (fun st' => k (set_cap i (firstn (idx st' - idx st) (rest st)) st')) st.
Proof. reflexivity. Qed.

Lemma rmatch_rep lo hi a k st :
  rmatch (Rep lo hi a) k st = rep (rmatch a) k lo hi st.
Proof. reflexivity. Qed.

Lemma rmatch_plus a k st :
  rmatch (Plus a) k st = rmatch a (more (rmatch a) k (length (rest st))) st.
Proof. reflexivity. Qed.

Lemma rmatch_opt a k st m :
  rmatch (Opt a) k st = Some m -> rmatch a k st = Some m \/ k st = Some m.
Proof.
  simpl. destruct (rmatch a k st) as [m'|]; [intros [= ->]; left|right]; auto.
Qed.

Lemma rmatch_chr c k st m :
  rmatch (Chr c) k st = Some m ->
  exists t, rest st = c :: t /\ k (advance st t) = Some m.
Proof.
  simpl. destruct (rest st) as [|x t]; [discriminate|].
  destruct (Z.eqb_spec x c) as [->|]; [|discriminate].
  intros H. exists t. split; [reflexivity|exact H].
Qed.

Lemma rmatch_class p k st m :
  rmatch (Class p) k st = Some m ->
  exists x t, rest st = x :: t /\ p x = true /\ k (advance st t) = Some m.
Proof.
  simpl. destruct (rest st) as [|x t]; [discriminate|].
  destruct (p x) eqn:Hp; [|discriminate].
  intros H. exists x, t. repeat split; assumption.
Qed.

Lemma rmatch_class_cons p k st x t :
  rest st = x :: t -> p x = true -> rmatch (Class p) k st = k (advance st t).
Proof. intros Hr Hx. simpl. rewrite Hr, Hx. reflexivity. Qed.

Lemma rmatch_chr_cons c k st t :
  rest st = c :: t -> rmatch (Chr c) k st = k (advance st t).
Proof. intros Hr. simpl. rewrite Hr, Z.eqb_refl. reflexivity. Qed.

Lemma mstate_eta st : MState (idx st + 0) (rest st) (caps st) = st.
Proof. destruct st. simpl. rewrite Nat.add_0_r. reflexivity. Qed.

(** A successful greedy loop over a character class consumed a run of
    characters of the class and went on with the continuation. *)
Lemma more_class p k n : forall st m,
  more (rmatch (Class p)) k n st = Some m ->
  exists run t,
    Forall (fun c => p c = true) run /\ rest st = run ++ t /\
    k (MState (idx st + length run) t (caps st)) = Some m.
Proof.
  induction n as [|n IH]; intros st m H; cbn [more] in H.
  - exists [], (rest st). rewrite mstate_eta. repeat split; [constructor|exact H].
  - destruct (rmatch (Class p) (more (rmatch (Class p)) k n) st) as [m'|] eqn:Hm.
    + injection H as ->.
      apply rmatch_class in Hm. destruct Hm as (x & t & Hr & Hp & Hm).
      apply IH in Hm. destruct Hm as (run & t' & Hrun & Ht & Hk).
      simpl in Ht, Hk. exists (x :: run), t'. subst t.
      repeat split; [constructor; assumption|assumption|].
      simpl length. rewrite Nat.add_succ_r. exact Hk.
    + exists [], (rest st). rewrite mstate_eta.
      repeat split; [constructor|exact H].
Qed.

Lemma rep_class p k hi : forall lo st m,
  (lo <= hi)%nat ->
  rep (rmatch (Class p)) k lo hi st = Some m ->
  exists run t,
    (lo <= length run <= hi)%nat /\
    Forall (fun c => p c = true) run /\ rest st = run ++ t /\
    k (MState (idx st + length run) t (caps st)) = Some m.
Proof.
  induction hi as [|hi IH]; intros lo st m Hlo H; cbn [rep] in H.
  - exists [], (rest st). rewrite mstate_eta. simpl.
    repeat split; [lia|lia|constructor|exact H].
  - destruct (rmatch (Class p) (rep (rmatch (Class p)) k (pred lo) hi) st)
      as [m'|] eqn:Hm.
    + injection H as ->.
      apply rmatch_class in Hm. destruct Hm as (x & t & Hr & Hp & Hm).
      apply IH in Hm; [|lia]. destruct Hm as (run & t' & Hlen & Hrun & Ht & Hk).
      simpl in Ht, Hk. exists (x :: run), t'. subst t. simpl length.
      repeat split; [lia|lia|constructor; assumption|assumption|].
      rewrite Nat.add_succ_r. exact Hk.
    + destruct lo; [|discriminate].
      exists [], (rest st). rewrite mstate_eta. simpl.
      repeat split; [lia|lia|constructor|exact H].
Qed.

(** A successful search matched at the end of some prefix of the input. *)
Lemma search_sound r s : forall i m,
  search r i s = Some m ->
  exists pre suf,
    s = pre ++ suf /\
    rmatch r (fun x => Some x) (MState (i + length pre) suf []) = Some m.
Proof.
  induction s as [|c s IH]; intros i m H; simpl in H.
  - destruct (rmatch r (fun x => Some x) (MState i [] [])) as [m'|] eqn:Hm;
      [|discriminate].
    injection H as ->. exists [], []. simpl. rewrite Nat.add_0_r. split; auto.
  - destruct (rmatch r (fun x => Some x) (MState i (c :: s) [])) as [m'|] eqn:Hm.
    + injection H as ->. exists [], (c :: s). simpl. rewrite Nat.add_0_r. split; auto.
    + apply IH in H. destruct H as (pre & suf & -> & Hm').
      exists (c :: pre), suf. simpl. rewrite Nat.add_succ_r. split; auto.
Qed.

(** Past [(?:^|\/)]: the match goes on right after a boundary. *)
Lemma boundary_sound k pre suf m :
  rmatch boundary k (MState (length pre) suf []) = Some m ->
  exists pre' suf',
    pre ++ suf = pre' ++ suf' /\ at_boundary pre' /\
    k (MState (length pre') suf' []) = Some m.
Proof.
  unfold boundary. simpl.
  destruct (Nat.eqb_spec (length pre) 0) as [H0|_].
  - destruct (k (MState (length pre) suf [])) as [m'|] eqn:Hk.
    + intros [= ->]. exists pre, suf.
      destruct pre; [|discriminate]. repeat split; [left; reflexivity|exact Hk].
    + destruct suf as [|x t]; [discriminate|].
      destruct (Z.eqb_spec x (cu "/")) as [->|]; [|discriminate].
      intros H. exists (pre ++ [cu "/"]), t. rewrite <- app_assoc.
      repeat split; [right; eauto|].
      rewrite length_app, Nat.add_1_r. exact H.
  - destruct suf as [|x t]; [discriminate|].
    destruct (Z.eqb_spec x (cu "/")) as [->|]; [|discriminate].
    intros H. exists (pre ++ [cu "/"]), t. rewrite <- app_assoc.
    repeat split; [right; eauto|].
    rewrite length_app, Nat.add_1_r. exact H.
Qed.

Lemma firstn_run (run t : jsstring) n :
  firstn (n + length run - n) (run ++ t) = run.
Proof.
  replace (n + length run - n)%nat with (length run + 0)%nat by lia.
  rewrite firstn_app_2. simpl. apply app_nil_r.
Qed.

(** What a match of the version pattern is. *)
Lemma version_re_sound path m :
  exec version_re path = Some m ->
  exists pre tok t,
    path = pre ++ js "v/" ++ tok ++ t /\ is_token tok /\ at_boundary pre /\
    group 1 m = Some tok.
Proof.
  intros H. apply search_sound in H. destruct H as (pre & suf & -> & H).
  unfold version_re in H. rewrite rmatch_seq in H.
  apply boundary_sound in H. destruct H as (pre' & suf' & -> & Hb & H).
  rewrite rmatch_seq in H.
  apply rmatch_chr in H. destruct H as (t1 & Hr1 & H). simpl in Hr1. subst suf'.
  rewrite rmatch_seq in H.
  apply rmatch_chr in H. destruct H as (t2 & Hr2 & H). simpl in Hr2. subst t1.
  rewrite rmatch_group in H. unfold version_token in H. rewrite rmatch_rep in H.
  apply rep_class in H; [|lia].
  destruct H as (run & t & Hlen & Hrun & Ht & H). simpl in Ht. subst t2.
  injection H as <-.
  exists pre', run, t. repeat split; try assumption; try lia.
  unfold group, set_cap. cbn [caps idx rest advance lookup_cap Nat.eqb].
  rewrite firstn_run. reflexivity.
Qed.

Lemma firstn_consumed (name t : jsstring) n k :
  k = (n + length name)%nat -> firstn (k - n) (name ++ t) = name.
Proof. intros ->. apply firstn_run. Qed.

(** What a match of the edition pattern is. *)
Lemma edition_re_sound path m :
  exec edition_re path = Some m ->
  exists pre name t,
    path = pre ++ js "e/" ++ name ++ t /\ at_boundary pre /\
    name <> [] /\ Forall (fun c => not_slash c = true) name /\
    group 1 m = Some name /\
    (group 2 m = None \/ exists tok, group 2 m = Some tok /\ is_token tok).
Proof.
  intros H. apply search_sound in H. destruct H as (pre & suf & -> & H).
  unfold edition_re in H. rewrite rmatch_seq in H.
  apply boundary_sound in H. destruct H as (pre' & suf' & -> & Hb & H).
  rewrite rmatch_seq in H.
  apply rmatch_chr in H. destruct H as (t1 & Hr1 & H). simpl in Hr1. subst suf'.
  rewrite rmatch_seq in H.
  apply rmatch_chr in H. destruct H as (t2 & Hr2 & H). simpl in Hr2. subst t1.
  rewrite rmatch_seq, rmatch_group, rmatch_plus in H.
  apply rmatch_class in H. destruct H as (x & t3 & Hr3 & Hx & H).
  simpl in Hr3. subst t2.
  apply more_class in H. destruct H as (run & t & Hrun & Ht & H).
  simpl in Ht. subst t3.
  cbn [idx rest caps advance] in H.
  rewrite (firstn_consumed (x :: run) t) in H by (simpl; lia).
  assert (Hname : Forall (fun c => not_slash c = true) (x :: run))
    by (constructor; assumption).
  exists pre', (x :: run), t.
  split; [reflexivity|]. split; [assumption|]. split; [discriminate|].
  split; [assumption|].
  apply rmatch_opt in H. destruct H as [H|H].
  - rewrite rmatch_seq in H. apply rmatch_chr in H.
    destruct H as (t4 & Hr4 & H). apply rmatch_opt in H. destruct H as [H|H].
    + rewrite rmatch_seq in H. apply rmatch_chr in H. destruct H as (t5 & Hr5 & H).
      rewrite rmatch_seq in H. apply rmatch_chr in H. destruct H as (t6 & Hr6 & H).
      rewrite rmatch_group in H. unfold version_token in H. rewrite rmatch_rep in H.
      apply rep_class in H; [|lia].
      destruct H as (tok & t7 & Hlen & Htok & Ht7 & H). injection H as <-.
      cbn [idx rest caps advance set_cap] in *. subst.
      split; [reflexivity|]. right. exists tok.
      unfold group. cbn [caps lookup_cap Nat.eqb].
      rewrite firstn_run. split; [reflexivity|]. split; assumption.
    + injection H as <-. split; [reflexivity|left; reflexivity].
  - injection H as <-. split; [reflexivity|left; reflexivity].
Qed.

Lemma edition_match_pattern path m :
  editionMatch path = Some m -> edition_pattern path.
Proof.
  intros H. apply edition_re_sound in H.
  destruct H as (pre & name & t & -> & Hb & Hne & Hname & _).
  destruct name as [|c name]; [contradiction Hne; reflexivity|].
  exists pre, c, (name ++ t). repeat split; [|assumption].
  inversion Hname as [|? ? Hc _]. unfold not_slash in Hc.
  intros ->. rewrite Z.eqb_refl in Hc. discriminate.
Qed.

Lemma version_match_pattern path m :
  exec version_re path = Some m -> version_pattern path.
Proof.
  intros H. apply version_re_sound in H.
  destruct H as (pre & tok & t & -> & Htok & Hb & _).
  exists pre, tok, t. repeat split; try assumption; apply Htok.
Qed.

(** Conversely, the search finds a match wherever the pattern occurs. *)
Lemma search_complete r pre : forall suf i m,
  rmatch r (fun x => Some x) (MState (i + length pre) suf []) = Some m ->
  exists m', search r i (pre ++ suf) = Some m'.
Proof.
  induction pre as [|c pre IH]; intros suf i m H.
  - simpl in H. rewrite Nat.add_0_r in H.
    exists m. destruct suf; simpl; rewrite H; reflexivity.
  - cbn [app search].
    destruct (rmatch r (fun x => Some x) (MState i (c :: pre ++ suf) [])) as [m0|].
    + exists m0. reflexivity.
    + apply (IH suf (S i) m). simpl in H. rewrite Nat.add_succ_r in H. exact H.
Qed.

Lemma more_total atom k : total k -> forall n, total (more atom k n).
Proof.
  intros Hk n st. destruct n as [|n]; cbn [more]; [apply Hk|].
  destruct (atom (more atom k n) st) as [m|]; [exists m; reflexivity|apply Hk].
Qed.

Lemma opt_total a k : total k -> total (rmatch (Opt a) k).
Proof.
  intros Hk st. simpl.
  destruct (rmatch a k st) as [m|]; [exists m; reflexivity|apply Hk].
Qed.

Lemma rep_total p k : total k -> forall hi lo st run t,
  rest st = run ++ t -> Forall (fun c => p c = true) run ->
  (lo <= length run)%nat ->
  exists m, rep (rmatch (Class p)) k lo hi st = Some m.
Proof.
  intros Hk. induction hi as [|hi IH]; intros lo st run t Hr Hrun Hlo;
    cbn [rep]; [apply Hk|].
  destruct (rmatch (Class p) (rep (rmatch (Class p)) k (pred lo) hi) st)
    as [m|] eqn:Hm; [exists m; reflexivity|].
  destruct run as [|x run].
  - simpl in Hlo. replace lo with 0%nat by lia. apply Hk.
  - exfalso. inversion Hrun as [|? ? Hx Hrun']; subst.
    rewrite (rmatch_class_cons p _ st x (run ++ t) Hr Hx) in Hm.
    destruct (IH (pred lo) (advance st (run ++ t)) run t eq_refl Hrun') as [m Hm'];
      [simpl in Hlo; lia|].
    rewrite Hm' in Hm. discriminate.
Qed.

(** Past the boundary the rest of the pattern decides; at the start of
    input both alternatives are tried in turn. *)
Lemma boundary_complete k pre suf m :
  at_boundary pre -> k (MState (length pre) suf []) = Some m ->
  exists pre0 suf0 m',
    pre ++ suf = pre0 ++ suf0 /\
    rmatch boundary k (MState (0 + length pre0) suf0 []) = Some m'.
Proof.
  intros [->|(q & ->)] Hk.
  - exists [], suf, m. split; [reflexivity|].
    unfold boundary. simpl. simpl in Hk. rewrite Hk. reflexivity.
  - rewrite length_app, Nat.add_1_r in Hk.
    exists q, (cu "/" :: suf). rewrite <- app_assoc. cbn [app].
    unfold boundary. cbn [rmatch idx rest Nat.add].
    rewrite Z.eqb_refl. unfold advance. cbn [idx rest caps]. rewrite Hk.
    destruct (Nat.eqb (length q) 0);
      [destruct (k (MState (length q) (cu "/" :: suf) [])) as [m0|]|];
      eauto.
Qed.

Lemma edition_pattern_match path :
  edition_pattern path -> exists m, editionMatch path = Some m.
Proof.
  intros (pre & c & t & -> & Hc & Hb).
  assert (Htail : exists m,
    rmatch (Seq (Chr (cu "e"))
      (Seq (Chr (cu "/"))
        (Seq (Group 1 (Plus (Class not_slash)))
          (Opt (Seq (Chr (cu "/"))
            (Opt (Seq (Chr (cu "v"))
              (Seq (Chr (cu "/")) (Group 2 version_token)))))))))
      (fun x => Some x) (MState (length pre) (js "e/" ++ c :: t) []) = Some m).
  { rewrite rmatch_seq, (rmatch_chr_cons _ _ _ (cu "/" :: c :: t)) by reflexivity.
    rewrite rmatch_seq, (rmatch_chr_cons _ _ _ (c :: t)) by reflexivity.
    rewrite rmatch_seq, rmatch_group, rmatch_plus.
    rewrite (rmatch_class_cons _ _ _ c t) by
      (first [reflexivity
             |unfold not_slash; destruct (Z.eqb_spec c (cu "/"));
              [contradiction|reflexivity]]).
    apply more_total. intros st. apply opt_total. intros st'. eauto. }
  destruct Htail as [m Hm].
  destruct (boundary_complete _ pre _ m Hb Hm) as (pre0 & suf0 & m' & Heq & H).
  unfold editionMatch, exec. rewrite Heq.
  apply (search_complete edition_re pre0 suf0 0 m'). exact H.
Qed.

Lemma version_pattern_match path :
  version_pattern path -> exists m, exec version_re path = Some m.
Proof.
  intros (pre & tok & t & -> & [[Hlo Hhi] Htok] & Hb).
  assert (Htail : exists m,
    rmatch (Seq (Chr (cu "v")) (Seq (Chr (cu "/")) (Group 1 version_token)))
      (fun x => Some x) (MState (length pre) (js "v/" ++ tok ++ t) []) = Some m).
  { rewrite rmatch_seq, (rmatch_chr_cons _ _ _ (cu "/" :: tok ++ t)) by reflexivity.
    rewrite rmatch_seq, (rmatch_chr_cons _ _ _ (tok ++ t)) by reflexivity.
    rewrite rmatch_group. unfold version_token. rewrite rmatch_rep.
    apply (rep_total alnum) with (run := tok) (t := t);
      [intros st; eauto|reflexivity|assumption|assumption]. }
  destruct Htail as [m Hm].
  destruct (boundary_complete _ pre _ m Hb Hm) as (pre0 & suf0 & m' & Heq & H).
  unfold exec. rewrite Heq.
  apply (search_complete version_re pre0 suf0 0 m'). exact H.
Qed.

(** The matcher decides the two patterns. *)
Lemma editionMatch_none path :
  editionMatch path = None <-> ~ edition_pattern path.
Proof.
  split.
  - intros H Hp. apply edition_pattern_match in Hp. destruct Hp as [m Hm].
    congruence.
  - intros Hn. destruct (editionMatch path) as [m|] eqn:H; [|reflexivity].
    contradiction Hn. now apply edition_match_pattern with m.
Qed.

Lemma version_re_none path :
  exec version_re path = None <-> ~ version_pattern path.
Proof.
  split.
  - intros H Hp. apply version_pattern_match in Hp. destruct Hp as [m Hm].
    congruence.
  - intros Hn. destruct (exec version_re path) as [m|] eqn:H; [|reflexivity].
    contradiction Hn. now apply version_match_pattern with m.
Qed.

(** A version taken from the path is a token: in particular it is not
    the empty string. *)
Lemma provided_is_token path v :
  providedVersionFromUrl path = Some v -> is_token v.
Proof.
  unfold providedVersionFromUrl, rootVersionMatch.
  destruct (editionMatch path) as [m|] eqn:He.
  - apply edition_re_sound in He.
    destruct He as (_ & _ & _ & _ & _ & _ & _ & _ & [H2|(tok & H2 & Htok)]);
      rewrite H2; unfold or_null.
    + discriminate.
    + destruct (truthy (Some tok)); [intros [= <-]; exact Htok|discriminate].
  - destruct (exec version_re path) as [m|] eqn:Hv; [|discriminate].
    apply version_re_sound in Hv.
    destruct Hv as (_ & tok & _ & _ & Htok & _ & H1). rewrite H1.
    intros [= <-]. exact Htok.
Qed.

Lemma token_truthy v : is_token v -> truthy (Some v) = true.
Proof. intros [[Hlen _] _]. destruct v; [simpl in Hlen; lia|reflexivity]. Qed.

(** ** The resolver: main results *)



(** An edition taken from the path is never the empty string. *)
Lemma decode_loop_nonempty fuel c t r :
  decode_loop (S fuel) (c :: t) = Normal r -> r <> [].
Proof.
  cbn [decode_loop]. destruct (c =? cu "%").
  - destruct (percent_octet (c :: t)) as [[b t1]|]; [|discriminate].
    destruct (leading_ones b) as [|[|[|[|[|n]]]]]; try discriminate.
    + destruct (decode_loop fuel t1); [intros [= <-]|]; discriminate.
    + destruct (more_octets 1 t1) as [[bs t2]|]; [|discriminate].
      destruct (utf8_code_point b bs) as [v|]; [|discriminate].
      destruct (decode_loop fuel t2); [intros [= <-]|discriminate].
      unfold utf16_encode. destruct (v <? 65536); discriminate.
    + destruct (more_octets 2 t1) as [[bs t2]|]; [|discriminate].
      destruct (utf8_code_point b bs) as [v|]; [|discriminate].
      destruct (decode_loop fuel t2); [intros [= <-]|discriminate].
      unfold utf16_encode. destruct (v <? 65536); discriminate.
    + destruct (more_octets 3 t1) as [[bs t2]|]; [|discriminate].
      destruct (utf8_code_point b bs) as [v|]; [|discriminate].
      destruct (decode_loop fuel t2); [intros [= <-]|discriminate].
      unfold utf16_encode. destruct (v <? 65536); discriminate.
  - destruct (decode_loop fuel t); [intros [= <-]|]; discriminate.
Qed.

Lemma initialEdition_truthy path e :
  initialEdition path = Normal e -> e = None \/ truthy e = true.
Proof.
  unfold initialEdition. destruct (editionMatch path) as [m|] eqn:Hm.
  - apply edition_re_sound in Hm.
    destruct Hm as (_ & name & _ & _ & _ & Hne & _ & H1 & _). rewrite H1.
    cbn [capture_text]. destruct name as [|c name]; [contradiction Hne; reflexivity|].
    unfold decodeURIComponent. cbn [length].
    destruct (decode_loop (S (length name)) (c :: name)) as [r|] eqn:Hd;
      [|discriminate].
    apply decode_loop_nonempty in Hd. intros [= <-]. right.
    destruct r; [contradiction Hd; reflexivity|reflexivity].
  - intros [= <-]. left. reflexivity.
Qed.

(** C6. Whatever the edition and the stamp are, the share URL is the
    configured origin [https://cv.hapangama.com], whatever the origin the
    page runs on, then [/e/] and the encoded edition exactly when there is
    an edition, then [/v/] and the stamp exactly when there is a stamp. *)
Theorem shareUrl_is_canonical :
  forall (runtimeOrigin : jsstring) (edition_ versionHash_ : option jsstring),
    shareUrl runtimeOrigin edition_ versionHash_
    = match edition_segment edition_ with
      | Normal seg =>
          Normal (js "https://cv.hapangama.com" ++ seg ++ version_segment versionHash_)
      | Throw x => Throw x
      end.
Proof.
  intros runtimeOrigin e v. unfold shareUrl.
  change (truthy (Some configuredBaseOrigin)) with true. cbv iota.
  change (js "https://cv.hapangama.com") with configuredBaseOrigin.
  destruct e as [[|c e]|], v as [[|d v]|]; cbn [truthy text edition_segment version_segment];
    try (rewrite ?app_nil_r; reflexivity).
  - destruct (encodeURIComponent (c :: e)); [|reflexivity].
    rewrite app_nil_r. reflexivity.
  - destruct (encodeURIComponent (c :: e)); [|reflexivity].
    rewrite <- !app_assoc. reflexivity.
  - destruct (encodeURIComponent (c :: e)); [|reflexivity].
    rewrite app_nil_r. reflexivity.
Qed.

(** ** The loader *)

(** Unfolding the computation and projecting out of the states it builds. *)
Ltac run_load :=
  unfold load, bind, gets, try_catch, fetch, throw, ret, json, setEdition,
    setVersionHash, setCvData, setError, modify, replaceState.

Ltac project :=
  cbn [edition versionHash versionStatus cvData error location_path requests
       ok negb http_status body].

(** The case analysis [load] makes: on the edition, on each answer, and on
    the history. *)
Ltac load_cases :=
  match goal with
  | |- context [match answer ?w ?n ?u with _ => _ end] =>
      destruct (answer w n u) as [|[|] ? [?|]]
  | |- context [if truthy ?e then _ else _] => destruct (truthy e)
  | |- context [if history_throws ?w then _ else _] => destruct (history_throws w)
  end.

Section Loader.

Context {CVData : Type} (JSON_stringify : CVData -> jsstring).

Lemma strict_eq_refl a : strict_eq a a = true.
Proof. unfold strict_eq. destruct (jsstring_eq_dec a a); congruence. Qed.

Lemma strict_eq_true a b : strict_eq a b = true <-> a = b.
Proof.
  unfold strict_eq. destruct (jsstring_eq_dec a b); split; congruence.
Qed.

Lemma fallback_path_eq path :
  js "/" ++ (if truthy (providedVersionFromUrl path)
             then js "v/" ++ text (providedVersionFromUrl path) else [])
  = fallback_path (providedVersionFromUrl path).
Proof.
  destruct (providedVersionFromUrl path) as [v|] eqn:Hv; [|reflexivity].
  apply provided_is_token, token_truthy in Hv. rewrite Hv. reflexivity.
Qed.

(** One run of [load] when the edition's file is refused and the default
    file is served. *)
Lemma load_falls_back (w : env CVData) (s : state CVData) st1 b1 st2 d :
  truthy (edition s) = true ->
  answer w (length (requests s)) (edition_file (edition s)) = Responds false st1 b1 ->
  answer w (S (length (requests s))) default_file = Responds true st2 (Some d) ->
  snd (load JSON_stringify w s)
  = State None (Some (computeVersionHash JSON_stringify d)) (versionStatus s) (Some d) (error s)
      (if history_throws w then location_path s
       else fallback_path (providedVersionFromUrl (location_path s)))
      (requests s ++ [edition_file (edition s); default_file]).
Proof.
  intros He H1 H2. destruct s as [e vh vs cv er lp rq]. cbn [edition requests] in *.
  run_load. project.
  rewrite He, H1. project.
  rewrite length_app, Nat.add_1_r, H2. project.
  rewrite fallback_path_eq, <- app_assoc.
  destruct (history_throws w); reflexivity.
Qed.

(** One run of [load] when no fetch is answered with success. *)
Lemma load_fails_twice (w : env CVData) (s : state CVData) st1 b1 st2 b2 :
  truthy (edition s) = true ->
  answer w (length (requests s)) (edition_file (edition s)) = Responds false st1 b1 ->
  answer w (S (length (requests s))) default_file = Responds false st2 b2 ->
  snd (load JSON_stringify w s)
  = State (edition s) (versionHash s) (versionStatus s) (cvData s) (Some load_error)
      (location_path s) (requests s ++ [edition_file (edition s); default_file]).
Proof.
  intros He H1 H2. destruct s as [e vh vs cv er lp rq]. cbn [edition requests] in *.
  run_load. project.
  rewrite He, H1. project.
  rewrite length_app, Nat.add_1_r, H2. project.
  rewrite <- app_assoc. reflexivity.
Qed.

Lemma load_fails_default (w : env CVData) (s : state CVData) st1 b1 :
  truthy (edition s) = false ->
  answer w (length (requests s)) default_file = Responds false st1 b1 ->
  snd (load JSON_stringify w s)
  = State (edition s) (versionHash s) (versionStatus s) (cvData s) (Some load_error)
      (location_path s) (requests s ++ [default_file]).
Proof.
  intros He H1. destruct s as [e vh vs cv er lp rq]. cbn [edition requests] in *.
  run_load. project.
  rewrite He, H1. reflexivity.
Qed.

Lemma load_serves_default (w : env CVData) (s : state CVData) st1 d :
  truthy (edition s) = false ->
  answer w (length (requests s)) default_file = Responds true st1 (Some d) ->
  snd (load JSON_stringify w s)
  = State (edition s) (Some (computeVersionHash JSON_stringify d)) (versionStatus s) (Some d)
      (error s) (location_path s) (requests s ++ [default_file]).
Proof.
  intros He H1. destruct s as [e vh vs cv er lp rq]. cbn [edition requests] in *.
  run_load. project.
  rewrite He, H1. reflexivity.
Qed.

Lemma load_rejected (w : env CVData) (s : state CVData) :
  answer w (length (requests s))
    (if truthy (edition s) then edition_file (edition s) else default_file)
  = Rejects ->
  snd (load JSON_stringify w s)
  = State (edition s) (versionHash s) (versionStatus s) (cvData s) (Some load_error)
      (location_path s)
      (requests s ++ [if truthy (edition s) then edition_file (edition s)
                      else default_file]).
Proof.
  intros H1. destruct s as [e vh vs cv er lp rq]. cbn [edition requests] in *.
  run_load. project.
  rewrite H1. reflexivity.
Qed.

(** The data effect runs [load] once more exactly when [load] changed
    the edition. *)
Lemma load_effect_step fuel (w : env CVData) (s : state CVData) :
  snd (load_effect JSON_stringify (S fuel) w s)
  = match edition s, edition (snd (load JSON_stringify w s)) with
    | None, None => snd (load JSON_stringify w s)
    | Some a, Some b =>
        if strict_eq a b then snd (load JSON_stringify w s)
        else snd (load_effect JSON_stringify fuel w (snd (load JSON_stringify w s)))
    | _, _ => snd (load_effect JSON_stringify fuel w (snd (load JSON_stringify w s)))
    end.
Proof.
  cbn [load_effect]. unfold bind at 1 2 3, gets at 1 2.
  assert (Hl : exists s', load JSON_stringify w s = (Normal tt, s')).
  { unfold load, try_catch, bind at 1 2. unfold gets at 1 2.
    match goal with
    | |- context [match ?m w s with _ => _ end] => destruct (m w s) as [[[]|x] s1]
    end; unfold setError, modify; eauto. }
  destruct Hl as [s' Hl]. rewrite Hl. cbn [snd].
  destruct (edition s) as [a|], (edition s') as [b|]; try reflexivity.
  destruct (strict_eq a b); reflexivity.
Qed.

Lemma load_effect_stable fuel (w : env CVData) (s : state CVData) :
  edition (snd (load JSON_stringify w s)) = edition s ->
  snd (load_effect JSON_stringify (S fuel) w s) = snd (load JSON_stringify w s).
Proof.
  intros He. rewrite load_effect_step, He.
  destruct (edition s); [rewrite strict_eq_refl|]; reflexivity.
Qed.


(** The second run of the effect is a request of its own: when it is
    refused, the error is set although the fallback had succeeded. *)
Lemma refetch_after_fallback_refused
  (w : env CVData) (s : state CVData) st1 b1 st2 d st3 b3 fuel :
  truthy (edition s) = true ->
  answer w (length (requests s)) (edition_file (edition s))
    = Responds false st1 b1 ->
  answer w (S (length (requests s))) default_file
    = Responds true st2 (Some d) ->
  answer w (S (S (length (requests s)))) default_file
    = Responds false st3 b3 ->
  let s2 := snd (load_effect JSON_stringify (S (S fuel)) w s) in
  edition s2 = None /\
  error s2 = Some (js "Failed to load CV data.") /\
  requests s2
  = requests s ++ [edition_file (edition s); default_file; default_file].
Proof.
  intros He H1 H2 H3 s2.
  pose proof (load_falls_back w s st1 b1 st2 d He H1 H2) as Hs1.
  set (s1 := snd (load JSON_stringify w s)) in *.
  assert (Hs2 : s2 = snd (load JSON_stringify w s1)).
  { unfold s2. rewrite load_effect_step. fold s1.
    replace (edition s1) with (@None jsstring) by (rewrite Hs1; reflexivity).
    destruct (edition s) as [e|]; [|discriminate].
    apply load_effect_stable.
    rewrite (load_fails_default w s1 st3 b3); rewrite Hs1; project;
      try reflexivity.
    rewrite length_app, Nat.add_comm. exact H3. }
  rewrite Hs2, (load_fails_default w s1 st3 b3); rewrite ?Hs1; project.
  - repeat split. rewrite <- app_assoc. reflexivity.
  - reflexivity.
  - rewrite length_app, Nat.add_comm. exact H3.
Qed.

(** C10. When the fetch of the edition's file throws, the default file
    is not asked for: that one request is all that is sent, the error
    is set, and the edition stays what it was. *)
Theorem load_fetch_throws :
  forall (w : env CVData) (s : state CVData) (fuel : nat),
    truthy (edition s) = true ->
    answer w (length (requests s)) (edition_file (edition s)) = Rejects ->
    let s1 := snd (load_effect JSON_stringify (S fuel) w s) in
    requests s1 = requests s ++ [edition_file (edition s)] /\
    error s1 = Some (js "Failed to load CV data.") /\
    edition s1 = edition s /\
    location_path s1 = location_path s.
Proof.
  intros w s fuel He H1 s1. unfold s1.
  assert (Hl := load_rejected w s). rewrite He in Hl. specialize (Hl H1).
  rewrite load_effect_stable; rewrite Hl; repeat split; reflexivity.
Qed.

(** ** The version status *)

Lemma load_keeps_status (w : env CVData) (s : state CVData) :
  versionStatus (snd (load JSON_stringify w s)) = versionStatus s.
Proof.
  destruct s as [e vh vs cv er lp rq]. run_load. project.
  repeat (project; cbn [fst snd]; load_cases); reflexivity.
Qed.

Lemma load_keeps_no_version (w : env CVData) (s : state CVData) :
  providedVersionFromUrl (location_path s) = None ->
  providedVersionFromUrl (location_path (snd (load JSON_stringify w s))) = None.
Proof.
  intros Hp. destruct s as [e vh vs cv er lp rq]. run_load. project.
  cbn [location_path] in Hp. rewrite Hp. cbn [truthy app].
  repeat (project; cbn [fst snd]; load_cases);
    solve [exact Hp | vm_compute; reflexivity].
Qed.

Lemma status_effect_path (w : env CVData) (s : state CVData) :
  location_path (snd (status_effect w s)) = location_path s.
Proof.
  destruct s as [e vh vs cv er lp rq].
  unfold status_effect, bind, gets, ret, setVersionStatus, modify. project.
  destruct (_ && _ && _); reflexivity.
Qed.

Lemma status_effect_settled (w : env CVData) (s : state CVData) :
  versionStatus s <> unknown -> snd (status_effect w s) = s.
Proof.
  intros Hs. destruct s as [e vh vs cv er lp rq].
  unfold status_effect, bind, gets, ret, setVersionStatus, modify. project.
  cbn [versionStatus] in Hs. destruct vs; [contradiction Hs| |]; reflexivity.
Qed.

Lemma status_effect_no_version (w : env CVData) (s : state CVData) :
  providedVersionFromUrl (location_path s) = None -> snd (status_effect w s) = s.
Proof.
  intros Hp. destruct s as [e vh vs cv er lp rq].
  unfold status_effect, bind, gets, ret, setVersionStatus, modify. project.
  cbn [location_path] in Hp. rewrite Hp. cbn [truthy].
  rewrite andb_false_r. reflexivity.
Qed.

Lemma status_effect_compares (w : env CVData) (s : state CVData) p h :
  versionStatus s = unknown ->
  providedVersionFromUrl (location_path s) = Some p ->
  versionHash s = Some h -> h <> [] ->
  versionStatus (snd (status_effect w s))
  = if strict_eq p h then match_ else mismatch.
Proof.
  intros Hs Hp Hh Hne. destruct s as [e vh vs cv er lp rq].
  cbn [versionStatus location_path versionHash] in *. subst vs vh.
  unfold status_effect, bind, gets, ret, setVersionStatus, modify. project.
  rewrite Hp. rewrite (token_truthy p (provided_is_token _ _ Hp)).
  destruct h; [contradiction Hne; reflexivity|]. reflexivity.
Qed.


End Loader.


Lemma load_fetch_throws_witness :
  let s1 := snd (load_effect (fun d => d) 3 unreachable
                   (opened_at (js "/e/acme/v/AB12CD"))) in
  requests s1 = [js "/cv-data-acme.json"] /\
  error s1 = Some (js "Failed to load CV data.") /\
  edition s1 = Some (js "acme") /\
  location_path s1 = js "/e/acme/v/AB12CD".
Proof.
  exact (load_fetch_throws (fun d : jsstring => d) unreachable
           (opened_at (js "/e/acme/v/AB12CD")) 2%nat eq_refl eq_refl).
Defined.


(** ** The paginator *)

(** The loop makes one slice per page index, by the loop body. *)
Lemma page_loop_nth {num : Type} {N : Number num} W H : forall pages l,
  page_loop W H pages = Some l ->
  length l = length pages /\
  forall k page, nth_error pages k = Some page ->
                 nth_error l k = page_slice W H page.
Proof.
  induction pages as [|page pages IH]; intros l Hl; simpl in Hl.
  - injection Hl as <-. split; [reflexivity|]. intros [|k] page'; discriminate.
  - destruct (page_slice W H page) as [sl|] eqn:Hsl; [|discriminate].
    destruct (page_loop W H pages) as [sls|]; [|discriminate].
    injection Hl as <-. destruct (IH sls eq_refl) as [Hlen Hnth].
    split; [simpl; now rewrite Hlen|].
    intros [|k] page' Hk; simpl in *.
    + injection Hk as <-. symmetry. exact Hsl.
    + now apply Hnth.
Qed.

Lemma upto_length n : length (upto n) = Z.to_nat n.
Proof. unfold upto. now rewrite length_map, length_seq. Qed.

Lemma upto_nth n k :
  (k < Z.to_nat n)%nat -> nth_error (upto n) k = Some (Z.of_nat k).
Proof.
  intros Hk. unfold upto. rewrite nth_error_map, nth_error_seq.
  destruct (Nat.ltb_spec k (Z.to_nat n)); [reflexivity|lia].
Qed.

Lemma upto_nonneg n : Forall (fun k => 0 <= k) (upto n).
Proof.
  unfold upto. apply Forall_forall. intros k Hk.
  apply in_map_iff in Hk. destruct Hk as (i & <- & _). lia.
Qed.

(** *** Exact arithmetic on whole numbers *)

Lemma Qred_inject_Z z : Qred (inject_Z z) = inject_Z z.
Proof.
  apply Qcanon.Qred_iff. unfold inject_Z. cbn [Qnum Qden]. apply Z.gcd_1_r.
Qed.

Lemma exact_whole (q : Q) (z : Z) : q == inject_Z z -> Qred q = inject_Z z.
Proof. intros Hq. rewrite <- Qred_inject_Z. now apply Qred_complete. Qed.

Lemma exact_pageHeightPx m :
  pageHeightPx (num := exact) (60 * m) = Some (inject_Z (89 * m)).
Proof.
  unfold pageHeightPx, pxPerMm. cbn [mul div of_int exact_number exact_op].
  change (Qeq_bool (inject_Z PDF_CONFIG.PRINTABLE_WIDTH_MM) 0) with false.
  cbv iota. f_equal. apply exact_whole. rewrite Qred_correct.
  unfold printableHeightMm, PDF_CONFIG.PRINTABLE_WIDTH_MM,
    PDF_CONFIG.PAGE_HEIGHT_MM, PDF_CONFIG.PAGE_MARGIN_MM.
  change (297 - 15 * 2) with 267. rewrite !inject_Z_mult.
  generalize (inject_Z m). intros q. field.
Qed.

Lemma exact_lt_whole a b :
  lt (Some (inject_Z a) : exact) (Some (inject_Z b)) = (a <? b).
Proof.
  cbn [lt exact_number].
  destruct (Z.ltb_spec a b) as [Hab|Hab].
  - destruct (Qle_bool (inject_Z b) (inject_Z a)) eqn:E; [|reflexivity].
    apply Qle_bool_iff in E. rewrite <- Zle_Qle in E. lia.
  - replace (Qle_bool (inject_Z b) (inject_Z a)) with true; [reflexivity|].
    symmetry. apply Qle_bool_iff. rewrite <- Zle_Qle. exact Hab.
Qed.

Lemma exact_page_slice m H k :
  page_slice (num := exact) (60 * m) H k = Some (band (89 * m) H k).
Proof.
  unfold page_slice, band. rewrite exact_pageHeightPx.
  cbn [mul sub of_int floor exact_number exact_op option_map].
  rewrite (exact_whole _ (k * (89 * m))) by (now rewrite inject_Z_mult).
  rewrite Qfloor_Z.
  rewrite (exact_whole _ (H - k * (89 * m))) by
    (unfold Qminus, Z.sub; now rewrite inject_Z_plus, inject_Z_opp).
  f_equal. f_equal. unfold min_num. rewrite exact_lt_whole.
  destruct (Z.ltb_spec (H - k * (89 * m)) (89 * m)); f_equal; f_equal; lia.
Qed.

Lemma exact_page_loop m H pages :
  page_loop (num := exact) (60 * m) H pages = Some (map (band (89 * m) H) pages).
Proof.
  induction pages as [|k pages IH]; [reflexivity|].
  cbn [page_loop map]. now rewrite exact_page_slice, IH.
Qed.

Lemma exact_totalPages m H :
  0 < m -> totalPages (num := exact) (60 * m) H = Some (ceil_div H (89 * m)).
Proof.
  intros Hm. unfold totalPages. rewrite exact_pageHeightPx.
  cbn [ceil div of_int exact_number exact_op option_map].
  replace (Qeq_bool (inject_Z (89 * m)) 0) with false.
  - unfold ceil_div. destruct (89 * m) as [|pp|pp] eqn:Hp; try lia.
    cbn [option_map]. unfold Qceiling. do 2 f_equal.
    assert (E : - Qred (inject_Z H / inject_Z (Z.pos pp)) == (- H) # pp).
    { rewrite Qred_correct, <- (Qmake_Qdiv H pp). reflexivity. }
    rewrite (Qfloor_comp _ _ E). reflexivity.
  - symmetry. apply not_true_is_false. intros E. apply Qeq_bool_iff in E.
    unfold Qeq, inject_Z in E. cbn [Qnum Qden] in E. lia.
Qed.

Lemma ceil_div_bounds a b :
  0 < b -> (ceil_div a b - 1) * b < a <= ceil_div a b * b.
Proof.
  intros Hb. unfold ceil_div.
  pose proof (Z.div_mod (- a) b ltac:(lia)) as Hdm.
  pose proof (Z.mod_pos_bound (- a) b Hb). nia.
Qed.

Lemma ceil_div_unique a b n : 0 < b -> (n - 1) * b < a <= n * b -> ceil_div a b = n.
Proof.
  intros Hb Hn. pose proof (ceil_div_bounds a b Hb). nia.
Qed.

(** In exact arithmetic a bitmap [60 * m] wide is cut into whole bands
    of [89 * m] rows. *)
Lemma exact_paginate m H :
  0 < m ->
  paginate (num := exact) (60 * m) H
  = Some (map (band (89 * m) H) (upto (ceil_div H (89 * m)))).
Proof.
  intros Hm. unfold paginate. rewrite exact_totalPages by assumption.
  apply exact_page_loop.
Qed.




(** Rounding shows where the per-page height is no whole number: a bitmap
    20 wide and 89 high is three times 29.67 rows, and binary64 makes a
    fourth, empty page of it. *)
Lemma binary64_makes_an_empty_page :
  totalPages (num := exact) 20 89 = Some 3 /\
  totalPages (num := PrimFloat.float) 20 89 = Some 4 /\
  nth_error (match paginate (num := PrimFloat.float) 20 89 with
             | Some l => l
             | None => []
             end) 3
  = Some (Slice 89 (of_int 0)).
Proof. repeat split; vm_compute; reflexivity. Qed.

(** For widths up to 480 and heights up to 1024 binary64 cuts the same
    whole bands as exact arithmetic does. *)
Lemma binary64_cuts_whole_bands m H :
  1 <= m <= 8 -> 0 <= H <= 1024 -> cut_in_bands m H = true.
Proof.
  intros Hm HH.
  assert (Hall : forallb (fun m' => forallb (cut_in_bands (m' + 1)) (upto 1025))
                         (upto 8) = true) by (vm_compute; reflexivity).
  rewrite forallb_forall in Hall.
  assert (Hin : forall n k, 0 <= k < n -> In k (upto n)).
  { intros n k Hk. unfold upto. apply in_map_iff. exists (Z.to_nat k).
    split; [lia|]. apply in_seq. lia. }
  specialize (Hall (m - 1) (Hin 8 (m - 1) ltac:(lia))).
  rewrite forallb_forall in Hall.
  replace (m - 1 + 1) with m in Hall by lia.
  apply Hall, Hin. lia.
Qed.

(** ** The export's clean-up *)

Lemma cloneNode_ref next n : ref (fst (cloneNode next n)) = next.
Proof.
  destruct n as [r i c ch]. cbn [cloneNode].
  destruct (clone_all _ (S next) ch). reflexivity.
Qed.

(** Copying hands out references from [next] on. *)
Lemma cloneNode_next n : forall next, (next < snd (cloneNode next n))%nat.
Proof.
  induction n as [r i c ch IH] using node_children_ind. intros next.
  cbn [cloneNode].
  assert (Hall : forall k, (k <= snd (clone_all (fun k x => cloneNode k x) k ch))%nat).
  { induction IH as [|x t Hx _ IHt]; intros k; cbn [clone_all]; [simpl; lia|].
    specialize (Hx k). destruct (cloneNode k x) as [x' n1]. cbn [snd] in Hx.
    specialize (IHt n1). destruct (clone_all _ n1 t) as [t' n2].
    cbn [snd] in *. lia. }
  specialize (Hall (S next)).
  destruct (clone_all _ (S next) ch) as [ch' next']. cbn [snd] in *. lia.
Qed.

Lemma ref_set_id i n : ref (set_id i n) = ref n.
Proof. destruct n; reflexivity. Qed.

Lemma ref_remove_all sel n : ref (remove_all sel n) = ref n.
Proof. destruct n; reflexivity. Qed.

Lemma ref_appendChild n x : ref (appendChild n x) = ref n.
Proof. destruct n; reflexivity. Qed.

Lemma first_some_app {A B : Type} (f : A -> option B) l x :
  first_some f l = None -> first_some f (l ++ [x]) = f x.
Proof.
  induction l as [|y l IH]; simpl.
  - intros _. destruct (f x); reflexivity.
  - destruct (f y); [discriminate|]. exact IH.
Qed.

(** An element appended to a parent none of whose elements has the [id]
    is found by that [id] exactly when it has it inside. *)
Lemma find_id_appendChild i parent x :
  find_id i parent = None ->
  find_id i (appendChild parent x) = find_id i x.
Proof.
  destruct parent as [r j c ch]. cbn [appendChild find_id].
  destruct (strict_eq j i); [discriminate|]. apply first_some_app.
Qed.

Lemma filter_appended r (l : list node) x :
  refs_below r l -> ref x = r ->
  filter (fun y => negb (Nat.eqb (ref y) r)) (l ++ [x]) = l.
Proof.
  intros Hl Hx. rewrite filter_app. cbn [filter]. rewrite Hx, Nat.eqb_refl.
  cbn [negb]. rewrite app_nil_r.
  induction Hl as [|y l Hy _ IH]; [reflexivity|].
  cbn [filter]. destruct (Nat.eqb_spec (ref y) r); [lia|]. cbn [negb].
  now rewrite IH.
Qed.

Lemma is_child_appended parent x :
  is_child (appendChild parent x) (ref x) = true.
Proof.
  destruct parent as [r j c ch]. unfold is_child. cbn [appendChild children].
  rewrite existsb_app. cbn [existsb]. rewrite Nat.eqb_refl.
  now rewrite orb_true_r.
Qed.

Lemma removeChild_appended parent x :
  refs_below (ref x) (children parent) ->
  removeChild (appendChild parent x) (ref x) = Normal parent.
Proof.
  intros Hl. unfold removeChild. rewrite is_child_appended.
  destruct parent as [r j c ch]. cbn [appendChild children] in *.
  now rewrite filter_appended.
Qed.

(** A change to the appended child leaves it the appended child. *)
Lemma update_child_appended parent x f :
  refs_below (ref x) (children parent) ->
  update_child (ref x) f (appendChild parent x) = appendChild parent (f x).
Proof.
  intros Hl. destruct parent as [r j c ch]. cbn [appendChild update_child children] in *.
  rewrite map_app. cbn [map]. rewrite Nat.eqb_refl. do 2 f_equal.
  induction Hl as [|y l Hy _ IH]; [reflexivity|].
  cbn [map]. destruct (Nat.eqb_spec (ref y) (ref x)); [lia|]. now rewrite IH.
Qed.

Lemma refs_below_le n k l : (n <= k)%nat -> refs_below n l -> refs_below k l.
Proof.
  intros Hnk Hl. unfold refs_below in *. rewrite Forall_forall in *.
  intros x Hx. specialize (Hl x Hx). lia.
Qed.

(** C7. An export is called while the button is enabled, on a page that
    holds no element with the clone's or the style's [id] and whose
    elements were all made before. Whether the file is saved or
    rasterizing or assembling throws, the export returns with the flag
    back to false and with [head] and [body] as they were: the style
    element and the clone are gone, and no element with either [id] is
    attached. *)
Theorem export_cleans_up :
  forall (e : try_end) (p : page),
    isDownloading p = false ->
    refs_below (next_ref (dom p)) (children (doc_head (dom p))) ->
    refs_below (next_ref (dom p)) (children (doc_body (dom p))) ->
    getElementById (dom p) (js "temp-pdf-styles") = None ->
    getElementById (dom p) (js "cv-pdf-clone") = None ->
    exists p',
      handleDownloadPdf e p = (Normal tt, p') /\
      isDownloading p' = false /\
      doc_head (dom p') = doc_head (dom p) /\
      doc_body (dom p') = doc_body (dom p) /\
      getElementById (dom p') (js "temp-pdf-styles") = None /\
      getElementById (dom p') (js "cv-pdf-clone") = None /\
      (next_ref (dom p) <= next_ref (dom p'))%nat /\
      alerted p' = match getElementById (dom p) (js "cv-content"), e with
                   | Some _, Throws => true
                   | _, _ => alerted p
                   end.
Proof.
  intros e [d dl al sv] Hdl Hh Hb Hstyle Hclone. cbn [dom isDownloading alerted] in *.
  unfold handleDownloadPdf. cbn [dom].
  destruct (getElementById d (js "cv-content")) as [cv|].
  2:{ exists (Page d dl al sv). cbn [dom isDownloading alerted].
      repeat split; try assumption. lia. }
  pose proof (cloneNode_ref (next_ref d) cv) as Hr.
  pose proof (cloneNode_next cv (next_ref d)) as Hn.
  destruct (cloneNode (next_ref d) cv) as [copy r1]. cbn [fst snd] in Hr, Hn.
  set (clone := appendChild (remove_all interactive (set_id (js "cv-pdf-clone") copy))
                  (print_footer r1)).
  assert (Hrc : ref clone = next_ref d).
  { unfold clone. now rewrite ref_appendChild, ref_remove_all, ref_set_id. }
  set (style := Node (r1 + 4) (js "temp-pdf-styles") [] []).
  assert (Hhead : find_id (js "temp-pdf-styles") (doc_head d) = None).
  { unfold getElementById in Hstyle.
    destruct (find_id (js "temp-pdf-styles") (doc_head d)); [discriminate|reflexivity]. }
  (* the style element is found, and is a child of [head] *)
  unfold getElementById at 1. cbn [doc_head doc_body].
  rewrite (find_id_appendChild _ _ style Hhead).
  change (find_id (js "temp-pdf-styles") style) with (Some style). cbv iota.
  rewrite (removeChild_appended (doc_head d) style)
    by (apply refs_below_le with (next_ref d); [cbn [ref style]; lia|assumption]).
  (* the clone hangs where it was appended *)
  rewrite update_child_appended by (rewrite Hrc; assumption).
  set (clone' := remove_all (has_class (js "cv-icon")) clone).
  assert (Hrc' : ref clone' = ref clone) by apply ref_remove_all.
  rewrite <- Hrc', is_child_appended.
  rewrite removeChild_appended by (rewrite Hrc', Hrc; assumption).
  cbn [alerted saved].
  exists (Page (Document (doc_head d) (doc_body d) (r1 + 5)) false
               match e with Saves => al | Throws => true end
               match e with Saves => true | Throws => sv end).
  cbn [dom isDownloading alerted doc_head doc_body next_ref].
  unfold getElementById in *. cbn [doc_head doc_body].
  repeat split; try assumption; lia.
Qed.

Lemma export_cleans_up_witness :
  (isDownloading (snd (handleDownloadPdf Saves sample_page)) = false /\
   getElementById (dom (snd (handleDownloadPdf Saves sample_page)))
     (js "cv-pdf-clone") = None /\
   getElementById (dom (snd (handleDownloadPdf Saves sample_page)))
     (js "temp-pdf-styles") = None) /\
  (isDownloading (snd (handleDownloadPdf Throws sample_page)) = false /\
   getElementById (dom (snd (handleDownloadPdf Throws sample_page)))
     (js "cv-pdf-clone") = None /\
   getElementById (dom (snd (handleDownloadPdf Throws sample_page)))
     (js "temp-pdf-styles") = None /\
   alerted (snd (handleDownloadPdf Throws sample_page)) = true).
Proof.
  assert (Hh : refs_below (next_ref (dom sample_page))
                 (children (doc_head (dom sample_page)))).
  { repeat constructor. }
  assert (Hb : refs_below (next_ref (dom sample_page))
                 (children (doc_body (dom sample_page)))).
  { constructor; [cbn; lia|constructor]. }
  split.
  - destruct (export_cleans_up Saves sample_page eq_refl Hh Hb eq_refl eq_refl)
      as (p' & -> & H1 & _ & _ & H2 & H3 & _).
    cbn [snd]. auto.
  - destruct (export_cleans_up Throws sample_page eq_refl Hh Hb eq_refl eq_refl)
      as (p' & -> & H1 & _ & _ & H2 & H3 & _ & H4).
    cbn [snd]. auto.
Defined.

(** While the export runs the clone and the style element are attached:
    the clean-up is what takes them away. *)
Example export_attaches_clone :
  let d := dom sample_page in
  let clone :=
    appendChild
      (remove_all interactive
         (set_id (js "cv-pdf-clone") (fst (cloneNode (next_ref d)
            (Node 4 (js "cv-content") []
               [Node 5 [] [] [Node 6 (js "profile-photo") [] []];
                Node 7 [] [js "cv-icon"] [];
                Node 8 [] [js "floating-actions"]
                  [Node 9 (js "pdf-download-button") [] []];
                Node 10 [] [js "version-toast"] []])))))
      (print_footer 18) in
  option_map node_id
    (find_id (js "cv-pdf-clone") (appendChild (doc_body d) clone))
  = Some (js "cv-pdf-clone") /\
  map ref (children clone) = [12; 14; 18]%nat.
Proof. vm_compute. split; reflexivity. Qed.

(** ** Worked examples *)

Example uri_component_examples :
  decodeURIComponent (js "a%20b%2Fc") = Normal (js "a b/c") /\
  decodeURIComponent (js "%F0%9F%98%80") = Normal [55357; 56832] /\
  encodeURIComponent [55357; 56832] = Normal (js "%F0%9F%98%80") /\
  decodeURIComponent (js "%C0%80") = Throw URIError /\
  decodeURIComponent (js "100%") = Throw URIError /\
  encodeURIComponent [55357] = Throw URIError.
Proof. vm_compute. repeat split; reflexivity. Qed.

Example share_url_round_trip :
  shareUrl (js "http://localhost:5173") (Some (js "acme")) (Some (js "AB12CD"))
  = Normal (js "https://cv.hapangama.com/e/acme/v/AB12CD") /\
  shareUrl (js "http://localhost:5173") (Some (js "a b")) None
  = Normal (js "https://cv.hapangama.com/e/a%20b") /\
  initialEdition (js "/e/a%20b") = Normal (Some (js "a b")) /\
  shareUrl (js "http://localhost:5173") None None
  = Normal (js "https://cv.hapangama.com").
Proof. vm_compute. repeat split; reflexivity. Qed.

Example parse_edition_version :
  initialEdition (js "/e/acme/v/AB12CD") = Normal (Some (js "acme")) /\
  providedVersionFromUrl (js "/e/acme/v/AB12CD") = Some (js "AB12CD").
Proof. vm_compute. split; reflexivity. Qed.

Example stamp_empty :
  stamp_of_hash (hash32 []) = js "00045H".
Proof. vm_compute. reflexivity. Qed.

Example stamp_braces :
  computeVersionHash (fun d : jsstring => d) (js "{}") = js "03HN1F".
Proof. vm_compute. reflexivity. Qed.

(* ================================================================== *)
(** * Further properties *)

(** ** [decodeURIComponent] after [encodeURIComponent] *)

Lemma hex_val_hex_digit d : 0 <= d < 16 -> hex_val (hex_digit d) = Some d.
Proof.
  intros Hd. unfold hex_digit, hex_val, in_range.
  change (cu "0") with 48. change (cu "9") with 57.
  change (cu "A") with 65. change (cu "F") with 70.
  destruct (Z.ltb_spec d 10).
  - replace ((48 <=? 48 + d) && (48 + d <=? 57)) with true
      by (symmetry; apply andb_true_iff; split; apply Z.leb_le; lia).
    f_equal. lia.
  - replace ((48 <=? 65 + (d - 10)) && (65 + (d - 10) <=? 57)) with false
      by (symmetry; apply andb_false_iff; right; apply Z.leb_gt; lia).
    replace ((65 <=? 65 + (d - 10)) && (65 + (d - 10) <=? 70)) with true
      by (symmetry; apply andb_true_iff; split; apply Z.leb_le; lia).
    f_equal. lia.
Qed.

Lemma percent_octet_percent b t :
  0 <= b < 256 -> percent_octet (percent b ++ t) = Some (b, t).
Proof.
  intros Hb. unfold percent. cbn [app percent_octet]. rewrite Z.eqb_refl.
  rewrite !hex_val_hex_digit.
  - do 2 f_equal. pose proof (Z.div_mod b 16). lia.
  - apply Z.mod_pos_bound. lia.
  - split; [apply Z.div_pos; lia|apply Z.div_lt_upper_bound; lia].
Qed.

Lemma more_octets_percent bs : forall t,
  Forall (fun b => 0 <= b < 256) bs ->
  more_octets (length bs) (flat_map percent bs ++ t) = Some (bs, t).
Proof.
  induction bs as [|b bs IH]; intros t Hbs; [reflexivity|].
  inversion Hbs as [|? ? Hb Hbs']; subst.
  cbn [length more_octets flat_map]. rewrite <- app_assoc.
  rewrite percent_octet_percent by assumption. now rewrite IH.
Qed.

Lemma decode_loop_nil fuel : decode_loop fuel [] = Normal [].
Proof. destruct fuel; reflexivity. Qed.

Lemma percent_octet_cons b t :
  0 <= b < 256 ->
  percent_octet (cu "%" :: hex_digit (b / 16) :: hex_digit (b mod 16) :: t)
  = Some (b, t).
Proof. exact (percent_octet_percent b t). Qed.

(** An escape of one octet below 128 decodes to that code unit. *)
Lemma decode_one_octet fuel b r :
  0 <= b < 128 ->
  decode_loop (S fuel) (percent b ++ r)
  = match decode_loop fuel r with
    | Normal x => Normal (b :: x)
    | Throw e => Throw e
    end.
Proof.
  intros Hb. unfold percent. cbn [app decode_loop]. rewrite Z.eqb_refl.
  rewrite percent_octet_cons by lia.
  unfold leading_ones. destruct (Z.ltb_spec b 128); [reflexivity|lia].
Qed.

(** A lead octet and its continuation octets decode to their code point. *)
Lemma decode_octets fuel b bs v r :
  0 <= b < 256 -> Forall (fun x => 0 <= x < 256) bs ->
  (1 <= length bs <= 3)%nat -> leading_ones b = S (length bs) ->
  utf8_code_point b bs = Some v ->
  decode_loop (S fuel) (percent b ++ flat_map percent bs ++ r)
  = match decode_loop fuel r with
    | Normal x => Normal (utf16_encode v ++ x)
    | Throw e => Throw e
    end.
Proof.
  intros Hb Hbs Hlen Hlead Hv. unfold percent at 1. cbn [app decode_loop].
  rewrite Z.eqb_refl, percent_octet_cons by lia. rewrite Hlead.
  destruct bs as [|b1 [|b2 [|b3 [|b4 bs]]]]; cbn [length] in *; try lia.
  - pose proof (more_octets_percent [b1] r Hbs) as E. cbn [length] in E.
    rewrite E, Hv. reflexivity.
  - pose proof (more_octets_percent [b1; b2] r Hbs) as E. cbn [length] in E.
    rewrite E, Hv. reflexivity.
  - pose proof (more_octets_percent [b1; b2; b3] r Hbs) as E. cbn [length] in E.
    rewrite E, Hv. reflexivity.
Qed.

Ltac euclid := Z.to_euclidean_division_equations; lia.

Lemma continuation_octet x : 0 <= x < 64 -> is_continuation (128 + x) = true.
Proof.
  intros Hx. unfold is_continuation.
  apply andb_true_iff. split; apply Z.leb_le; lia.
Qed.

(** A Unicode scalar value, written in UTF-8 and escaped, decodes to its
    UTF-16 form. *)
Lemma decode_scalar fuel v r :
  0 <= v < 1114112 -> ~ (55296 <= v <= 57343) ->
  decode_loop (S fuel) (flat_map percent (utf8_encode v) ++ r)
  = match decode_loop fuel r with
    | Normal x => Normal (utf16_encode v ++ x)
    | Throw e => Throw e
    end.
Proof.
  intros Hv Hs. unfold utf8_encode.
  destruct (Z.ltb_spec v 128) as [H1|H1];
    [|destruct (Z.ltb_spec v 2048) as [H2|H2];
      [|destruct (Z.ltb_spec v 65536) as [H3|H3]]].
  - cbn [flat_map]. rewrite app_nil_r, decode_one_octet by lia.
    unfold utf16_encode. destruct (Z.ltb_spec v 65536); [reflexivity|lia].
  - cbn [flat_map]. rewrite <- app_assoc.
    apply (decode_octets fuel (192 + v / 64) [128 + v mod 64] v r).
    + euclid.
    + repeat constructor; euclid.
    + cbn; lia.
    + unfold leading_ones.
      repeat match goal with
             | |- context [?a <? ?b] => destruct (Z.ltb_spec a b); try euclid
             end; reflexivity.
    + unfold utf8_code_point. cbn [forallb].
      rewrite continuation_octet by euclid. cbn [andb negb].
      replace ((192 + v / 64 - 192) * 64 + (128 + v mod 64 - 128)) with v by euclid.
      destruct (Z.leb_spec 128 v); [reflexivity|lia].
  - cbn [flat_map]. rewrite <- app_assoc.
    apply (decode_octets fuel (224 + v / 4096)
             [128 + (v / 64) mod 64; 128 + v mod 64] v r).
    + euclid.
    + repeat constructor; euclid.
    + cbn; lia.
    + unfold leading_ones.
      repeat match goal with
             | |- context [?a <? ?b] => destruct (Z.ltb_spec a b); try euclid
             end; reflexivity.
    + unfold utf8_code_point. cbn [forallb].
      rewrite !continuation_octet by euclid. cbn [andb negb].
      replace ((224 + v / 4096 - 224) * 4096 + (128 + (v / 64) mod 64 - 128) * 64
               + (128 + v mod 64 - 128)) with v by euclid.
      destruct (Z.leb_spec 2048 v); [|lia].
      destruct (Z.leb_spec 55296 v), (Z.leb_spec v 57343); try reflexivity; lia.
  - cbn [flat_map]. rewrite <- app_assoc.
    apply (decode_octets fuel (240 + v / 262144)
             [128 + (v / 4096) mod 64; 128 + (v / 64) mod 64; 128 + v mod 64] v r).
    + euclid.
    + repeat constructor; euclid.
    + cbn; lia.
    + unfold leading_ones.
      repeat match goal with
             | |- context [?a <? ?b] => destruct (Z.ltb_spec a b); try euclid
             end; reflexivity.
    + unfold utf8_code_point. cbn [forallb].
      rewrite !continuation_octet by euclid. cbn [andb negb].
      replace ((240 + v / 262144 - 240) * 262144
               + (128 + (v / 4096) mod 64 - 128) * 4096
               + (128 + (v / 64) mod 64 - 128) * 64
               + (128 + v mod 64 - 128)) with v by euclid.
      destruct (Z.leb_spec 65536 v), (Z.leb_spec v 1114111); try reflexivity; lia.
Qed.

Lemma unreserved_not_percent c : unreserved c = true -> (c =? cu "%") = false.
Proof.
  intros H. destruct (Z.eqb_spec c (cu "%")) as [->|]; [|reflexivity].
  vm_compute in H. discriminate.
Qed.

Lemma surrogate_pair c d :
  is_lead_surrogate c = true -> is_trail_surrogate d = true ->
  let v := (c - 55296) * 1024 + (d - 56320) + 65536 in
  0 <= v < 1114112 /\ ~ (55296 <= v <= 57343) /\ utf16_encode v = [c; d].
Proof.
  unfold is_lead_surrogate, is_trail_surrogate, utf16_encode.
  intros [Hc1 Hc2]%andb_true_iff [Hd1 Hd2]%andb_true_iff.
  apply Z.leb_le in Hc1, Hc2, Hd1, Hd2. cbv zeta.
  split; [lia|]. split; [lia|].
  destruct (Z.ltb_spec ((c - 55296) * 1024 + (d - 56320) + 65536) 65536); [lia|].
  f_equal; [|f_equal]; euclid.
Qed.

Lemma not_surrogate c :
  is_trail_surrogate c = false -> is_lead_surrogate c = false ->
  ~ (55296 <= c <= 57343).
Proof.
  unfold is_lead_surrogate, is_trail_surrogate.
  intros [H|H]%andb_false_iff [H'|H']%andb_false_iff;
    apply Z.leb_gt in H, H'; lia.
Qed.

(** Decoding undoes encoding, for any fuel that covers the input. *)
Lemma decode_encode_loop fuel : forall s enc fuel',
  Forall is_code_unit s ->
  encode_loop fuel s = Normal enc ->
  (length s <= fuel)%nat -> (length s <= fuel')%nat ->
  decode_loop fuel' enc = Normal s.
Proof.
  induction fuel as [|fuel IH]; intros s enc fuel' Hs He Hl Hl'.
  - destruct s; [|cbn in Hl; lia]. cbn in He. injection He as <-.
    apply decode_loop_nil.
  - destruct s as [|c t].
    + cbn in He. injection He as <-. apply decode_loop_nil.
    + inversion Hs as [|? ? Hc Ht]; subst. cbn [length] in Hl, Hl'.
      destruct fuel' as [|fuel']; [lia|].
      cbn [encode_loop] in He.
      destruct (unreserved c) eqn:Hu.
      * destruct (encode_loop fuel t) as [r|e] eqn:Hr; [|discriminate].
        injection He as <-. cbn [decode_loop].
        rewrite (unreserved_not_percent c Hu).
        rewrite (IH t r fuel' Ht Hr) by lia. reflexivity.
      * destruct (is_trail_surrogate c) eqn:Htr; [discriminate|].
        destruct (is_lead_surrogate c) eqn:Hld.
        -- destruct t as [|d t']; [discriminate|].
           destruct (is_trail_surrogate d) eqn:Hd; [|discriminate].
           destruct (encode_loop fuel t') as [r|e] eqn:Hr; [|discriminate].
           injection He as <-.
           destruct (surrogate_pair c d Hld Hd) as (Hv & Hns & H16).
           rewrite decode_scalar by assumption.
           inversion Ht as [|? ? Hd' Ht']; subst. cbn [length] in Hl, Hl'.
           rewrite (IH t' r fuel' Ht' Hr) by lia.
           rewrite H16. reflexivity.
        -- destruct (encode_loop fuel t) as [r|e] eqn:Hr; [|discriminate].
           injection He as <-. unfold is_code_unit in Hc.
           rewrite decode_scalar by (try apply not_surrogate; try assumption; lia).
           rewrite (IH t r fuel' Ht Hr) by lia.
           unfold utf16_encode. destruct (Z.ltb_spec c 65536); [reflexivity|lia].
Qed.

Lemma length_percent_escapes v : (1 <= length (flat_map percent (utf8_encode v)))%nat.
Proof.
  unfold utf8_encode.
  destruct (v <? 128), (v <? 2048), (v <? 65536); cbn; lia.
Qed.

Lemma length_escapes_pair v : (2 <= length (flat_map percent (utf8_encode v)))%nat.
Proof.
  unfold utf8_encode.
  destruct (v <? 128), (v <? 2048), (v <? 65536); cbn; lia.
Qed.

(** The encoded text is at least as long as the text. *)
Lemma encode_loop_length fuel : forall s enc,
  encode_loop fuel s = Normal enc -> (length s <= fuel)%nat ->
  (length s <= length enc)%nat.
Proof.
  induction fuel as [|fuel IH]; intros s enc He Hl.
  - destruct s; cbn in *; lia.
  - destruct s as [|c t]; [cbn; lia|]. cbn [length] in *.
    cbn [encode_loop] in He.
    destruct (unreserved c).
    + destruct (encode_loop fuel t) as [r|e] eqn:Hr; [|discriminate].
      injection He as <-. cbn [length]. specialize (IH t r Hr). lia.
    + destruct (is_trail_surrogate c); [discriminate|].
      destruct (is_lead_surrogate c).
      * destruct t as [|d t']; [discriminate|].
        destruct (is_trail_surrogate d); [|discriminate].
        destruct (encode_loop fuel t') as [r|e] eqn:Hr; [|discriminate].
        injection He as <-. cbn [length] in *. rewrite length_app.
        specialize (IH t' r Hr).
        pose proof (length_escapes_pair ((c - 55296) * 1024 + (d - 56320) + 65536)).
        lia.
      * destruct (encode_loop fuel t) as [r|e] eqn:Hr; [|discriminate].
        injection He as <-. rewrite length_app.
        specialize (IH t r Hr). pose proof (length_percent_escapes c). lia.
Qed.

(** ** The matcher is greedy *)

Lemma rmatch_class_end p k st :
  run_ends p (rest st) -> rmatch (Class p) k st = None.
Proof.
  intros H. simpl. destruct (rest st) as [|x t]; [reflexivity|].
  simpl in H. rewrite H. reflexivity.
Qed.

(** A [+] or [*] loop over a class takes the whole run when what follows
    the run then matches. *)
Lemma more_greedy p k n : forall st run t m,
  rest st = run ++ t -> Forall (fun c => p c = true) run -> run_ends p t ->
  (length run <= n)%nat ->
  k (MState (idx st + length run) t (caps st)) = Some m ->
  more (rmatch (Class p)) k n st = Some m.
Proof.
  induction n as [|n IH]; intros st run t m Hr Hrun Hend Hlen Hk.
  - destruct run; [|simpl in Hlen; lia]. simpl in Hr, Hk. subst t.
    rewrite mstate_eta in Hk. exact Hk.
  - cbn [more]. destruct run as [|x run].
    + simpl in Hr, Hk. subst t. rewrite mstate_eta in Hk.
      rewrite rmatch_class_end by assumption. exact Hk.
    + inversion Hrun as [|? ? Hx Hrun']; subst.
      rewrite (rmatch_class_cons p _ st x (run ++ t) Hr Hx).
      rewrite (IH (advance st (run ++ t)) run t m); try reflexivity; try assumption.
      * simpl in Hlen. lia.
      * cbn [advance idx caps]. cbn [length] in Hk.
        replace (S (idx st) + length run)%nat with (idx st + S (length run))%nat
          by lia.
        exact Hk.
Qed.

(** A [{lo,hi}] loop over a class takes the whole run, or its first [hi]
    characters, when what follows then matches. *)
Lemma rep_greedy p k hi : forall lo st run t m,
  rest st = run ++ t -> Forall (fun c => p c = true) run ->
  (lo <= length run <= hi)%nat ->
  (length run = hi \/ run_ends p t) ->
  k (MState (idx st + length run) t (caps st)) = Some m ->
  rep (rmatch (Class p)) k lo hi st = Some m.
Proof.
  induction hi as [|hi IH]; intros lo st run t m Hr Hrun Hlen Hend Hk.
  - destruct run; [|simpl in Hlen; lia]. simpl in Hr, Hk. subst t.
    rewrite mstate_eta in Hk. exact Hk.
  - cbn [rep]. destruct run as [|x run].
    + simpl in Hr, Hk, Hlen. subst t. rewrite mstate_eta in Hk.
      destruct Hend as [Hend|Hend]; [discriminate|].
      rewrite rmatch_class_end by assumption.
      replace lo with 0%nat by lia. exact Hk.
    + inversion Hrun as [|? ? Hx Hrun']; subst.
      rewrite (rmatch_class_cons p _ st x (run ++ t) Hr Hx).
      rewrite (IH (pred lo) (advance st (run ++ t)) run t m);
        try reflexivity; try assumption.
      * simpl in Hlen. lia.
      * destruct Hend as [Hend|Hend]; [left; simpl in Hend; lia|right; exact Hend].
      * cbn [advance idx caps]. cbn [length] in Hk.
        replace (S (idx st) + length run)%nat with (idx st + S (length run))%nat
          by lia.
        exact Hk.
Qed.

Lemma search_here r i s m :
  rmatch r (fun x => Some x) (MState i s []) = Some m -> search r i s = Some m.
Proof. intros H. destruct s; simpl; rewrite H; reflexivity. Qed.

(** [(?:^|\/)] at the start of a path that begins with a slash, before a
    pattern that begins with a letter. *)
Lemma boundary_leading_slash c b k t :
  c <> cu "/" ->
  rmatch (Seq boundary (Seq (Chr c) b)) k (MState 0 (cu "/" :: t) [])
  = rmatch (Seq (Chr c) b) k (MState 1 t []).
Proof.
  intros Hc. rewrite rmatch_seq. unfold boundary.
  cbn [rmatch idx rest Nat.eqb]. rewrite Z.eqb_refl.
  destruct (Z.eqb_spec (cu "/") c) as [E|_]; [symmetry in E; contradiction|].
  reflexivity.
Qed.

Lemma rmatch_opt_some a k st m :
  rmatch a k st = Some m -> rmatch (Opt a) k st = Some m.
Proof. intros H. simpl. rewrite H. reflexivity. Qed.

(** The version token of a path: the whole run of letters and digits, or
    its first ten. *)
Lemma version_token_greedy i k st v t m :
  rest st = v ++ t -> is_token v -> (length v = 10%nat \/ run_ends alnum t) ->
  k (set_cap i v (MState (idx st + length v) t (caps st))) = Some m ->
  rmatch (Group i version_token) k st = Some m.
Proof.
  intros Hr [Hlen Hv] Hend Hk. rewrite rmatch_group. unfold version_token.
  rewrite rmatch_rep.
  apply (rep_greedy alnum _ 10 4 st v t m Hr Hv Hlen Hend).
  cbn [idx]. rewrite Hr, firstn_run. exact Hk.
Qed.

(** [(?:\/(?:v\/([A-Za-z0-9]{4,10}))?)?] before a version segment. *)
Lemma version_tail_greedy st v t :
  rest st = js "/v/" ++ v ++ t -> is_token v ->
  (length v = 10%nat \/ run_ends alnum t) ->
  rmatch (Opt (Seq (Chr (cu "/"))
           (Opt (Seq (Chr (cu "v"))
             (Seq (Chr (cu "/")) (Group 2 version_token))))))
    (fun x => Some x) st
  = Some (MState (idx st + 3 + length v) t ((2%nat, v) :: caps st)).
Proof.
  intros Hr Hv Hend.
  apply rmatch_opt_some.
  rewrite rmatch_seq, (rmatch_chr_cons _ _ _ (js "v/" ++ v ++ t)) by exact Hr.
  apply rmatch_opt_some.
  rewrite rmatch_seq, (rmatch_chr_cons _ _ _ (js "/" ++ v ++ t)) by reflexivity.
  rewrite rmatch_seq, (rmatch_chr_cons _ _ _ (v ++ t)) by reflexivity.
  apply (version_token_greedy 2 _ _ v t); try assumption; try reflexivity.
  cbn [advance idx caps set_cap rest]. unfold set_cap. cbn [idx rest caps].
  replace (S (S (S (idx st))) + length v)%nat with (idx st + 3 + length v)%nat
    by lia.
  reflexivity.
Qed.

(** The same, at the end of the path. *)
Lemma version_tail_none st :
  rest st = [] ->
  rmatch (Opt (Seq (Chr (cu "/"))
           (Opt (Seq (Chr (cu "v"))
             (Seq (Chr (cu "/")) (Group 2 version_token))))))
    (fun x => Some x) st
  = Some st.
Proof. intros Hr. cbn [rmatch]. rewrite Hr. reflexivity. Qed.

(** The name of the edition is the whole segment after [/e/]. *)
Lemma edition_name_greedy name tail m0 :
  name <> [] -> Forall (fun c => not_slash c = true) name ->
  run_ends not_slash tail ->
  rmatch (Opt (Seq (Chr (cu "/"))
           (Opt (Seq (Chr (cu "v"))
             (Seq (Chr (cu "/")) (Group 2 version_token))))))
    (fun x => Some x)
    (MState (3 + length name) tail [(1%nat, name)]) = Some m0 ->
  editionMatch (js "/e/" ++ name ++ tail) = Some m0.
Proof.
  intros Hne Hname Hend Hk. unfold editionMatch, exec. apply search_here.
  unfold edition_re. cbn [js list_ascii_of_string map app].
  rewrite boundary_leading_slash by discriminate.
  rewrite rmatch_seq, (rmatch_chr_cons _ _ _ (cu "/" :: name ++ tail)) by reflexivity.
  rewrite rmatch_seq, (rmatch_chr_cons _ _ _ (name ++ tail)) by reflexivity.
  rewrite rmatch_seq, rmatch_group, rmatch_plus.
  destruct name as [|c name]; [contradiction Hne; reflexivity|].
  inversion Hname as [|? ? Hc Hname']; subst.
  rewrite (rmatch_class_cons _ _ _ c (name ++ tail)) by (first [reflexivity|assumption]).
  apply (more_greedy not_slash _ _ _ name tail m0);
    try reflexivity; try assumption.
  - cbn [advance rest length app]. rewrite length_app. lia.
  - cbn [advance idx rest caps set_cap].
    rewrite (firstn_consumed (c :: name) tail) by (cbn [length]; lia).
    cbn [length] in Hk.
    replace (3 + length name)%nat with (3 + length name)%nat by reflexivity.
    replace (2 + 1 + length name)%nat with (3 + length name)%nat by lia.
    exact Hk.
Qed.

(** [/(?:^|\/)v\/([A-Za-z0-9]{4,10})/] on a path that starts with a version
    segment. *)
Lemma version_re_greedy v t :
  is_token v -> (length v = 10%nat \/ run_ends alnum t) ->
  exec version_re (js "/v/" ++ v ++ t)
  = Some (MState (3 + length v) t [(1%nat, v)]).
Proof.
  intros Hv Hend. unfold exec. apply search_here.
  unfold version_re. cbn [js list_ascii_of_string map app].
  rewrite boundary_leading_slash by discriminate.
  rewrite rmatch_seq, (rmatch_chr_cons _ _ _ (cu "/" :: v ++ t)) by reflexivity.
  rewrite rmatch_seq, (rmatch_chr_cons _ _ _ (v ++ t)) by reflexivity.
  apply (version_token_greedy 1 _ _ v t); try assumption; reflexivity.
Qed.

(** No edition pattern occurs in a path made of a version segment. *)
Lemma version_path_no_edition v :
  Forall (fun c => alnum c = true) v -> ~ edition_pattern (js "/v/" ++ v).
Proof.
  intros Hv (pre & c & t & Heq & _ & _).
  change (js "/v/") with [47; 118; 47] in Heq.
  change (js "e/") with [101; 47] in Heq.
  destruct pre as [|x0 [|x1 [|x2 pre]]]; cbn [app] in Heq; try discriminate.
  injection Heq as _ _ _ Heq. rewrite Heq in Hv.
  apply Forall_app in Hv. destruct Hv as [_ Hv].
  inversion Hv as [|? ? _ Hv']. inversion Hv' as [|? ? Hs _].
  vm_compute in Hs. discriminate.
Qed.

Lemma token_alnum v : is_token v -> Forall (fun c => alnum c = true) v.
Proof. intros [_ H]. exact H. Qed.

(** ** What [encodeURIComponent] writes *)

Lemma utf8_encode_octets v :
  0 <= v < 1114112 -> Forall (fun b => 0 <= b < 256) (utf8_encode v).
Proof.
  intros Hv. unfold utf8_encode.
  destruct (Z.ltb_spec v 128); [|destruct (Z.ltb_spec v 2048);
    [|destruct (Z.ltb_spec v 65536)]]; repeat constructor; euclid.
Qed.

Lemma hex_digit_not_slash d : 0 <= d < 16 -> not_slash (hex_digit d) = true.
Proof.
  intros Hd. unfold not_slash, hex_digit.
  change (cu "/") with 47. change (cu "0") with 48. change (cu "A") with 65.
  destruct (Z.ltb_spec d 10); apply negb_true_iff, Z.eqb_neq; lia.
Qed.

Lemma percent_not_slash bs :
  Forall (fun b => 0 <= b < 256) bs ->
  Forall (fun c => not_slash c = true) (flat_map percent bs).
Proof.
  induction 1 as [|b bs Hb _ IH]; [constructor|].
  cbn [flat_map]. unfold percent. cbn [app].
  repeat constructor; try assumption; try apply hex_digit_not_slash; euclid.
Qed.

Lemma unreserved_not_slash c : unreserved c = true -> not_slash c = true.
Proof.
  intros H. unfold not_slash.
  destruct (Z.eqb_spec c (cu "/")) as [->|]; [|reflexivity].
  vm_compute in H. discriminate.
Qed.

(** The encoded text holds no slash. *)
Lemma encode_loop_not_slash fuel : forall s enc,
  Forall is_code_unit s -> encode_loop fuel s = Normal enc ->
  Forall (fun c => not_slash c = true) enc.
Proof.
  induction fuel as [|fuel IH]; intros s enc Hs He.
  - injection He as <-. constructor.
  - destruct s as [|c t]; [injection He as <-; constructor|].
    inversion Hs as [|? ? Hc Ht]; subst. unfold is_code_unit in Hc.
    cbn [encode_loop] in He. destruct (unreserved c) eqn:Hu.
    + destruct (encode_loop fuel t) as [r|e] eqn:Hr; [|discriminate].
      injection He as <-. constructor;
        [apply unreserved_not_slash; assumption|apply (IH t r Ht Hr)].
    + destruct (is_trail_surrogate c); [discriminate|].
      destruct (is_lead_surrogate c) eqn:Hld.
      * destruct t as [|d t']; [discriminate|].
        destruct (is_trail_surrogate d) eqn:Hd; [|discriminate].
        destruct (encode_loop fuel t') as [r|e] eqn:Hr; [|discriminate].
        injection He as <-. inversion Ht as [|? ? _ Ht']; subst.
        apply Forall_app. split; [|apply (IH t' r Ht' Hr)].
        apply percent_not_slash, utf8_encode_octets.
        apply (surrogate_pair c d Hld Hd).
      * destruct (encode_loop fuel t) as [r|e] eqn:Hr; [|discriminate].
        injection He as <-.
        apply Forall_app. split; [|apply (IH t r Ht Hr)].
        apply percent_not_slash, utf8_encode_octets. lia.
Qed.

Lemma encodeURIComponent_segment s enc :
  Forall is_code_unit s -> s <> [] -> encodeURIComponent s = Normal enc ->
  enc <> [] /\ Forall (fun c => not_slash c = true) enc /\
  decodeURIComponent enc = Normal s.
Proof.
  intros Hs Hne He. split; [|split].
  - pose proof (encode_loop_length _ _ _ He (le_n _)) as Hl.
    intros ->. destruct s; [contradiction Hne; reflexivity|simpl in Hl; lia].
  - apply (encode_loop_not_slash _ _ _ Hs He).
  - unfold encodeURIComponent in He. unfold decodeURIComponent.
    apply (decode_encode_loop (length s) s enc (length enc) Hs He (le_n _)).
    apply (encode_loop_length (length s) s enc He (le_n _)).
Qed.

(** ** The share link leads back *)

Lemma resolver_versioned_edition name v :
  name <> [] -> Forall (fun c => not_slash c = true) name -> is_token v ->
  editionMatch (js "/e/" ++ name ++ js "/v/" ++ v)
  = Some (MState (3 + length name + 3 + length v) [] [(2%nat, v); (1%nat, name)]).
Proof.
  intros Hne Hname Hv. apply edition_name_greedy; try assumption.
  - reflexivity.
  - rewrite <- (app_nil_r v) at 1.
    rewrite (version_tail_greedy _ v []); try assumption;
      [reflexivity|rewrite app_nil_r; reflexivity|right; exact I].
Qed.

Lemma resolver_bare_edition name :
  name <> [] -> Forall (fun c => not_slash c = true) name ->
  editionMatch (js "/e/" ++ name)
  = Some (MState (3 + length name) [] [(1%nat, name)]).
Proof.
  intros Hne Hname. rewrite <- (app_nil_r name) at 1.
  apply edition_name_greedy; try assumption; [exact I|].
  apply version_tail_none. reflexivity.
Qed.

Lemma resolver_root_version v :
  is_token v ->
  editionMatch (js "/v/" ++ v) = None /\
  exec version_re (js "/v/" ++ v) = Some (MState (3 + length v) [] [(1%nat, v)]).
Proof.
  intros Hv. split.
  - apply editionMatch_none, version_path_no_edition, token_alnum, Hv.
  - rewrite <- (app_nil_r v) at 1. apply version_re_greedy; [assumption|].
    right. exact I.
Qed.

(** The resolver reads back what [shareUrl] wrote after the origin. *)
Lemma shareUrl_resolves :
  forall (runtimeOrigin : jsstring) (e v : option jsstring) (url : jsstring),
    match e with Some s => s <> [] /\ Forall is_code_unit s | None => True end ->
    match v with Some tok => is_token tok | None => True end ->
    shareUrl runtimeOrigin e v = Normal url ->
    exists path,
      url = configuredBaseOrigin ++ path /\
      initialEdition path = Normal e /\
      providedVersionFromUrl path = v.
Proof.
  intros runtimeOrigin e v url He Hv. unfold shareUrl.
  change (truthy (Some configuredBaseOrigin)) with true. cbv iota.
  destruct e as [s|], v as [tok|].
  - destruct He as [Hne Hs]. rewrite (token_truthy tok Hv).
    destruct s as [|c s]; [contradiction Hne; reflexivity|].
    cbn [truthy text].
    destruct (encodeURIComponent (c :: s)) as [enc|x] eqn:Henc; [|discriminate].
    intros [= <-].
    destruct (encodeURIComponent_segment _ _ Hs Hne Henc) as (Hn & Hsl & Hdec).
    exists (js "/e/" ++ enc ++ js "/v/" ++ tok). split; [reflexivity|].
    unfold initialEdition, providedVersionFromUrl.
    rewrite (resolver_versioned_edition enc tok Hn Hsl Hv).
    unfold group. cbn [caps lookup_cap Nat.eqb capture_text]. rewrite Hdec.
    unfold or_null. rewrite (token_truthy tok Hv). split; reflexivity.
  - destruct He as [Hne Hs].
    destruct s as [|c s]; [contradiction Hne; reflexivity|].
    cbn [truthy text].
    destruct (encodeURIComponent (c :: s)) as [enc|x] eqn:Henc; [|discriminate].
    intros [= <-].
    destruct (encodeURIComponent_segment _ _ Hs Hne Henc) as (Hn & Hsl & Hdec).
    exists (js "/e/" ++ enc). split; [reflexivity|].
    unfold initialEdition, providedVersionFromUrl.
    rewrite (resolver_bare_edition enc Hn Hsl).
    unfold group. cbn [caps lookup_cap Nat.eqb capture_text]. rewrite Hdec.
    split; reflexivity.
  - rewrite (token_truthy tok Hv). cbn [truthy text]. intros [= <-].
    exists (js "/v/" ++ tok). split; [reflexivity|].
    destruct (resolver_root_version tok Hv) as [H1 H2].
    unfold initialEdition, providedVersionFromUrl, rootVersionMatch.
    rewrite H1, H2. split; reflexivity.
  - cbn [truthy]. intros [= <-]. exists []. rewrite app_nil_r.
    split; [reflexivity|]. split; reflexivity.
Qed.

(** X1. The share link leads back to the page it was made on: the path
    that [shareUrl] writes after the canonical origin, read by the
    resolver, gives the same edition and the same version, for any edition
    that is absent or a non-empty text (one that encodes without error)
    and any stamp that is absent or a token. *)
Theorem share_link_leads_back :
  forall (runtimeOrigin : jsstring) (e v : option jsstring) (url : jsstring),
    match e with Some s => s <> [] /\ Forall is_code_unit s | None => True end ->
    match v with Some tok => is_token tok | None => True end ->
    shareUrl runtimeOrigin e v = Normal url ->
    exists path,
      url = configuredBaseOrigin ++ path /\
      initialEdition path = Normal e /\
      providedVersionFromUrl path = v.
Proof. exact shareUrl_resolves. Qed.

Lemma share_link_leads_back_witness :
  exists path,
    js "https://cv.hapangama.com/e/caf%C3%A9%20noir/v/AB12CD"
      = configuredBaseOrigin ++ path /\
    initialEdition path = Normal (Some (js "caf" ++ [233] ++ js " noir")) /\
    providedVersionFromUrl path = Some (js "AB12CD").
Proof.
  apply (share_link_leads_back [] (Some (js "caf" ++ [233] ++ js " noir"))
           (Some (js "AB12CD"))).
  - split; [discriminate|]. repeat constructor; unfold is_code_unit; cbn; lia.
  - split; [cbn; lia|]. repeat constructor.
  - reflexivity.
Defined.

(** ** Visits *)

Lemma alnum_upper c : base36_upper c -> alnum c = true.
Proof.
  unfold base36_upper, alnum, in_range. intros [H|H].
  - replace ((cu "0" <=? c) && (c <=? cu "9")) with true;
      [now rewrite !orb_true_r|].
    symmetry. apply andb_true_iff. split; apply Z.leb_le; lia.
  - replace ((cu "A" <=? c) && (c <=? cu "Z")) with true; [reflexivity|].
    symmetry. apply andb_true_iff. split; apply Z.leb_le; lia.
Qed.

Section Visits.

Context {CVData : Type} (JSON_stringify : CVData -> jsstring).

(** A stamp is a token. *)
Lemma computeVersionHash_token (d : CVData) :
  is_token (computeVersionHash JSON_stringify d).
Proof.
  split.
  - rewrite computeVersionHash_length. lia.
  - unfold computeVersionHash.
    rewrite stamp_of_hash_digits by apply hash32_range.
    eapply Forall_impl; [|apply fixed_digits_alphabet].
    intros c. apply alnum_upper.
Qed.

(** One run of [load] when the first file asked for is served. *)
Lemma load_serves_first (w : env CVData) (s : state CVData) st1 d :
  answer w (length (requests s))
    (if truthy (edition s) then edition_file (edition s) else default_file)
  = Responds true st1 (Some d) ->
  snd (load JSON_stringify w s)
  = State (edition s) (Some (computeVersionHash JSON_stringify d)) (versionStatus s)
      (Some d) (error s) (location_path s)
      (requests s ++ [if truthy (edition s) then edition_file (edition s)
                      else default_file]).
Proof.
  intros H1. destruct s as [e vh vs cv er lp rq]. cbn [edition requests] in *.
  run_load. project. rewrite H1. reflexivity.
Qed.

(** X2. Opening one's own share link: on the page the link of edition [e]
    and document [d] leads to, once the file of [e] is served with a
    document [d'] and the status effect has run, the status is [match]
    when [d'] has the stamp of [d] and [mismatch] when it has another. *)
Theorem own_share_link_matches :
  forall (w : env CVData) (runtimeOrigin : jsstring) (e : option jsstring)
         (d d' : CVData) (st : Z) (path : jsstring),
    match e with Some s => s <> [] /\ Forall is_code_unit s | None => True end ->
    shareUrl runtimeOrigin e (Some (computeVersionHash JSON_stringify d))
    = Normal (configuredBaseOrigin ++ path) ->
    answer w 0 (if truthy e then edition_file e else default_file)
    = Responds true st (Some d') ->
    initialEdition path = Normal e /\
    let s := run_effects JSON_stringify w [DataEffect; StatusEffect]
               (initial_state path e) in
    cvData s = Some d' /\ error s = None /\
    (computeVersionHash JSON_stringify d' = computeVersionHash JSON_stringify d ->
     versionStatus s = match_) /\
    (computeVersionHash JSON_stringify d' <> computeVersionHash JSON_stringify d ->
     versionStatus s = mismatch).
Proof.
  intros w ro e d d' st path He Hurl Hans.
  destruct (shareUrl_resolves ro e (Some (computeVersionHash JSON_stringify d)) _ He
              (computeVersionHash_token d) Hurl)
    as (path' & Hp & Hed & Hver).
  apply app_inv_head in Hp. subst path'. split; [exact Hed|].
  cbv zeta. unfold run_effects. cbn [fold_left run_effect].
  rewrite (load_serves_first w (initial_state path e) st d') by exact Hans.
  cbn [initial_state edition versionStatus error location_path requests].
  set (s1 := State e (Some (computeVersionHash JSON_stringify d')) unknown (Some d')
               None path ([] ++ [if truthy e then edition_file e else default_file])).
  assert (Hst : versionStatus (snd (status_effect w s1))
                = if strict_eq (computeVersionHash JSON_stringify d)
                               (computeVersionHash JSON_stringify d')
                  then match_ else mismatch).
  { apply status_effect_compares; try reflexivity; [exact Hver|].
    intros H. apply (f_equal (@length Z)) in H.
    rewrite computeVersionHash_length in H. discriminate. }
  assert (Hrest : cvData (snd (status_effect w s1)) = Some d' /\
                  error (snd (status_effect w s1)) = None).
  { unfold status_effect, bind, gets, ret, setVersionStatus, modify, s1. project.
    destruct (_ && _ && _); split; reflexivity. }
  destruct Hrest as [Hcv Herr]. split; [exact Hcv|]. split; [exact Herr|].
  rewrite Hst. split.
  - intros E. rewrite E, strict_eq_refl. reflexivity.
  - intros N.
    destruct (strict_eq _ _) eqn:E; [|reflexivity].
    apply strict_eq_true in E. congruence.
Qed.

(** Every run of [load] ends with the error set or with a document and
    its stamp. *)
Lemma load_outcome (w : env CVData) (s : state CVData) :
  let s1 := snd (load JSON_stringify w s) in
  (error s1 = Some load_error /\ cvData s1 = cvData s /\
   versionHash s1 = versionHash s) \/
  (error s1 = error s /\
   exists d, cvData s1 = Some d /\
             versionHash s1 = Some (computeVersionHash JSON_stringify d)).
Proof.
  destruct s as [e vh vs cv er lp rq]. cbv zeta. run_load. project.
  repeat (project; cbn [fst snd]; load_cases);
    solve [left; repeat split; reflexivity
          |right; split; [reflexivity|eexists; split; reflexivity]].
Qed.

(** X3. A run of [load] never leaves the page on [Loading...], unless the
    document it was served is a falsy value: afterwards the component
    shows the error page or the document. *)
Theorem load_leaves_loading :
  forall (data_truthy : CVData -> bool) (w : env CVData) (s : state CVData),
    render data_truthy (snd (load JSON_stringify w s)) = LoadingPage ->
    exists d, cvData (snd (load JSON_stringify w s)) = Some d /\
              data_truthy d = false.
Proof.
  intros tr w s. unfold render.
  destruct (load_outcome w s) as [(He & _)|(_ & d & Hd & _)].
  - rewrite He. discriminate.
  - rewrite Hd. destruct (truthy _); [discriminate|].
    destruct (tr d) eqn:Ht; [discriminate|]. intros _. exists d. split; auto.
Qed.

Lemma load_keeps_error (w : env CVData) (s : state CVData) :
  truthy (error s) = true -> truthy (error (snd (load JSON_stringify w s))) = true.
Proof.
  intros H. destruct (load_outcome w s) as [(He & _)|(He & _)]; rewrite He;
    [reflexivity|exact H].
Qed.

Lemma status_effect_keeps (w : env CVData) (s : state CVData) :
  let s1 := snd (status_effect w s) in
  edition s1 = edition s /\ versionHash s1 = versionHash s /\
  cvData s1 = cvData s /\ error s1 = error s /\ requests s1 = requests s.
Proof.
  destruct s as [e vh vs cv er lp rq]. cbv zeta.
  unfold status_effect, bind, gets, ret, setVersionStatus, modify. project.
  destruct (_ && _ && _); repeat split; reflexivity.
Qed.

(** X4. The error page is final: once [error] is set, the component shows
    an error page after any further runs of the effects, whatever the
    server answers then. *)
Theorem error_page_is_final :
  forall (data_truthy : CVData -> bool) (w : env CVData) (evs : list effect)
         (s : state CVData),
    truthy (error s) = true ->
    exists message,
      render data_truthy (run_effects JSON_stringify w evs s) = ErrorPage message.
Proof.
  intros tr w evs. unfold run_effects.
  induction evs as [|ev evs IH]; intros s Hs; cbn [fold_left].
  - unfold render. rewrite Hs. eauto.
  - apply IH. destruct ev; cbn [run_effect].
    + now apply load_keeps_error.
    + destruct (status_effect_keeps w s) as (_ & _ & _ & He & _).
      rewrite He. exact Hs.
Qed.

(** X5. The stamp on the page is the stamp of the document on the page:
    after any runs of the effects on a freshly opened page, there is a
    stamp exactly when there is a document, and it is that document's. *)
Theorem stamp_is_of_document :
  forall (w : env CVData) (evs : list effect) (path : jsstring)
         (e : option jsstring),
    let s := run_effects JSON_stringify w evs (initial_state path e) in
    versionHash s = option_map (computeVersionHash JSON_stringify) (cvData s).
Proof.
  intros w evs path e. cbv zeta.
  assert (Hinv : forall s : state CVData,
    versionHash s = option_map (computeVersionHash JSON_stringify) (cvData s) ->
    versionHash (run_effects JSON_stringify w evs s)
    = option_map (computeVersionHash JSON_stringify)
        (cvData (run_effects JSON_stringify w evs s))).
  { unfold run_effects. induction evs as [|ev evs IH]; intros s Hs; cbn [fold_left];
      [exact Hs|].
    apply IH. destruct ev; cbn [run_effect].
    - destruct (load_outcome w s) as [(_ & Hc & Hv)|(_ & d & Hc & Hv)];
        rewrite Hc, Hv; [exact Hs|reflexivity].
    - destruct (status_effect_keeps w s) as (_ & Hv & Hc & _).
      rewrite Hv, Hc. exact Hs. }
  apply Hinv. reflexivity.
Qed.

(** What a run of [load] does to the edition and to the requests. *)
Lemma load_trace (w : env CVData) (s : state CVData) :
  let s1 := snd (load JSON_stringify w s) in
  (edition s1 = edition s \/ truthy (edition s) = true /\ edition s1 = None) /\
  (requests s1
   = requests s ++ [if truthy (edition s) then edition_file (edition s)
                    else default_file] \/
   truthy (edition s) = true /\
   requests s1 = requests s ++ [edition_file (edition s); default_file]).
Proof.
  destruct s as [e vh vs cv er lp rq]. cbv zeta. run_load. project.
  destruct (truthy e) eqn:He;
    repeat (project; cbn [fst snd]; load_cases);
    rewrite <- ?app_assoc; cbn [app];
    (split; [solve [left; reflexivity|right; split; reflexivity]
            |solve [left; reflexivity|right; split; reflexivity]]).
Qed.

Lemma load_effect_settled fuel (w : env CVData) (s : state CVData) :
  truthy (edition s) = false ->
  snd (load_effect JSON_stringify (S fuel) w s) = snd (load JSON_stringify w s).
Proof.
  intros He. apply load_effect_stable.
  destruct (load_trace w s) as [[H|[H _]] _]; [exact H|congruence].
Qed.

(** X6. The data effect settles after at most two runs of [load] and
    three requests: with more fuel it does what two runs do, and all it
    ever asks for is the file of the edition and the default file. *)
Theorem data_effect_settles :
  forall (fuel : nat) (w : env CVData) (s : state CVData),
    let s2 := snd (load_effect JSON_stringify (S (S fuel)) w s) in
    s2 = snd (load_effect JSON_stringify 2 w s) /\
    exists extra,
      requests s2 = requests s ++ extra /\
      (1 <= length extra <= 3)%nat /\
      Forall (fun u => u = edition_file (edition s) \/ u = default_file) extra.
Proof.
  intros fuel w s. cbv zeta.
  rewrite (load_effect_step JSON_stringify (S fuel)), (load_effect_step JSON_stringify 1).
  destruct (load_trace w s) as [He Hr].
  assert (Hone : exists extra,
    requests (snd (load JSON_stringify w s)) = requests s ++ extra /\
    (1 <= length extra <= 2)%nat /\
    Forall (fun u => u = edition_file (edition s) \/ u = default_file) extra).
  { destruct Hr as [Hr|[Ht Hr]]; rewrite Hr; eexists; (split; [reflexivity|]).
    - split; [cbn; lia|]. constructor; [|constructor].
      destruct (truthy (edition s)); auto.
    - split; [cbn; lia|].
      constructor; [left; reflexivity|constructor; [right; reflexivity|constructor]]. }
  assert (Hweak : exists extra,
    requests (snd (load JSON_stringify w s)) = requests s ++ extra /\
    (1 <= length extra <= 3)%nat /\
    Forall (fun u => u = edition_file (edition s) \/ u = default_file) extra).
  { destruct Hone as (x & H1 & H2 & H3). exists x. repeat split; try assumption; lia. }
  set (s1 := snd (load JSON_stringify w s)) in *.
  assert (Hfall : edition s1 = None ->
    snd (load_effect JSON_stringify (S fuel) w s1)
    = snd (load_effect JSON_stringify 1 w s1) /\
    exists extra,
      requests (snd (load_effect JSON_stringify (S fuel) w s1))
      = requests s ++ extra /\
      (1 <= length extra <= 3)%nat /\
      Forall (fun u => u = edition_file (edition s) \/ u = default_file) extra).
  { intros E. rewrite !load_effect_settled by (rewrite E; reflexivity).
    split; [reflexivity|].
    destruct Hone as (x & H1 & H2 & H3).
    destruct (load_trace w s1) as [_ [Hr1|[Ht _]]];
      [|rewrite E in Ht; discriminate].
    rewrite E in Hr1. cbn [truthy] in Hr1. rewrite Hr1, H1, <- app_assoc.
    eexists. split; [reflexivity|]. rewrite length_app. split; [cbn; lia|].
    apply Forall_app. split; [assumption|].
    constructor; [right; reflexivity|constructor]. }
  destruct (edition s) as [a|] eqn:Ea, (edition s1) as [b|] eqn:Eb.
  - destruct He as [He|[_ He]]; [|discriminate]. injection He as ->.
    rewrite strict_eq_refl. split; [reflexivity|exact Hweak].
  - apply Hfall. reflexivity.
  - destruct He as [He|[_ He]]; discriminate.
  - split; [reflexivity|exact Hweak].
Qed.

(** The path of the fallback, read by the resolver. *)
Lemma fallback_path_resolves (p : option jsstring) :
  match p with Some tok => is_token tok | None => True end ->
  initialEdition (fallback_path p) = Normal None /\
  providedVersionFromUrl (fallback_path p) = p.
Proof.
  destruct p as [tok|]; intros Hp; cbn [fallback_path].
  - destruct (resolver_root_version tok Hp) as [H1 H2].
    unfold initialEdition, providedVersionFromUrl, rootVersionMatch.
    rewrite H1, H2. split; reflexivity.
  - split; reflexivity.
Qed.

(** X7. The address the fallback writes agrees with the state it leaves:
    read by the resolver, it gives no edition, as the state has none, and
    the version the page was opened with. *)
Theorem fallback_address_agrees :
  forall (w : env CVData) (s : state CVData) st1 b1 st2 d,
    truthy (edition s) = true ->
    answer w (length (requests s)) (edition_file (edition s))
    = Responds false st1 b1 ->
    answer w (S (length (requests s))) default_file
    = Responds true st2 (Some d) ->
    history_throws w = false ->
    let s1 := snd (load JSON_stringify w s) in
    initialEdition (location_path s1) = Normal (edition s1) /\
    providedVersionFromUrl (location_path s1)
    = providedVersionFromUrl (location_path s).
Proof.
  intros w s st1 b1 st2 d He H1 H2 Hh. cbv zeta.
  rewrite (load_falls_back JSON_stringify w s st1 b1 st2 d He H1 H2), Hh.
  cbn [location_path edition].
  apply fallback_path_resolves.
  destruct (providedVersionFromUrl (location_path s)) as [tok|] eqn:Hp; [|exact I].
  exact (provided_is_token _ _ Hp).
Qed.

(** X8. A version in the address that is not six characters long, or
    holds a character that is not a digit or an upper-case letter, never
    matches: the status effect settles on [mismatch], whatever the
    document is. *)
Theorem malformed_version_mismatches :
  forall (w : env CVData) (s : state CVData) (p : jsstring) (d : CVData),
    versionStatus s = unknown ->
    providedVersionFromUrl (location_path s) = Some p ->
    versionHash s = Some (computeVersionHash JSON_stringify d) ->
    length p <> 6%nat \/ ~ Forall base36_upper p ->
    versionStatus (run_effect JSON_stringify w s StatusEffect) = mismatch.
Proof.
  intros w s p d Hs Hp Hh Hbad. cbn [run_effect].
  rewrite (status_effect_compares w s p _ Hs Hp Hh).
  - destruct (strict_eq p (computeVersionHash JSON_stringify d)) eqn:E;
      [|reflexivity].
    apply strict_eq_true in E. subst p. exfalso.
    destruct Hbad as [Hl|Ha].
    + apply Hl, computeVersionHash_length.
    + apply Ha. unfold computeVersionHash.
      rewrite stamp_of_hash_digits by apply hash32_range.
      apply fixed_digits_alphabet.
  - intros H. apply (f_equal (@length Z)) in H.
    rewrite computeVersionHash_length in H. discriminate.
Qed.

End Visits.

(** ** The version segment *)

(** A [{lo,hi}] loop over a class fails on a run shorter than [lo]. *)
Lemma rep_short p k hi : forall lo st run t,
  rest st = run ++ t -> Forall (fun c => p c = true) run -> run_ends p t ->
  (length run < lo <= hi)%nat ->
  rep (rmatch (Class p)) k lo hi st = None.
Proof.
  induction hi as [|hi IH]; intros lo st run t Hr Hrun Hend Hlen; [lia|].
  cbn [rep]. destruct run as [|x run].
  - simpl in Hr. subst t. rewrite rmatch_class_end by assumption.
    destruct lo; [simpl in Hlen; lia|reflexivity].
  - inversion Hrun as [|? ? Hx Hrun']; subst.
    rewrite (rmatch_class_cons p _ st x (run ++ t) Hr Hx).
    rewrite (IH (pred lo) (advance st (run ++ t)) run t);
      try reflexivity; try assumption; [|simpl in Hlen; lia].
    destruct lo; [lia|reflexivity].
Qed.

Lemma rmatch_opt_none a k st : rmatch a k st = None -> rmatch (Opt a) k st = k st.
Proof. intros H. simpl. rewrite H. reflexivity. Qed.

(** The first ten characters of a run of at least four letters and digits
    are a token, and the matcher stops there. *)
Lemma firstn_token run :
  Forall (fun c => alnum c = true) run -> (4 <= length run)%nat ->
  is_token (firstn 10 run) /\
  (length (firstn 10 run) = 10%nat \/ run_ends alnum (skipn 10 run)).
Proof.
  intros Hrun Hlen. split; [split|].
  - rewrite length_firstn. lia.
  - rewrite <- (firstn_skipn 10 run) in Hrun.
    apply Forall_app in Hrun. apply Hrun.
  - rewrite length_firstn.
    destruct (Nat.le_gt_cases 10 (length run)) as [H|H]; [left; lia|right].
    rewrite skipn_all2 by lia. exact I.
Qed.

(** No version pattern occurs in a path made of a version segment that is
    too short. *)
Lemma short_version_no_pattern run :
  Forall (fun c => alnum c = true) run -> (length run < 4)%nat ->
  ~ version_pattern (js "/v/" ++ run).
Proof.
  intros Hrun Hlen (pre & tok & t & Heq & [[Hlo _] _] & _).
  change (js "/v/") with [47; 118; 47] in Heq.
  change (js "v/") with [118; 47] in Heq.
  destruct pre as [|x0 [|x1 [|x2 pre]]]; cbn [app] in Heq; try discriminate.
  - injection Heq as _ Heq. apply (f_equal (@length Z)) in Heq.
    rewrite length_app in Heq. lia.
  - injection Heq as _ _ _ Heq. rewrite Heq in Hrun.
    apply Forall_app in Hrun. destruct Hrun as [_ Hrun].
    inversion Hrun as [|? ? _ Hrun']. inversion Hrun' as [|? ? Hs _].
    vm_compute in Hs. discriminate.
Qed.

Lemma root_version_cut run :
  Forall (fun c => alnum c = true) run ->
  providedVersionFromUrl (js "/v/" ++ run)
  = if (4 <=? length run)%nat then Some (firstn 10 run) else None.
Proof.
  intros Hrun. unfold providedVersionFromUrl, rootVersionMatch.
  assert (He : editionMatch (js "/v/" ++ run) = None)
    by (apply editionMatch_none, version_path_no_edition, Hrun).
  rewrite He. destruct (Nat.leb_spec 4 (length run)) as [Hlen|Hlen].
  - destruct (firstn_token run Hrun Hlen) as [Htok Hend].
    rewrite <- (firstn_skipn 10 run) at 1.
    rewrite (version_re_greedy _ _ Htok Hend). reflexivity.
  - assert (Hn : exec version_re (js "/v/" ++ run) = None)
      by (apply version_re_none, short_version_no_pattern; assumption).
    rewrite Hn. reflexivity.
Qed.

Lemma edition_version_cut name run :
  name <> [] -> Forall (fun c => not_slash c = true) name ->
  Forall (fun c => alnum c = true) run ->
  providedVersionFromUrl (js "/e/" ++ name ++ js "/v/" ++ run)
  = if (4 <=? length run)%nat then Some (firstn 10 run) else None.
Proof.
  intros Hne Hname Hrun. unfold providedVersionFromUrl.
  destruct (Nat.leb_spec 4 (length run)) as [Hlen|Hlen].
  - destruct (firstn_token run Hrun Hlen) as [Htok Hend].
    rewrite (edition_name_greedy name (js "/v/" ++ run)
               (MState (3 + length name + 3 + length (firstn 10 run)) (skipn 10 run)
                  [(2%nat, firstn 10 run); (1%nat, name)]) Hne Hname eq_refl).
    + unfold group. cbn [caps lookup_cap Nat.eqb]. unfold or_null.
      rewrite (token_truthy _ Htok). reflexivity.
    + rewrite <- (firstn_skipn 10 run) at 1.
      rewrite (version_tail_greedy _ (firstn 10 run) (skipn 10 run));
        try assumption; reflexivity.
  - rewrite (edition_name_greedy name (js "/v/" ++ run)
               (MState (S (3 + length name)) (js "v/" ++ run) [(1%nat, name)])
               Hne Hname eq_refl).
    + reflexivity.
    + apply rmatch_opt_some.
      rewrite rmatch_seq, (rmatch_chr_cons _ _ _ (js "v/" ++ run)) by reflexivity.
      rewrite rmatch_opt_none; [reflexivity|].
      rewrite rmatch_seq, (rmatch_chr_cons _ _ _ (js "/" ++ run)) by reflexivity.
      rewrite rmatch_seq, (rmatch_chr_cons _ _ _ run) by reflexivity.
      rewrite rmatch_group. unfold version_token. rewrite rmatch_rep.
      apply (rep_short alnum _ 10 4 _ run []);
        [cbn [advance rest]; now rewrite app_nil_r|assumption|exact I|lia].
Qed.

(** X9. A version segment made of letters and digits alone, at the root
    or after an edition, is read in full when it has four to ten
    characters, is cut to its first ten when it has more, and is not read
    at all when it has fewer than four. *)
Theorem version_segment_is_cut :
  forall (run : jsstring),
    Forall (fun c => alnum c = true) run ->
    providedVersionFromUrl (js "/v/" ++ run)
    = (if (4 <=? length run)%nat then Some (firstn 10 run) else None) /\
    forall name,
      name <> [] -> Forall (fun c => not_slash c = true) name ->
      providedVersionFromUrl (js "/e/" ++ name ++ js "/v/" ++ run)
      = (if (4 <=? length run)%nat then Some (firstn 10 run) else None).
Proof.
  intros run Hrun. split; [now apply root_version_cut|].
  intros name Hne Hname. now apply edition_version_cut.
Qed.

Lemma version_segment_is_cut_witness :
  providedVersionFromUrl (js "/v/ABCDEFGHIJKLMNOP") = Some (js "ABCDEFGHIJ") /\
  providedVersionFromUrl (js "/e/acme/v/abc") = None.
Proof.
  split.
  - apply (version_segment_is_cut (js "ABCDEFGHIJKLMNOP")). repeat constructor.
  - destruct (version_segment_is_cut (js "abc")) as [_ H]; [repeat constructor|].
    apply (H (js "acme")); [discriminate|repeat constructor].
Defined.

(** ** Malformed escapes *)

(** An escape read before a malformed one ends before it. *)
Lemma percent_octet_before a b x t1 :
  percent_octet (cu "%" :: b) = None ->
  percent_octet (a ++ cu "%" :: b) = Some (x, t1) ->
  exists a', t1 = a' ++ cu "%" :: b /\ (length a' < length a)%nat.
Proof.
  intros Hb H. destruct a as [|p [|h [|l a']]]; cbn [app] in H.
  - rewrite Hb in H. discriminate.
  - destruct b as [|l b']; cbn [percent_octet] in H; [discriminate|].
    destruct (p =? cu "%"); [|discriminate].
    change (hex_val (cu "%")) with (@None Z) in H. discriminate.
  - cbn [percent_octet] in H. destruct (p =? cu "%"); [|discriminate].
    change (hex_val (cu "%")) with (@None Z) in H.
    destruct (hex_val h); discriminate.
  - cbn [percent_octet] in H. destruct (p =? cu "%"); [|discriminate].
    destruct (hex_val h), (hex_val l); try discriminate.
    injection H as _ <-. exists a'. split; [reflexivity|cbn [length]; lia].
Qed.

Lemma more_octets_before b n : forall a bs t2,
  percent_octet (cu "%" :: b) = None ->
  more_octets n (a ++ cu "%" :: b) = Some (bs, t2) ->
  exists a', t2 = a' ++ cu "%" :: b /\ (length a' <= length a)%nat.
Proof.
  induction n as [|n IH]; intros a bs t2 Hb H; cbn [more_octets] in H.
  - injection H as _ <-. exists a. split; [reflexivity|lia].
  - destruct (percent_octet (a ++ cu "%" :: b)) as [[x t1]|] eqn:Hp; [|discriminate].
    destruct (percent_octet_before a b x t1 Hb Hp) as (a1 & -> & Hl).
    destruct (more_octets n (a1 ++ cu "%" :: b)) as [[bs' t']|] eqn:Hm; [|discriminate].
    injection H as _ <-.
    destruct (IH a1 bs' t' Hb Hm) as (a' & -> & Hl').
    exists a'. split; [reflexivity|lia].
Qed.

(** Decoding never gets past a malformed escape. *)
Lemma decode_loop_malformed b n : forall a fuel,
  percent_octet (cu "%" :: b) = None ->
  (length a <= n)%nat -> (length a < fuel)%nat ->
  decode_loop fuel (a ++ cu "%" :: b) = Throw URIError.
Proof.
  induction n as [|n IH]; intros a fuel Hb Hn Hf.
  - destruct a; [|cbn in Hn; lia]. destruct fuel as [|fuel]; [lia|].
    cbn [app decode_loop]. rewrite Z.eqb_refl, Hb. reflexivity.
  - destruct fuel as [|fuel]; [lia|]. destruct a as [|c a].
    + cbn [app decode_loop]. rewrite Z.eqb_refl, Hb. reflexivity.
    + cbn [length] in Hn, Hf.
      change ((c :: a) ++ cu "%" :: b) with (c :: a ++ cu "%" :: b).
      cbn [decode_loop].
      change (c :: a ++ cu "%" :: b) with ((c :: a) ++ cu "%" :: b).
      destruct (c =? cu "%").
      * destruct (percent_octet ((c :: a) ++ cu "%" :: b)) as [[x t1]|] eqn:Hp;
          [|reflexivity].
        destruct (percent_octet_before _ b x t1 Hb Hp) as (a1 & -> & Hl).
        cbn [length] in Hl.
        destruct (leading_ones x) as [|[|[|[|[|k]]]]]; try reflexivity.
        -- rewrite (IH a1 fuel Hb) by lia. reflexivity.
        -- destruct (more_octets 1 (a1 ++ cu "%" :: b)) as [[bs t2]|] eqn:Hm;
             [|reflexivity].
           destruct (more_octets_before b 1 a1 bs t2 Hb Hm) as (a2 & -> & Hl2).
           destruct (utf8_code_point x bs); [|reflexivity].
           rewrite (IH a2 fuel Hb) by lia. reflexivity.
        -- destruct (more_octets 2 (a1 ++ cu "%" :: b)) as [[bs t2]|] eqn:Hm;
             [|reflexivity].
           destruct (more_octets_before b 2 a1 bs t2 Hb Hm) as (a2 & -> & Hl2).
           destruct (utf8_code_point x bs); [|reflexivity].
           rewrite (IH a2 fuel Hb) by lia. reflexivity.
        -- destruct (more_octets 3 (a1 ++ cu "%" :: b)) as [[bs t2]|] eqn:Hm;
             [|reflexivity].
           destruct (more_octets_before b 3 a1 bs t2 Hb Hm) as (a2 & -> & Hl2).
           destruct (utf8_code_point x bs); [|reflexivity].
           rewrite (IH a2 fuel Hb) by lia. reflexivity.
      * rewrite (IH a fuel Hb) by lia. reflexivity.
Qed.

(** X10. A percent sign in the edition segment that is not followed by two
    hexadecimal digits makes the resolver throw: [decodeURIComponent] is
    called outside any [try], so the component fails with a URIError. *)
Theorem malformed_escape_throws :
  forall (a b : jsstring),
    Forall (fun c => not_slash c = true) a ->
    Forall (fun c => not_slash c = true) b ->
    percent_octet (cu "%" :: b) = None ->
    initialEdition (js "/e/" ++ a ++ cu "%" :: b) = Throw URIError.
Proof.
  intros a b Ha Hb Hbad. unfold initialEdition.
  rewrite (resolver_bare_edition (a ++ cu "%" :: b)).
  - unfold group. cbn [caps lookup_cap Nat.eqb capture_text].
    unfold decodeURIComponent.
    rewrite (decode_loop_malformed b (length a) a) by
      (first [assumption|rewrite ?length_app; cbn [length]; lia]).
    reflexivity.
  - destruct a; discriminate.
  - apply Forall_app. split; [assumption|]. constructor; [reflexivity|assumption].
Qed.

Lemma malformed_escape_throws_witness :
  initialEdition (js "/e/50%") = Throw URIError /\
  initialEdition (js "/e/caf%C3%A9%2") = Throw URIError.
Proof.
  split.
  - apply (malformed_escape_throws (js "50") []); repeat constructor.
  - apply (malformed_escape_throws (js "caf%C3%A9") (js "2")); repeat constructor.
Defined.

(** ** What the hash tells apart *)

Lemma hash_step_mod h c :
  hash_step h c mod 2 ^ 32 = Z.lxor ((33 * h) mod 2 ^ 32) (c mod 2 ^ 32).
Proof.
  unfold hash_step, JS.bxor.
  rewrite lxor_mod_pow2, !toInt32_mod by discriminate. f_equal.
  rewrite Z.add_mod, shl5_mod, <- Z.add_mod by discriminate.
  f_equal. lia.
Qed.

Lemma lxor_cancel_l x a b : Z.lxor x a = Z.lxor x b -> a = b.
Proof.
  intros H. apply (f_equal (Z.lxor x)) in H.
  now rewrite <- !Z.lxor_assoc, Z.lxor_nilpotent, !Z.lxor_0_l in H.
Qed.

Lemma lxor_cancel_r x a b : Z.lxor a x = Z.lxor b x -> a = b.
Proof. rewrite !(Z.lxor_comm _ x). apply lxor_cancel_l. Qed.

(** Multiplication by 33 is one-to-one modulo [2 ^ 32]. *)
Lemma times_33_injective a b :
  (33 * a) mod 2 ^ 32 = (33 * b) mod 2 ^ 32 -> a mod 2 ^ 32 = b mod 2 ^ 32.
Proof.
  intros H.
  assert (E : forall x, x mod 2 ^ 32 = (1041204193 * ((33 * x) mod 2 ^ 32)) mod 2 ^ 32).
  { intros x. rewrite Z.mul_mod_idemp_r by discriminate.
    replace (1041204193 * (33 * x)) with (x + 8 * x * 2 ^ 32) by lia.
    now rewrite Z_mod_plus_full. }
  rewrite (E a), (E b), H. reflexivity.
Qed.

(** One step keeps two different accumulators different. *)
Lemma hash_step_injective h h' c :
  h mod 2 ^ 32 <> h' mod 2 ^ 32 ->
  hash_step h c mod 2 ^ 32 <> hash_step h' c mod 2 ^ 32.
Proof.
  intros Hne H. rewrite !hash_step_mod in H.
  apply lxor_cancel_r, times_33_injective in H. contradiction.
Qed.

(** One step tells two different code units apart. *)
Lemma hash_step_unit h c c' :
  0 <= c < 65536 -> 0 <= c' < 65536 -> c <> c' ->
  hash_step h c mod 2 ^ 32 <> hash_step h c' mod 2 ^ 32.
Proof.
  intros Hc Hc' Hne H. rewrite !hash_step_mod in H.
  apply lxor_cancel_l in H.
  rewrite !Z.mod_small in H by (change (2 ^ 32) with 4294967296; lia).
  contradiction.
Qed.

Lemma fold_hash_step_differs b : forall h h',
  h mod 2 ^ 32 <> h' mod 2 ^ 32 ->
  fold_left hash_step b h mod 2 ^ 32 <> fold_left hash_step b h' mod 2 ^ 32.
Proof.
  induction b as [|c b IH]; intros h h' Hne; [exact Hne|].
  cbn [fold_left]. apply IH, hash_step_injective, Hne.
Qed.

Lemma hash32_mod json : hash32 json = hash_loop json mod 2 ^ 32.
Proof.
  unfold hash32, JS.ushr, JS.toUint32. change (0 mod 2 ^ 32 mod 32) with 0.
  now rewrite Z.shiftr_0_r.
Qed.

(** X11. The 32-bit hash tells apart any two texts that differ in exactly
    one code unit: changing one character of the JSON text always changes
    the hash the stamp is made from. *)
Theorem hash32_one_unit_apart :
  forall (a b : jsstring) (c c' : Z),
    0 <= c < 65536 -> 0 <= c' < 65536 -> c <> c' ->
    hash32 (a ++ c :: b) <> hash32 (a ++ c' :: b).
Proof.
  intros a b c c' Hc Hc' Hne. rewrite !hash32_mod. unfold hash_loop.
  rewrite !fold_left_app. cbn [fold_left].
  apply fold_hash_step_differs, hash_step_unit; assumption.
Qed.

Lemma hash32_one_unit_apart_witness :
  hash32 (js "[2235804]") <> hash32 (js "[2235805]").
Proof.
  apply (hash32_one_unit_apart (js "[223580") (js "]") (cu "4") (cu "5"));
    [split; [discriminate|reflexivity] ..|discriminate].
Defined.

(** ** What the stamp tells apart *)

Lemma upper_digit36_injective d d' :
  0 <= d < 36 -> 0 <= d' < 36 ->
  JS.upper_unit (JS.digit36 d) = JS.upper_unit (JS.digit36 d') -> d = d'.
Proof.
  intros Hd Hd'. unfold JS.upper_unit, JS.digit36.
  change (cu "0") with 48. change (cu "a") with 97. change (cu "z") with 122.
  repeat match goal with
         | |- context [?x <? ?y] => destruct (Z.ltb_spec x y)
         | |- context [?x <=? ?y] => destruct (Z.leb_spec x y)
         end; cbn [andb]; lia.
Qed.

Lemma fixed_digits_injective k : forall a b,
  fixed_digits k a = fixed_digits k b ->
  a mod 36 ^ Z.of_nat k = b mod 36 ^ Z.of_nat k.
Proof.
  induction k as [|k IH]; intros a b H.
  - change (36 ^ Z.of_nat 0) with 1. now rewrite !Z.mod_1_r.
  - cbn [fixed_digits] in H. apply app_inj_tail in H. destruct H as [Hhigh Hlow].
    apply IH in Hhigh.
    apply upper_digit36_injective in Hlow;
      try (apply Z.mod_pos_bound; reflexivity).
    rewrite Nat2Z.inj_succ, Z.pow_succ_r by lia.
    assert (Hp : 0 < 36 ^ Z.of_nat k) by (apply Z.pow_pos_nonneg; lia).
    rewrite !Z.rem_mul_r by lia. rewrite Hhigh, Hlow. reflexivity.
Qed.

(** X12. The stamp loses nothing but the multiples of [36 ^ 6]: two
    documents with the same stamp have hashes that are congruent modulo
    [36 ^ 6], so that among the [2 ^ 32] hashes at most two share a
    stamp. *)
Theorem same_stamp_same_residue :
  forall (CVData : Type) (JSON_stringify : CVData -> jsstring) (d1 d2 : CVData),
    computeVersionHash JSON_stringify d1 = computeVersionHash JSON_stringify d2 ->
    hash32 (JSON_stringify d1) mod 36 ^ 6 = hash32 (JSON_stringify d2) mod 36 ^ 6 /\
    (hash32 (JSON_stringify d1) = hash32 (JSON_stringify d2) \/
     hash32 (JSON_stringify d1) = hash32 (JSON_stringify d2) + 36 ^ 6 \/
     hash32 (JSON_stringify d2) = hash32 (JSON_stringify d1) + 36 ^ 6).
Proof.
  intros CVData JSON_stringify d1 d2 H. unfold computeVersionHash in H.
  rewrite !stamp_of_hash_digits in H by apply hash32_range.
  apply fixed_digits_injective in H. change (Z.of_nat 6) with 6 in H.
  split; [exact H|].
  pose proof (hash32_range (JSON_stringify d1)) as R1.
  pose proof (hash32_range (JSON_stringify d2)) as R2.
  revert H R1 R2.
  generalize (hash32 (JSON_stringify d1)), (hash32 (JSON_stringify d2)).
  intros x y H R1 R2.
  change (2 ^ 32) with 4294967296 in *. change (36 ^ 6) with 2176782336 in *.
  Z.to_euclidean_division_equations. lia.
Qed.

Lemma same_stamp_same_residue_witness :
  hash32 (js "[2235804]") = hash32 (js "[1770308]") + 36 ^ 6 \/
  hash32 (js "[1770308]") = hash32 (js "[2235804]") + 36 ^ 6.
Proof.
  destruct (same_stamp_same_residue jsstring (fun s => s)
              (js "[2235804]") (js "[1770308]")) as [_ [H|H]].
  - vm_compute. reflexivity.
  - vm_compute in H. discriminate.
  - exact H.
Defined.

(** ** The export, step by step *)

Lemma handleDownloadPdf_halves e p :
  handleDownloadPdf e p
  = match getElementById (dom p) (js "cv-content") with
    | None => (Normal tt, p)
    | Some cvElement =>
        let (d2, clone) := export_setup (dom p) cvElement in
        export_finally e p d2 clone
    end.
Proof.
  unfold handleDownloadPdf, export_setup, export_finally.
  destruct (getElementById (dom p) (js "cv-content")) as [cv|]; [|reflexivity].
  destruct (cloneNode (next_ref (dom p)) cv) as [copy r1]. reflexivity.
Qed.

(** What the [try] block finds: the style element last in [head], and the
    clone, without its icons, last in [body]. *)
Lemma export_setup_attached d cv :
  refs_below (next_ref d) (children (doc_body d)) ->
  exists clone r1,
    export_setup d cv
    = (Document (appendChild (doc_head d) (Node (r1 + 4) (js "temp-pdf-styles") [] []))
         (appendChild (doc_body d) clone) (r1 + 5),
       next_ref d) /\
    ref clone = next_ref d /\ (next_ref d < r1)%nat /\
    clone = remove_all (has_class (js "cv-icon"))
              (appendChild
                 (remove_all interactive
                    (set_id (js "cv-pdf-clone") (fst (cloneNode (next_ref d) cv))))
                 (print_footer r1)).
Proof.
  intros Hb. unfold export_setup.
  pose proof (cloneNode_ref (next_ref d) cv) as Hr.
  pose proof (cloneNode_next cv (next_ref d)) as Hn.
  destruct (cloneNode (next_ref d) cv) as [copy r1]. cbn [fst snd] in *.
  set (clone := appendChild (remove_all interactive (set_id (js "cv-pdf-clone") copy))
                  (print_footer r1)).
  assert (Hrc : ref clone = next_ref d).
  { unfold clone. now rewrite ref_appendChild, ref_remove_all, ref_set_id. }
  exists (remove_all (has_class (js "cv-icon")) clone), r1.
  rewrite update_child_appended by (rewrite Hrc; assumption).
  rewrite ref_remove_all, Hrc. repeat split; try reflexivity. exact Hn.
Qed.

(** An export of a clean page returns normally and leaves a clean page,
    with [head] and [body] as they were. *)
Lemma export_keeps_clean e p :
  clean p ->
  exists p',
    handleDownloadPdf e p = (Normal tt, p') /\ clean p' /\
    doc_head (dom p') = doc_head (dom p) /\
    doc_body (dom p') = doc_body (dom p) /\
    saved p' = match getElementById (dom p) (js "cv-content") with
               | Some _ => is_saves e || saved p
               | None => saved p
               end /\
    alerted p' = match getElementById (dom p) (js "cv-content") with
                 | Some _ => negb (is_saves e) || alerted p
                 | None => alerted p
                 end.
Proof.
  intros Hclean. rewrite handleDownloadPdf_halves.
  destruct (getElementById (dom p) (js "cv-content")) as [cv|].
  2:{ exists p. repeat split; try reflexivity; apply Hclean. }
  destruct p as [d dl al sv]. destruct Hclean as (Hdl & Hh & Hb & Hstyle & Hclone).
  cbn [dom isDownloading alerted saved] in *.
  destruct (export_setup_attached d cv Hb) as (clone & r1 & -> & Hrc & Hr1 & _).
  unfold export_finally. cbn [alerted saved next_ref doc_head doc_body].
  assert (Hhead : find_id (js "temp-pdf-styles") (doc_head d) = None).
  { unfold getElementById in Hstyle.
    destruct (find_id (js "temp-pdf-styles") (doc_head d)); [discriminate|reflexivity]. }
  unfold getElementById at 1. cbn [doc_head doc_body].
  set (style := Node (r1 + 4) (js "temp-pdf-styles") [] []).
  rewrite (find_id_appendChild _ _ style Hhead).
  change (find_id (js "temp-pdf-styles") style) with (Some style). cbv iota.
  rewrite (removeChild_appended (doc_head d) style)
    by (apply refs_below_le with (next_ref d); [cbn [ref style]; lia|assumption]).
  rewrite <- Hrc, is_child_appended.
  rewrite removeChild_appended by (rewrite Hrc; assumption).
  eexists. split; [reflexivity|].
  unfold clean. cbn [dom isDownloading alerted saved doc_head doc_body next_ref].
  split; [|destruct e; repeat split; reflexivity].
  split; [reflexivity|].
  split; [apply refs_below_le with (next_ref d); [lia|assumption]|].
  split; [apply refs_below_le with (next_ref d); [lia|assumption]|].
  unfold getElementById in *. cbn [doc_head doc_body]. split; assumption.
Qed.

(** X13. Exports can follow one another: after any number of exports of
    a clean page, saved or failed, the page is clean again, with [head]
    and [body] as they were at the start; and, when the page holds the
    CV, a file was saved if one of the exports saved one, and the alert
    was shown if one of them failed. *)
Theorem exports_keep_clean :
  forall (es : list try_end) (p : page),
    clean p ->
    clean (exports es p) /\
    doc_head (dom (exports es p)) = doc_head (dom p) /\
    doc_body (dom (exports es p)) = doc_body (dom p) /\
    (getElementById (dom p) (js "cv-content") <> None ->
     saved (exports es p) = existsb is_saves es || saved p /\
     alerted (exports es p) = existsb (fun e => negb (is_saves e)) es || alerted p).
Proof.
  unfold exports. induction es as [|e es IH]; intros p Hp; cbn [fold_left existsb].
  - split; [exact Hp|]. split; [reflexivity|]. split; [reflexivity|].
    intros _. split; reflexivity.
  - destruct (export_keeps_clean e p Hp) as (p' & Hrun & Hp' & Hh & Hb & Hs & Ha).
    rewrite Hrun. cbn [snd].
    destruct (IH p' Hp') as (Hc & Hh' & Hb' & Hflags).
    split; [exact Hc|]. split; [congruence|]. split; [congruence|].
    intros Hcv.
    assert (Hcv' : getElementById (dom p') (js "cv-content") <> None).
    { unfold getElementById in *. rewrite Hh, Hb. exact Hcv. }
    destruct (Hflags Hcv') as [Hs' Ha']. rewrite Hs', Ha', Hs, Ha.
    destruct (getElementById (dom p) (js "cv-content")); [|contradiction Hcv; reflexivity].
    rewrite !orb_assoc, (orb_comm (existsb _ es) (is_saves e)),
      (orb_comm (existsb _ es) (negb (is_saves e))).
    split; reflexivity.
Qed.

(** ** What is rasterized *)

Lemma any_descendant_remove_all sel n :
  any_descendant sel (remove_all sel n) = false.
Proof.
  induction n as [r i c ch IH] using node_children_ind.
  cbn [remove_all any_descendant].
  induction IH as [|x t Hx _ IHt]; [reflexivity|].
  cbn [map filter]. destruct (sel (remove_all sel x)) eqn:Hs; cbn [negb]; [exact IHt|].
  cbn [existsb]. rewrite Hs, Hx. exact IHt.
Qed.

Lemma any_descendant_remove_other sel sel' n :
  (forall x, sel (remove_all sel' x) = sel x) ->
  any_descendant sel n = false ->
  any_descendant sel (remove_all sel' n) = false.
Proof.
  intros Hsel. induction n as [r i c ch IH] using node_children_ind.
  cbn [remove_all any_descendant].
  induction IH as [|x t Hx _ IHt]; [reflexivity|].
  cbn [existsb map filter]. intros H.
  apply orb_false_iff in H. destruct H as [H Ht].
  apply orb_false_iff in H. destruct H as [Hs Hd].
  destruct (sel' (remove_all sel' x)); cbn [negb]; [exact (IHt Ht)|].
  cbn [existsb]. rewrite Hsel, Hs, (Hx Hd). exact (IHt Ht).
Qed.

Lemma any_descendant_appendChild sel n x :
  any_descendant sel (appendChild n x)
  = any_descendant sel n || (sel x || any_descendant sel x).
Proof.
  destruct n as [r i c ch]. cbn [appendChild any_descendant].
  rewrite existsb_app. cbn [existsb]. now rewrite orb_false_r.
Qed.

Lemma has_class_remove_all c sel x :
  has_class c (remove_all sel x) = has_class c x.
Proof. destruct x. reflexivity. Qed.

Lemma node_id_remove_all sel x : node_id (remove_all sel x) = node_id x.
Proof. destruct x. reflexivity. Qed.

Lemma node_id_appendChild n x : node_id (appendChild n x) = node_id n.
Proof. destruct n. reflexivity. Qed.

Lemma node_id_set_id i n : node_id (set_id i n) = i.
Proof. destruct n. reflexivity. Qed.

Lemma interactive_remove_all sel x :
  interactive (remove_all sel x) = interactive x.
Proof. destruct x. reflexivity. Qed.



Lemma exports_keep_clean_witness :
  clean (exports [Saves; Throws; Saves] sample_page) /\
  doc_body (dom (exports [Saves; Throws; Saves] sample_page))
  = doc_body (dom sample_page).
Proof.
  assert (H : clean sample_page).
  { unfold clean. split; [reflexivity|].
    split; [repeat constructor|]. split; [repeat constructor|].
    split; reflexivity. }
  destruct (exports_keep_clean [Saves; Throws; Saves] sample_page H)
    as (Hc & _ & Hb & _).
  split; assumption.
Defined.

(** ** Visits to the sample worlds *)

Lemma own_share_link_matches_witness :
  versionStatus
    (run_effects (fun d => d) serves_sample [DataEffect; StatusEffect]
       (initial_state
          (js "/e/acme/v/" ++ computeVersionHash (fun d => d) sample_doc)
          (Some (js "acme"))))
  = match_.
Proof.
  destruct (own_share_link_matches (fun d : jsstring => d) serves_sample []
              (Some (js "acme")) sample_doc sample_doc 200
              (js "/e/acme/v/" ++ computeVersionHash (fun d => d) sample_doc))
    as (_ & _ & _ & H & _).
  - split; [discriminate|]. repeat constructor; unfold is_code_unit; cbn; lia.
  - vm_compute. reflexivity.
  - reflexivity.
  - apply H. reflexivity.
Defined.

Lemma load_leaves_loading_witness :
  exists d,
    cvData (snd (load (fun d => d) serves_null (opened_at (js "/")))) = Some d /\
    not_null d = false.
Proof.
  apply (load_leaves_loading (fun d : jsstring => d) not_null serves_null
           (opened_at (js "/"))).
  vm_compute. reflexivity.
Defined.

Lemma error_page_is_final_witness :
  exists message,
    render not_null
      (run_effects (fun d => d) serves_sample [DataEffect; StatusEffect; DataEffect]
         (snd (load (fun d => d) unreachable (opened_at (js "/v/AB12CD")))))
    = ErrorPage message.
Proof.
  apply (error_page_is_final (fun d : jsstring => d) not_null serves_sample).
  vm_compute. reflexivity.
Defined.

Lemma fallback_address_agrees_witness :
  let s1 := snd (load (fun d => d) serves_default_only
                   (opened_at (js "/e/acme/v/AB12CD"))) in
  initialEdition (location_path s1) = Normal (edition s1) /\
  providedVersionFromUrl (location_path s1) = Some (js "AB12CD").
Proof.
  apply (fallback_address_agrees (fun d : jsstring => d) serves_default_only
           (opened_at (js "/e/acme/v/AB12CD")) 404 None 200 sample_doc);
    reflexivity.
Defined.

Lemma malformed_version_mismatches_witness :
  versionStatus
    (run_effect (fun d => d) serves_sample (loaded_at (js "/v/ab12cd")) StatusEffect)
  = mismatch.
Proof.
  apply (malformed_version_mismatches (fun d : jsstring => d) serves_sample
           (loaded_at (js "/v/ab12cd")) (js "ab12cd") sample_doc);
    try reflexivity.
  right. intros H. inversion H as [|c l Hc _].
  unfold base36_upper in Hc. vm_compute in Hc.
  destruct Hc as [[_ Hc]|[_ Hc]]; apply Hc; reflexivity.
Defined.

(** ** The share box *)

Lemma qr_effect_invariant s :
  (qrCodeRef s = Some [] /\ previousQrUrlRef s = None \/
   exists u, qrCodeRef s = Some [u] /\ previousQrUrlRef s = Some u) ->
  box_invariant (qr_effect s).
Proof.
  intros Hc. unfold qr_effect.
  destruct (isShareBoxVisible s) eqn:Hv; cbn [negb].
  2:{ split; [exact Hc|]. rewrite Hv. discriminate. }
  destruct Hc as [[Hq Hp]|(u & Hq & Hp)]; rewrite Hq, Hp.
  - split; cbn [qrCodeRef previousQrUrlRef isShareBoxVisible rendered_url app].
    + right. eauto.
    + reflexivity.
  - destruct (strict_eq u (rendered_url s)) eqn:E.
    + apply strict_eq_true in E. subst u. split; [right; eauto|]. now rewrite Hp.
    + split; cbn [qrCodeRef previousQrUrlRef isShareBoxVisible rendered_url app].
      * right. eauto.
      * reflexivity.
Qed.

Lemma box_handle_keeps ev s :
  qrCodeRef (box_handle ev s) = qrCodeRef s /\
  previousQrUrlRef (box_handle ev s) = previousQrUrlRef s.
Proof.
  destruct ev as [| |n|url]; cbn [box_handle]; try (split; reflexivity).
  unfold handleShareButtonClick. destruct (negb (handleNativeShare n));
    split; reflexivity.
Qed.

Lemma box_step_invariant s ev : box_invariant s -> box_invariant (box_step s ev).
Proof.
  intros [Hc Hv]. unfold box_step.
  destruct (box_handle_keeps ev s) as [Hq Hp].
  destruct (Bool.eqb _ _ && strict_eq _ _) eqn:E.
  - apply andb_true_iff in E. destruct E as [E1 E2].
    apply Bool.eqb_prop in E1. apply strict_eq_true in E2.
    split; rewrite ?Hq, ?Hp, <- ?E1, <- ?E2; assumption.
  - apply qr_effect_invariant. rewrite Hq, Hp. exact Hc.
Qed.

(** X15. While the CV is on the page, whatever the pointer, the share
    button, the native share sheet and the share URL do: the container of
    the share box never holds more than one QR code, and whenever the box
    is visible it holds exactly the code of the current share URL. *)
Theorem share_box_shows_current_url :
  forall (evs : list box_event) (url : jsstring),
    let s := fold_left box_step evs (box_mounted url) in
    (exists codes, qrCodeRef s = Some codes /\ (length codes <= 1)%nat) /\
    (isShareBoxVisible s = true -> qrCodeRef s = Some [rendered_url s]).
Proof.
  intros evs url. cbv zeta.
  assert (Hinv : box_invariant (fold_left box_step evs (box_mounted url))).
  { assert (H0 : box_invariant (box_mounted url)).
    { split; [left; split; reflexivity|discriminate]. }
    revert H0. generalize (box_mounted url).
    induction evs as [|ev evs IH]; intros s Hs; [exact Hs|].
    cbn [fold_left]. apply IH, box_step_invariant, Hs. }
  destruct Hinv as [Hc Hv]. split.
  - destruct Hc as [[Hq _]|(u & Hq & _)]; rewrite Hq; eexists;
      (split; [reflexivity|cbn; lia]).
  - intros H. specialize (Hv H).
    destruct Hc as [[_ Hp]|(u & Hq & Hp)]; [congruence|].
    rewrite Hq. congruence.
Qed.

(** ** The share URL of a page that was resolved *)

Lemma surrogate_not_unreserved c :
  unreserved c = true -> no_surrogate c.
Proof.
  intros H. unfold no_surrogate, is_lead_surrogate, is_trail_surrogate.
  assert (Hc : c < 128).
  { unfold unreserved in H. apply orb_true_iff in H. destruct H as [H|H].
    - unfold alnum, in_range in H.
      change (cu "A") with 65 in H. change (cu "Z") with 90 in H.
      change (cu "a") with 97 in H. change (cu "z") with 122 in H.
      change (cu "0") with 48 in H. change (cu "9") with 57 in H.
      repeat match type of H with
             | _ || _ = true => apply orb_true_iff in H; destruct H as [H|H]
             end;
        apply andb_true_iff in H; destruct H as [_ H]; apply Z.leb_le in H; lia.
    - change (js "-_.!~*'()") with [45; 95; 46; 33; 126; 42; 39; 40; 41] in H.
      cbn [existsb] in H.
      repeat match type of H with
             | _ || _ = true => apply orb_true_iff in H; destruct H as [H|H]
             end;
        try discriminate; apply Z.eqb_eq in H; lia. }
  split; apply andb_false_iff; left; apply Z.leb_gt; lia.
Qed.

(** [encodeURIComponent] accepts every well-formed text. *)
Lemma encode_loop_well_formed s :
  well_formed s -> forall fuel, exists enc, encode_loop fuel s = Normal enc.
Proof.
  induction 1 as [|c s [Hl Ht] _ IH|c d s Hl Ht _ IH]; intros [|fuel];
    try (eexists; reflexivity); cbn [encode_loop].
  - destruct (IH fuel) as [r Hr]. rewrite Hr, Hl, Ht.
    destruct (unreserved c); eexists; reflexivity.
  - destruct (IH fuel) as [r Hr]. rewrite Hr, Hl, Ht.
    destruct (unreserved c) eqn:Hu.
    + apply surrogate_not_unreserved in Hu. destruct Hu as [Hu _]. congruence.
    + assert (Htc : is_trail_surrogate c = false).
      { unfold is_lead_surrogate, is_trail_surrogate in *.
        apply andb_true_iff in Hl. destruct Hl as [_ Hl]. apply Z.leb_le in Hl.
        apply andb_false_iff. left. apply Z.leb_gt. lia. }
      rewrite Htc. eexists. reflexivity.
Qed.

Lemma percent_octet_suffix (P : Z -> Prop) s b t :
  percent_octet s = Some (b, t) -> Forall P s -> Forall P t.
Proof.
  destruct s as [|p [|h [|l s]]]; try discriminate. cbn [percent_octet].
  destruct (p =? cu "%"); [|discriminate].
  destruct (hex_val h), (hex_val l); try discriminate.
  intros [= _ <-] H. inversion H as [|? ? _ Ha]. inversion Ha as [|? ? _ Hb].
  inversion Hb. assumption.
Qed.

Lemma more_octets_suffix (P : Z -> Prop) n : forall s bs t,
  more_octets n s = Some (bs, t) -> Forall P s -> Forall P t /\ length bs = n.
Proof.
  induction n as [|n IH]; intros s bs t H Hs; cbn [more_octets] in H.
  - injection H as <- <-. split; [assumption|reflexivity].
  - destruct (percent_octet s) as [[b t1]|] eqn:Hp; [|discriminate].
    destruct (more_octets n t1) as [[bs' t']|] eqn:Hm; [|discriminate].
    injection H as <- <-.
    destruct (IH t1 bs' t' Hm (percent_octet_suffix P s b t1 Hp Hs)) as [Ht Hl].
    split; [assumption|cbn [length]; now rewrite Hl].
Qed.

Lemma continuation_range b : is_continuation b = true -> 128 <= b <= 191.
Proof.
  unfold is_continuation. intros [H1 H2]%andb_true_iff.
  apply Z.leb_le in H1, H2. lia.
Qed.

(** The UTF-16 form of a decoded code point is well-formed. *)
Lemma utf16_of_code_point b bs v s :
  leading_ones b = S (length bs) -> utf8_code_point b bs = Some v ->
  well_formed s -> well_formed (utf16_encode v ++ s).
Proof.
  intros Hlead Hv Hs.
  assert (Hscalar : 0 <= v < 1114112 /\ ~ (55296 <= v <= 57343)).
  { unfold utf8_code_point in Hv.
    destruct (forallb is_continuation bs) eqn:Hc; [|discriminate]. cbn [negb] in Hv.
    unfold leading_ones in Hlead.
    destruct bs as [|b1 [|b2 [|b3 [|b4 bs]]]]; try discriminate;
      cbn [forallb] in Hc;
      repeat match type of Hc with
             | _ && _ = true => apply andb_true_iff in Hc; destruct Hc as [?H Hc]
             end;
      repeat match goal with
             | H : is_continuation _ = true |- _ => apply continuation_range in H
             end;
      cbn [length] in Hlead;
      repeat match type of Hlead with
             | context [?x <? ?y] => destruct (Z.ltb_spec x y); try discriminate
             end;
      cbv zeta in Hv;
      repeat match type of Hv with
             | context [?x <=? ?y] => destruct (Z.leb_spec x y)
             end;
      cbn [andb negb] in Hv; try discriminate; injection Hv as <-; lia. }
  destruct Hscalar as [Hr Hns]. unfold utf16_encode.
  destruct (Z.ltb_spec v 65536).
  - cbn [app]. apply wf_unit; [|assumption].
    unfold no_surrogate, is_lead_surrogate, is_trail_surrogate.
    split; apply andb_false_iff;
      destruct (Z.leb_spec 55296 v), (Z.leb_spec v 56319),
               (Z.leb_spec 56320 v), (Z.leb_spec v 57343); auto; lia.
  - cbn [app]. apply wf_pair; [| |assumption];
      unfold is_lead_surrogate, is_trail_surrogate;
      apply andb_true_iff; split; apply Z.leb_le; euclid.
Qed.

(** What [decodeURIComponent] returns is well-formed, when the text it is
    given holds no surrogate. *)
Lemma decode_loop_well_formed fuel : forall s r,
  Forall no_surrogate s -> decode_loop fuel s = Normal r -> well_formed r.
Proof.
  induction fuel as [|fuel IH]; intros s r Hs H.
  - injection H as <-. constructor.
  - destruct s as [|c t]; [injection H as <-; constructor|].
    cbn [decode_loop] in H. destruct (c =? cu "%").
    + destruct (percent_octet (c :: t)) as [[b t1]|] eqn:Hp; [|discriminate].
      pose proof (percent_octet_suffix _ _ _ _ Hp Hs) as Ht1.
      destruct (leading_ones b) as [|[|[|[|[|n]]]]] eqn:Hlead; try discriminate.
      * destruct (decode_loop fuel t1) as [x|] eqn:Hd; [|discriminate].
        injection H as <-. apply wf_unit; [|apply (IH t1 x Ht1 Hd)].
        unfold leading_ones in Hlead.
        destruct (Z.ltb_spec b 128);
          [|repeat match type of Hlead with
                   | context [?x <? ?y] => destruct (x <? y)
                   end; discriminate].
        unfold no_surrogate, is_lead_surrogate, is_trail_surrogate.
        split; apply andb_false_iff; left; apply Z.leb_gt; lia.
      * destruct (more_octets 1 t1) as [[bs t2]|] eqn:Hm; [|discriminate].
        destruct (more_octets_suffix _ _ _ _ _ Hm Ht1) as [Ht2 Hl].
        destruct (utf8_code_point b bs) as [v|] eqn:Hv; [|discriminate].
        destruct (decode_loop fuel t2) as [x|] eqn:Hd; [|discriminate].
        injection H as <-.
        apply (utf16_of_code_point b bs v); [now rewrite Hl|assumption|].
        apply (IH t2 x Ht2 Hd).
      * destruct (more_octets 2 t1) as [[bs t2]|] eqn:Hm; [|discriminate].
        destruct (more_octets_suffix _ _ _ _ _ Hm Ht1) as [Ht2 Hl].
        destruct (utf8_code_point b bs) as [v|] eqn:Hv; [|discriminate].
        destruct (decode_loop fuel t2) as [x|] eqn:Hd; [|discriminate].
        injection H as <-.
        apply (utf16_of_code_point b bs v); [now rewrite Hl|assumption|].
        apply (IH t2 x Ht2 Hd).
      * destruct (more_octets 3 t1) as [[bs t2]|] eqn:Hm; [|discriminate].
        destruct (more_octets_suffix _ _ _ _ _ Hm Ht1) as [Ht2 Hl].
        destruct (utf8_code_point b bs) as [v|] eqn:Hv; [|discriminate].
        destruct (decode_loop fuel t2) as [x|] eqn:Hd; [|discriminate].
        injection H as <-.
        apply (utf16_of_code_point b bs v); [now rewrite Hl|assumption|].
        apply (IH t2 x Ht2 Hd).
    + destruct (decode_loop fuel t) as [x|] eqn:Hd; [|discriminate].
      injection H as <-. inversion Hs as [|? ? Hc Ht]; subst.
      apply wf_unit; [assumption|apply (IH t x Ht Hd)].
Qed.

(** The edition of a page is well-formed, when its path holds no
    surrogate. *)
Lemma initialEdition_well_formed path e :
  Forall no_surrogate path -> initialEdition path = Normal (Some e) ->
  well_formed e.
Proof.
  intros Hp. unfold initialEdition.
  destruct (editionMatch path) as [m|] eqn:Hm; [|discriminate].
  apply edition_re_sound in Hm.
  destruct Hm as (pre & name & t & -> & _ & _ & _ & H1 & _). rewrite H1.
  cbn [capture_text].
  destruct (decodeURIComponent name) as [r|] eqn:Hd; [|discriminate].
  intros [= <-]. unfold decodeURIComponent in Hd.
  apply (decode_loop_well_formed _ _ _) in Hd; [assumption|].
  apply Forall_app in Hp. destruct Hp as [_ Hp].
  change (js "e/" ++ name ++ t) with (cu "e" :: cu "/" :: name ++ t) in Hp.
  inversion Hp as [|? ? _ Hp1]. inversion Hp1 as [|? ? _ Hp2].
  apply Forall_app in Hp2. apply Hp2.
Qed.

Lemma shareUrl_well_formed runtimeOrigin (e v : option jsstring) :
  match e with Some x => well_formed x | None => True end ->
  exists url, shareUrl runtimeOrigin e v = Normal url.
Proof.
  intros He. unfold shareUrl.
  assert (Henc : truthy e = true ->
                 exists enc, encodeURIComponent (text e) = Normal enc).
  { destruct e as [x|]; [|discriminate]. intros _.
    apply (encode_loop_well_formed x He). }
  destruct (truthy v), (truthy e);
    try (destruct (Henc eq_refl) as [enc ->]); eexists; reflexivity.
Qed.

Section ShareUrl.

Context {CVData : Type} (JSON_stringify : CVData -> jsstring).

(** The effects leave the edition as it is or take it away. *)
Lemma run_effects_edition (w : env CVData) (evs : list effect) :
  forall s : state CVData,
    edition (run_effects JSON_stringify w evs s) = edition s \/
    edition (run_effects JSON_stringify w evs s) = None.
Proof.
  unfold run_effects. induction evs as [|ev evs IH]; intros s; cbn [fold_left];
    [left; reflexivity|].
  destruct (IH (run_effect JSON_stringify w s ev)) as [H|H]; [|right; exact H].
  rewrite H. destruct ev; cbn [run_effect].
  - destruct (load_trace JSON_stringify w s) as [[He|[_ He]] _]; auto.
  - destruct (status_effect_keeps w s) as (He & _). left. exact He.
Qed.

(** X16. On a page that was resolved, building the share URL never
    throws: for a path without surrogates whose edition decodes, after
    any runs of the effects, [shareUrl] returns a URL, whatever the
    edition and the stamp are by then. *)
Theorem share_url_never_throws :
  forall (w : env CVData) (evs : list effect) (path : jsstring)
         (e : option jsstring) (runtimeOrigin : jsstring),
    Forall no_surrogate path ->
    initialEdition path = Normal e ->
    let s := run_effects JSON_stringify w evs (initial_state path e) in
    exists url, shareUrl runtimeOrigin (edition s) (versionHash s) = Normal url.
Proof.
  intros w evs path e ro Hp He. cbv zeta.
  apply shareUrl_well_formed.
  destruct (run_effects_edition w evs (initial_state path e)) as [H|H];
    rewrite H; [|exact I].
  cbn [initial_state edition]. destruct e as [x|]; [|exact I].
  apply (initialEdition_well_formed path x Hp He).
Qed.

End ShareUrl.

Lemma share_url_never_throws_witness :
  exists url,
    shareUrl (js "http://localhost:5173")
      (edition (run_effects (fun d => d) serves_sample [DataEffect; StatusEffect]
                  (initial_state (js "/e/%F0%9F%98%80") (Some [55357; 56832]))))
      (versionHash (run_effects (fun d => d) serves_sample [DataEffect; StatusEffect]
                  (initial_state (js "/e/%F0%9F%98%80") (Some [55357; 56832]))))
    = Normal url.
Proof.
  apply (share_url_never_throws (fun d : jsstring => d) serves_sample
           [DataEffect; StatusEffect] (js "/e/%F0%9F%98%80")
           (Some [55357; 56832]) (js "http://localhost:5173")).
  - repeat constructor.
  - vm_compute. reflexivity.
Defined.
